(** * S-DES: a shallow embedding of the [SDES] class and its contract

    The class under study is a two-round Feistel cipher over 8-bit blocks
    written in TypeScript.  Bit vectors are JavaScript arrays of numbers, the
    permutation tables and the S-boxes are drawn from [Math.random] when an
    instance is constructed, and text is handled one UTF-16 code unit at a
    time.

    The embedding keeps the JavaScript reading of every primitive the class
    uses: reading outside an array yields [undefined], the bitwise operators
    go through [ToInt32], [+] and [-] on [undefined] yield [NaN], and a
    property access on [undefined] throws a [TypeError]. *)

From Stdlib Require Import ZArith Lia Ascii String DecimalString.
From Stdlib Require ZmodInv.
From stdpp Require Import base tactics option list numbers.

Local Open Scope Z_scope.

(** ** JavaScript values *)

(** A JavaScript number.  [Int z] is the integral number [z]; the embedding
    is exact as long as magnitudes stay below 2^53, which holds for every
    number the cipher derives from bit vectors and code units. *)
Inductive num : Type :=
  | Int (z : Z)
  | NaN.

(** A value is a number or [undefined]; [None] is [undefined].  An array is a
    list of slots, each holding a value of its element type or [undefined]
    (a hole reads as [undefined] too).  The arrays of the class are dense:
    every slot of every array it builds is written before it is read. *)
Abbreviation jsval := (option num).
Abbreviation undefined := (@None _).

Definition I (z : Z) : jsval := Some (Int z).

#[global] Instance num_eq_dec : EqDecision num.
Proof. solve_decision. Defined.

Definition ToNumber (v : jsval) : num :=
  match v with
  | Some n => n
  | None => NaN
  end.

(** Reduction of an integer to the signed 32-bit range, as [ToInt32] does. *)
Definition wrap32 (z : Z) : Z := (z + 2 ^ 31) `mod` 2 ^ 32 - 2 ^ 31.

Definition ToInt32 (v : jsval) : Z :=
  match v with
  | Some (Int z) => wrap32 z
  | _ => 0
  end.

(** [a ^ b] *)
Definition js_xor (a b : jsval) : jsval :=
  Some (Int (Z.lxor (ToInt32 a) (ToInt32 b))).

(** [a << 1] *)
Definition js_shl1 (a : jsval) : jsval :=
  Some (Int (wrap32 (Z.shiftl (ToInt32 a) 1))).

(** [a + b] and [a - b] on numbers and [undefined] *)
Definition js_add (a b : jsval) : jsval :=
  match ToNumber a, ToNumber b with
  | Int x, Int y => Some (Int (x + y))
  | _, _ => Some NaN
  end.

Definition js_sub (a b : jsval) : jsval :=
  match ToNumber a, ToNumber b with
  | Int x, Int y => Some (Int (x - y))
  | _, _ => Some NaN
  end.

(** ** Arrays *)

(** The array index a value denotes when used as a property key, if any. *)
Definition as_index (v : jsval) : option nat :=
  match v with
  | Some (Int z) => if decide (0 ≤ z) then Some (Z.to_nat z) else None
  | _ => None
  end.

(** [a[i]] for a loop counter [i]: the slot, [undefined] outside the array. *)
Definition at_ {A} (a : list (option A)) (i : nat) : option A :=
  mjoin (a !! i).

(** [new Array(n)] *)
Definition new_Array {A} (n : nat) : list (option A) := replicate n undefined.

(** [a[i] = x] for a loop counter [i]: JavaScript extends the array with
    holes when [i] is past its end. *)
Definition array_set {A} (a : list (option A)) (i : nat) (x : option A)
  : list (option A) :=
  if decide (i < length a)%nat then <[i := x]> a
  else a ++ replicate (i - length a) undefined ++ [x].

(** [a[v] = x] for a computed key [v]: a key that is no array index adds a
    named property and leaves the elements alone. *)
Definition array_store {A} (a : list (option A)) (v : jsval) (x : option A)
  : list (option A) :=
  match as_index v with
  | Some i => array_set a i x
  | None => a
  end.

(** [a.slice(s, e)] and [a.slice(s)] for non-negative literals *)
Definition slice {A} (a : list A) (s e : nat) : list A :=
  take (e - s) (drop s a).

Definition slice_from {A} (a : list A) (s : nat) : list A := drop s a.

(** ** Outcomes and the two reading disciplines *)

Inductive exn : Type :=
  | TypeError
  | BadRead.

Inductive result (A : Type) : Type :=
  | Ret (a : A)
  | Throw (e : exn).
Arguments Ret {A} a.
Arguments Throw {A} e.

#[global] Instance result_ret : MRet result := λ A a, Ret a.

#[global] Instance result_bind : MBind result := λ A B k r,
  match r with
  | Ret a => k a
  | Throw e => Throw e
  end.

(** [Js] is the language's own behaviour: a read that misses the array, or
    hits a hole, evaluates to [undefined].  [Checked] runs the very same code
    but turns each such read into the fault [BadRead], so that an evaluation
    which finishes under [Checked] has performed no out-of-range access and
    no undefined lookup. *)
Inductive discipline : Type :=
  | Js
  | Checked.

Definition miss {A} (d : discipline) : result (option A) :=
  match d with
  | Js => Ret undefined
  | Checked => Throw BadRead
  end.

(** [a[v]] for a computed key [v] *)
Definition fetch {A} (d : discipline) (a : list (option A)) (v : jsval)
  : result (option A) :=
  match as_index v with
  | Some i =>
      match a !! i with
      | Some (Some x) => Ret (Some x)
      | _ => miss d
      end
  | None => miss d
  end.

(** [o[...]] or [o.method(...)] on a receiver that may be [undefined] *)
Definition receiver {A} (o : option A) : result A :=
  match o with
  | Some x => Ret x
  | None => Throw TypeError
  end.

(** [a.map((x, i) => f x i)] with a callback that may throw *)
Fixpoint map_from {A B} (f : A → nat → result B) (i : nat) (a : list A)
  : result (list B) :=
  match a with
  | [] => Ret []
  | x :: a' =>
      y ← f x i;
      ys ← map_from f (S i) a';
      Ret (y :: ys)
  end.

Definition array_map {A B} (f : A → nat → result B) (a : list A)
  : result (list B) :=
  map_from f 0%nat a.

(** ** Strings *)

(** A string is its sequence of UTF-16 code units. *)
Abbreviation jsstring := (list Z) (only parsing).

Definition code (c : ascii) : Z := Z.of_nat (nat_of_ascii c).

Fixpoint lit (s : string) : jsstring :=
  match s with
  | EmptyString => []
  | String c s' => code c :: lit s'
  end.

Fixpoint binary_digits (p : positive) : jsstring :=
  match p with
  | xH => [code "1"]
  | xO p' => binary_digits p' ++ [code "0"]
  | xI p' => binary_digits p' ++ [code "1"]
  end.

(** [n.toString(2)] *)
Definition toString2 (n : num) : jsstring :=
  match n with
  | NaN => lit "NaN"
  | Int Z0 => lit "0"
  | Int (Zpos p) => binary_digits p
  | Int (Zneg p) => code "-" :: binary_digits p
  end.

(** [String(n)] for a number, as [join] prints array elements *)
Definition toString10 (n : num) : jsstring :=
  match n with
  | NaN => lit "NaN"
  | Int z => lit (NilZero.string_of_int (Z.to_int z))
  end.

(** [s.padStart(n, "0")] *)
Definition padStart0 (n : nat) (s : jsstring) : jsstring :=
  replicate (n - length s) (code "0") ++ s.

Definition is_digit (c : Z) : bool :=
  bool_decide (code "0" ≤ c ≤ code "9").

(** [Number(ch)] and [parseInt(ch)] on a one-character string.  They agree
    on every character [toString(2)] can print (["0"], ["1"], ["-"], ["N"],
    ["a"]): a decimal digit is its value, anything else is [NaN]. *)
Definition Number_chr (c : Z) : jsval :=
  if is_digit c then Some (Int (c - code "0")) else Some NaN.

Definition parseInt_chr (c : Z) : jsval :=
  if is_digit c then Some (Int (c - code "0")) else Some NaN.

Definition is_space (c : Z) : bool :=
  bool_decide (c = 32 ∨ 9 ≤ c ≤ 13).

Fixpoint skip_spaces (s : jsstring) : jsstring :=
  match s with
  | c :: s' => if is_space c then skip_spaces s' else s
  | [] => []
  end.

(** The value of the longest prefix of binary digits, and whether there was
    at least one digit. *)
Fixpoint binary_prefix (acc : Z) (seen : bool) (s : jsstring) : Z * bool :=
  match s with
  | c :: s' =>
      if bool_decide (c = code "0") then binary_prefix (2 * acc) true s'
      else if bool_decide (c = code "1") then binary_prefix (2 * acc + 1) true s'
      else (acc, seen)
  | [] => (acc, seen)
  end.

(** [parseInt(s, 2)] *)
Definition parseInt2 (s : jsstring) : jsval :=
  let s := skip_spaces s in
  let '(sign, s) :=
    match s with
    | c :: s' =>
        if bool_decide (c = code "-") then (-1, s')
        else if bool_decide (c = code "+") then (1, s')
        else (1, s)
    | [] => (1, s)
    end in
  let '(n, seen) := binary_prefix 0 false s in
  if seen then Some (Int (sign * n)) else Some NaN.

(** [String.fromCharCode(v)]: the code unit [ToUint16 v] *)
Definition fromCharCode (v : jsval) : Z :=
  match v with
  | Some (Int z) => z `mod` 2 ^ 16
  | _ => 0
  end.

(** [a.join("")] on an array of numbers: [undefined] prints as nothing. *)
Definition join (a : list jsval) : jsstring :=
  concat ((λ v : jsval, match v with
                        | Some n => toString10 n
                        | None => []
                        end) <$> a).

(** ** The random source *)

(** One outcome of [Math.random()]: a point of the interval [0, 1).  The
    pair [(below, above)] stands for the fraction
    [below / (below + above + 1)], so every pair is a point of the interval
    and every rational point of it is some pair.  Products with the small
    lengths used here are taken exactly. *)
Record sample : Type := Sample { below : N; above : N }.

(** [Math.floor(x * n)] *)
Definition floor_mul (x : sample) (n : Z) : Z :=
  (Z.of_N (below x) * n) `div` (Z.of_N (below x) + Z.of_N (above x) + 1).

(** The process-wide generator is the stream of its future outcomes. *)
Abbreviation rng := (nat → sample).

Definition Rand (A : Type) : Type := rng → A * rng.

Definition rand_ret {A} (a : A) : Rand A := λ g, (a, g).

Definition rand_bind {A B} (r : Rand A) (k : A → Rand B) : Rand B :=
  λ g, let '(a, g') := r g in k a g'.

Notation "x ←$ r ; k" := (rand_bind r (λ x, k))
  (at level 20, r at level 100, k at level 200, only parsing).

Definition Math_random : Rand sample :=
  λ g, (g 0%nat, λ n, g (S n)).

(** [for (i of counters) s = body(i, s)], threading the generator *)
Fixpoint for_each {S} (counters : list nat) (body : nat → S → Rand S)
    (s : S) : Rand S :=
  match counters with
  | [] => rand_ret s
  | i :: rest => s' ←$ body i s; for_each rest body s'
  end.

(** ** Table and S-box generators *)

(** [for (let i = array.length - 1; i > 0; i--)], swapping slots [i] and
    [j] by the destructuring assignment: both reads precede both writes. *)
Definition shuffleArray (array : list jsval) : Rand (list jsval) :=
  for_each (rev (seq 1 (length array - 1)))
    (λ i array,
       r ←$ Math_random;
       let j := Z.to_nat (floor_mul r (Z.of_nat i + 1)) in
       let aj := at_ array j in
       let ai := at_ array i in
       rand_ret (array_set (array_set array i aj) j ai))
    array.

Definition generatePermutationTable (length : nat) : Rand (list jsval) :=
  table ←$ for_each (seq 0 length)
             (λ i table,
                r ←$ Math_random;
                rand_ret (array_set table i
                            (I (floor_mul r (Z.of_nat length) + 1))))
             (new_Array length);
  shuffleArray table.

Definition generateSBox : Rand (list (option (list jsval))) :=
  for_each (seq 0 4)
    (λ i sBox,
       row ←$ shuffleArray [I 0; I 1; I 2; I 3];
       rand_ret (array_set sBox i (Some row)))
    (new_Array 4).

(** [new Array(8).fill(0).map((_, i) => i + 1)] *)
Definition getInitialPermutation : list jsval :=
  imap (λ i _, I (Z.of_nat i + 1)) (replicate 8 (I 0)).

Definition getArrayInverse (IP : list jsval) : list jsval :=
  fold_left
    (λ IPInverse i,
       array_store IPInverse (js_sub (at_ IP i) (I 1)) (I (Z.of_nat i + 1)))
    (seq 0 (length IP)) (new_Array (length IP)).

(** ** The cipher *)

Record SubKeys : Type := { key1 : list jsval; key2 : list jsval }.

Record SDES : Type := {
  key : list jsval;
  IP : list jsval;
  IPInverse : list jsval;
  P10 : list jsval;
  P8 : list jsval;
  P4 : list jsval;
  BOX_1 : list (option (list jsval));
  BOX_2 : list (option (list jsval));
  subKeys : SubKeys
}.

Section Cipher.

Variable d : discipline.

Definition permute (input permutationTable : list jsval)
  : result (list jsval) :=
  array_map (λ index _, fetch d input (js_sub index (I 1))) permutationTable.

Definition circularLeftShift (input : list jsval) (shiftNumber : nat)
  : list jsval :=
  slice_from input shiftNumber ++ slice input 0 shiftNumber.

(** [generateSubKeys] reads [this.key], [this.P10] and [this.P8]; the
    constructor calls it once those three fields are set. *)
Definition generateSubKeys (key P10 P8 : list jsval) : result SubKeys :=
  permutedKey ← permute key P10;
  let left := slice permutedKey 0 5 in
  let right := slice permutedKey 5 10 in
  let left := circularLeftShift left 1 in
  let right := circularLeftShift right 1 in
  key1 ← permute (left ++ right) P8;
  let left := circularLeftShift left 2 in
  let right := circularLeftShift right 2 in
  key2 ← permute (left ++ right) P8;
  Ret {| key1 := key1; key2 := key2 |}.

Definition expandAndPermute (right : list jsval) : result (list jsval) :=
  let expansionPermutation := [I 4; I 1; I 2; I 3; I 2; I 3; I 4; I 1] in
  permute right expansionPermutation.

Definition xor (bits1 bits2 : list jsval) : result (list jsval) :=
  array_map
    (λ bit i, b ← fetch d bits2 (I (Z.of_nat i)); Ret (js_xor bit b))
    bits1.

(** [box[row][col].toString(2).padStart(2, "0").split("").map(Number)] *)
Definition sBoxLookup (box : list (option (list jsval))) (row col : jsval)
  : result (list jsval) :=
  r ← fetch d box row;
  r ← receiver r;
  v ← fetch d r col;
  n ← receiver v;
  Ret (Number_chr <$> padStart0 2 (toString2 n)).

Definition sBox (c : SDES) (input : list jsval) : result (list jsval) :=
  let leftInput := slice input 0 4 in
  let rightInput := slice input 4 8 in
  l0 ← fetch d leftInput (I 0);
  l3 ← fetch d leftInput (I 3);
  let row1 := js_add (js_shl1 l0) l3 in
  l1 ← fetch d leftInput (I 1);
  l2 ← fetch d leftInput (I 2);
  let col1 := js_add (js_shl1 l1) l2 in
  r0 ← fetch d rightInput (I 0);
  r3 ← fetch d rightInput (I 3);
  let row2 := js_add (js_shl1 r0) r3 in
  r1 ← fetch d rightInput (I 1);
  r2 ← fetch d rightInput (I 2);
  let col2 := js_add (js_shl1 r1) r2 in
  sBox1Result ← sBoxLookup (BOX_1 c) row1 col1;
  sBox2Result ← sBoxLookup (BOX_2 c) row2 col2;
  Ret (sBox1Result ++ sBox2Result).

Definition p4Permutation (c : SDES) (input : list jsval)
  : result (list jsval) :=
  array_map
    (λ _ i, p ← fetch d (P4 c) (I (Z.of_nat i));
            fetch d input (js_sub p (I 1)))
    input.

Definition round (c : SDES) (left right key : list jsval)
  : result (list jsval * list jsval) :=
  expandedRight ← expandAndPermute right;
  xorResult ← xor expandedRight key;
  sBoxResult ← sBox c xorResult;
  p4Result ← p4Permutation c sBoxResult;
  newLeft ← xor left p4Result;
  Ret (newLeft, right).

Definition encrypt (c : SDES) (value : list jsval) : result (list jsval) :=
  data ← permute value (IP c);
  let left := slice data 0 4 in
  let right := slice data 4 8 in
  halves ← round c left right (key1 (subKeys c));
  let left := halves.1 in
  let right := halves.2 in
  let halves := (right, left) in
  let left := halves.1 in
  let right := halves.2 in
  halves ← round c left right (key2 (subKeys c));
  let left := halves.1 in
  let right := halves.2 in
  permute (left ++ right) (IPInverse c).

Definition decrypt (c : SDES) (ciphertext : list jsval)
  : result (list jsval) :=
  data ← permute ciphertext (IP c);
  let left := slice data 0 4 in
  let right := slice data 4 8 in
  halves ← round c left right (key2 (subKeys c));
  let left := halves.1 in
  let right := halves.2 in
  let halves := (right, left) in
  let left := halves.1 in
  let right := halves.2 in
  halves ← round c left right (key1 (subKeys c));
  let left := halves.1 in
  let right := halves.2 in
  permute (left ++ right) (IPInverse c).

(** [input.split("").map(ch => ch.charCodeAt(0).toString(2).padStart(8, "0"))
    .join("").split("").map(num => parseInt(num))] *)
Definition stringToBinary (input : jsstring) : list jsval :=
  parseInt_chr <$>
    concat ((λ ch, padStart0 8 (toString2 (Int ch))) <$> input).

(** The counters [0, 8, 16, ...] below [n] that
    [for (let i = 0; i < n; i += 8)] runs through. *)
Definition steps8 (n : nat) : list nat :=
  (λ k, 8 * k)%nat <$> seq 0 ((n + 7) / 8).

Definition binaryToString (input : list jsval) : jsstring :=
  let binaryString := join input in
  fold_left
    (λ output i,
       let byte := slice binaryString i (i + 8) in
       output ++ [fromCharCode (parseInt2 byte)])
    (steps8 (length binaryString)) [].

(** The loop shared by [encryptText] and [decryptText]:
    [out.push(...f(bits.slice(i, i + 8)))] for each counter. *)
Fixpoint each_block (f : list jsval → result (list jsval))
    (bits : list jsval) (counters : list nat) (out : list jsval)
  : result (list jsval) :=
  match counters with
  | [] => Ret out
  | i :: rest =>
      let block := slice bits i (i + 8) in
      b ← f block;
      each_block f bits rest (out ++ b)
  end.

Definition encryptText (c : SDES) (plaintext : jsstring) : result jsstring :=
  let binaryPlaintext := stringToBinary plaintext in
  encryptedBinary ←
    each_block (encrypt c) binaryPlaintext
      (steps8 (length binaryPlaintext)) [];
  Ret (binaryToString encryptedBinary).

Definition decryptText (c : SDES) (ciphertext : jsstring) : result jsstring :=
  let binaryEncryptedText := stringToBinary ciphertext in
  decryptedBinary ←
    each_block (decrypt c) binaryEncryptedText
      (steps8 (length binaryEncryptedText)) [];
  Ret (binaryToString decryptedBinary).

(** The constructor, in the order of its assignments. *)
Definition SDES_new (key : list jsval) : Rand (result SDES) :=
  P4 ←$ generatePermutationTable 4;
  P8 ←$ generatePermutationTable 8;
  P10 ←$ generatePermutationTable 10;
  let IP := getInitialPermutation in
  let IPInverse := getArrayInverse IP in
  BOX_1 ←$ generateSBox;
  BOX_2 ←$ generateSBox;
  rand_ret
    (subKeys ← generateSubKeys key P10 P8;
     Ret {| key := key; IP := IP; IPInverse := IPInverse;
            P10 := P10; P8 := P8; P4 := P4;
            BOX_1 := BOX_1; BOX_2 := BOX_2; subKeys := subKeys |}).

End Cipher.

(** ** Bit vectors, tables and S-boxes as plain integers *)

(** An array of the numbers [v]. *)
Definition nums (v : list Z) : list jsval := I <$> v.

(** A matrix whose rows are the arrays of the numbers [b]. *)
Definition rows (b : list (list Z)) : list (option (list jsval)) :=
  (λ r, Some (nums r)) <$> b.

Definition is_bit (b : Z) : Prop := b = 0 ∨ b = 1.

(** An [n]-bit vector of 0/1 integers *)
Definition bitvec (n : nat) (v : list Z) : Prop :=
  length v = n ∧ Forall is_bit v.

(** A table of [len] one-based source positions into an [n]-element input *)
Definition table (len n : nat) (t : list Z) : Prop :=
  length t = len ∧ Forall (λ k, 1 ≤ k ≤ Z.of_nat n) t.

(** A 4x4 matrix with entries in 0..3 *)
Definition sbox4 (b : list (list Z)) : Prop :=
  length b = 4%nat ∧
  Forall (λ r, length r = 4%nat ∧ Forall (λ x, 0 ≤ x ≤ 3) r) b.

(** ** The specification's words

    These definitions follow the prose of the specification, over plain
    integers; the theorems compare them with the class. *)

(** Output position [i] holds the input bit at [table[i] - 1]. *)
Definition spec_permute (v t : list Z) : list Z :=
  (λ k, nth (Z.to_nat (k - 1)) v 0) <$> t.

(** Rotation: the evicted leading elements wrap to the tail. *)
Definition spec_rotl (n : nat) (v : list Z) : list Z :=
  drop n v ++ take n v.

Definition spec_xor (a b : list Z) : list Z := zip_with Z.lxor a b.

(** The key schedule of section 4.3, steps 1 to 6. *)
Definition spec_subkeys (k p10 p8 : list Z) : list Z * list Z :=
  let permuted := spec_permute k p10 in
  let l := take 5 permuted in
  let r := take 5 (drop 5 permuted) in
  let l1 := spec_rotl 1 l in
  let r1 := spec_rotl 1 r in
  let k1 := spec_permute (l1 ++ r1) p8 in
  let l2 := spec_rotl 2 l1 in
  let r2 := spec_rotl 2 r1 in
  let k2 := spec_permute (l2 ++ r2) p8 in
  (k1, k2).

(** Expansion by the fixed pattern [4,1,2,3,2,3,4,1]. *)
Definition spec_expand (r : list Z) : list Z :=
  spec_permute r [4; 1; 2; 3; 2; 3; 4; 1].

(** A looked-up value 0..3 as two bits, most significant first. *)
Definition spec_two_bits (x : Z) : list Z := [x `div` 2; x `mod` 2].

(** Row from bit 0 and bit 3, column from bit 1 and bit 2 of a half. *)
Definition spec_lookup (box : list (list Z)) (h : list Z) : Z :=
  let bit i := nth i h 0 in
  let row := bit 0%nat * 2 + bit 3%nat in
  let col := bit 1%nat * 2 + bit 2%nat in
  nth (Z.to_nat col) (nth (Z.to_nat row) box []) 0.

Definition spec_sbox (b1 b2 : list (list Z)) (x : list Z) : list Z :=
  spec_two_bits (spec_lookup b1 (take 4 x)) ++
  spec_two_bits (spec_lookup b2 (drop 4 x)).

(** The round of section 4.4: the new left half. *)
Definition spec_new_left (p4 : list Z) (b1 b2 : list (list Z))
    (l r sk : list Z) : list Z :=
  spec_xor l (spec_permute (spec_sbox b1 b2 (spec_xor (spec_expand r) sk)) p4).

(** ** Cipher states over plain integers *)

(** The tables and S-boxes of an instance, as integers. *)
Record params : Type := Params {
  tIP : list Z;
  tIPInverse : list Z;
  tP10 : list Z;
  tP8 : list Z;
  tP4 : list Z;
  tBOX_1 : list (list Z);
  tBOX_2 : list (list Z)
}.

(** Every table of length [L] has its entries in [1, L]; both S-boxes are
    4x4 with entries in 0..3. *)
Definition in_range (T : params) : Prop :=
  table 8 8 (tIP T) ∧ table 8 8 (tIPInverse T) ∧
  table 10 10 (tP10 T) ∧ table 8 8 (tP8 T) ∧ table 4 4 (tP4 T) ∧
  sbox4 (tBOX_1 T) ∧ sbox4 (tBOX_2 T).

(** [c] is the state of an instance with master key [k] and parameters [T]:
    its fields hold them, and its subkeys are the ones the key schedule
    derives from its own key, P10 and P8. *)
Definition state (d : discipline) (T : params) (k : list Z) (c : SDES) : Prop :=
  key c = nums k ∧
  IP c = nums (tIP T) ∧ IPInverse c = nums (tIPInverse T) ∧
  P10 c = nums (tP10 T) ∧ P8 c = nums (tP8 T) ∧ P4 c = nums (tP4 T) ∧
  BOX_1 c = rows (tBOX_1 T) ∧ BOX_2 c = rows (tBOX_2 T) ∧
  generateSubKeys d (key c) (P10 c) (P8 c) = Ret (subKeys c).

(** The two rounds between the initial and the final permutation, with the
    swap in between: the block [l ++ r] becomes [r' ++ l'] where
    [l' = l xor F(r, ka)] and [r' = r xor F(l', kb)]. *)
Definition feistel (T : params) (ka kb v : list Z) : list Z :=
  let l := slice v 0 4 in
  let r := slice v 4 8 in
  let l' := spec_new_left (tP4 T) (tBOX_1 T) (tBOX_2 T) l r ka in
  let r' := spec_new_left (tP4 T) (tBOX_1 T) (tBOX_2 T) r l' kb in
  r' ++ l'.

(** Section 4.5 over integers: IP, two rounds with the subkeys in order
    (reversed for decryption), inverse IP. *)
Definition spec_encrypt (T : params) (k v : list Z) : list Z :=
  spec_permute
    (feistel T (spec_subkeys k (tP10 T) (tP8 T)).1
               (spec_subkeys k (tP10 T) (tP8 T)).2
               (spec_permute v (tIP T)))
    (tIPInverse T).

Definition spec_decrypt (T : params) (k v : list Z) : list Z :=
  spec_permute
    (feistel T (spec_subkeys k (tP10 T) (tP8 T)).2
               (spec_subkeys k (tP10 T) (tP8 T)).1
               (spec_permute v (tIP T)))
    (tIPInverse T).

Definition identity8 : list Z := [1; 2; 3; 4; 5; 6; 7; 8].

(** The integer a slot holds, 0 when it holds none. *)
Definition int_of (x : jsval) : Z :=
  match x with
  | Some (Int z) => z
  | _ => 0
  end.

(** A slot that JavaScript's bitwise operators read as the bit [z]: the
    number [z] itself, or [undefined] where [z] is 0. *)
Definition loose (x : jsval) (z : Z) : Prop :=
  x = I z ∨ (x = undefined ∧ z = 0).

(** An array that reads, position by position, as the integers [b]; its
    own length does not matter. *)
Definition reads_as (a : list jsval) (b : list Z) : Prop :=
  ∀ i z, b !! i = Some z → loose (at_ a i) z.

(** A block cut or zero-filled to eight elements. *)
Definition fit8 (v : list Z) : list Z := take 8 (v ++ replicate 8 0).

(** ** Bytes *)

(** The eight bits of a code unit below 256, most significant first. *)
Definition byte_bits (ch : Z) : list Z :=
  (λ i, Z.b2z (Z.testbit ch i)) <$> [7; 6; 5; 4; 3; 2; 1; 0].

(** The code unit [binaryToString] makes of one group of eight bits. *)
Definition byte_char (b : list Z) : Z :=
  fromCharCode (parseInt2 (join (nums b))).

(** The binary digits of a positive number as integers, most significant
    first. *)
Fixpoint bit_digits (p : positive) : list Z :=
  match p with
  | xH => [1]
  | xO p' => bit_digits p' ++ [0]
  | xI p' => bit_digits p' ++ [1]
  end.

(** The two directions of the byte codec, as checks that can be run over
    all 256 code units and all 256 bit patterns. *)
Definition byte_ok (ch : Z) : bool :=
  bool_decide
    (parseInt_chr <$> padStart0 8 (toString2 (Int ch)) = nums (byte_bits ch))
  && bool_decide (byte_char (byte_bits ch) = ch).

Definition block_ok (b : list Z) : bool :=
  bool_decide (0 ≤ byte_char b ≤ 255)
  && bool_decide (byte_bits (byte_char b) = b).

(** ** Sample generators and a sample instance *)

(** A generator that answers the same outcome for ever; [zero] is the
    outcome 0. *)
Definition constant_rng (x : sample) : rng := λ _, x.

Definition zero : sample := Sample 0 0.

(** A generator whose outcomes vary: the fractions [p / 13]. *)
Definition demo_rng : rng :=
  λ n, let p := ((7 * n * n + 3 * n) `mod` 13)%nat in
       Sample (N.of_nat p) (N.of_nat (12 - p)).

(** The key of the demonstration at the end of the source file. *)
Definition demo_key : list Z := [0; 0; 0; 1; 0; 1; 0; 0; 1; 1].

Definition demo_block : list Z := [1; 0; 1; 1; 0; 1; 0; 1].

(** A text with a code unit beyond one byte: the euro sign, then "A". *)
Definition demo_wide_text : list Z := [8364; 65].

Definition demo_params : params :=
  {| tIP := identity8;
     tIPInverse := identity8;
     tP10 := [3; 5; 2; 7; 4; 10; 1; 9; 8; 6];
     tP8 := [6; 3; 7; 4; 8; 5; 2; 1];
     tP4 := [2; 4; 3; 1];
     tBOX_1 := [[1; 0; 3; 2]; [3; 2; 1; 0]; [0; 2; 1; 3]; [3; 1; 0; 2]];
     tBOX_2 := [[0; 1; 2; 3]; [2; 0; 1; 3]; [3; 0; 1; 2]; [2; 1; 0; 3]] |}.

Definition demo_subKeys : SubKeys :=
  Eval vm_compute in
    {| key1 := nums (spec_subkeys demo_key (tP10 demo_params)
                       (tP8 demo_params)).1;
       key2 := nums (spec_subkeys demo_key (tP10 demo_params)
                       (tP8 demo_params)).2 |}.

Definition demo_instance : SDES :=
  {| key := nums demo_key;
     IP := nums (tIP demo_params);
     IPInverse := nums (tIPInverse demo_params);
     P10 := nums (tP10 demo_params);
     P8 := nums (tP8 demo_params);
     P4 := nums (tP4 demo_params);
     BOX_1 := rows (tBOX_1 demo_params);
     BOX_2 := rows (tBOX_2 demo_params);
     subKeys := demo_subKeys |}.

(** ** The big-integer routines of the RSA class and the prime test

    A [bigint] is an integer.  [/] and [%] truncate towards zero ([Z.quot]
    and [Z.rem]) and throw a [RangeError] when the divisor is zero; [>>] is
    the arithmetic shift.  A loop takes the number of iterations it may run
    as [fuel] and answers [None] when that is used up; the theorems give a
    bound on the fuel from which the loop returns. *)

Module RSA.

Inductive outcome (A : Type) : Type :=
  | Value (a : A)
  | RangeError.
Arguments Value {A} a.
Arguments RangeError {A}.

(** [while (b !== 0n) { t = b; b = a % b; a = t; } return a] *)
Fixpoint gcd (fuel : nat) (a b : Z) : option Z :=
  match fuel with
  | O => None
  | S fuel' => if decide (b = 0) then Some a else gcd fuel' b (Z.rem a b)
  end.

(** The loop of [modInverse]: [q = e / phi] throws on [phi = 0]; then
    [(e, phi)] becomes [(phi, e % phi)] and [(x, y)] becomes
    [(y, x - q * y)]. *)
Fixpoint modInverse_loop (fuel : nat) (e phi x y : Z) : option (outcome Z) :=
  match fuel with
  | O => None
  | S fuel' =>
      if decide (1 < e) then
        if decide (phi = 0) then Some RangeError
        else
          let q := Z.quot e phi in
          modInverse_loop fuel' phi (Z.rem e phi) y (x - q * y)
      else Some (Value x)
  end.

Definition modInverse (fuel : nat) (e phi : Z) : option (outcome Z) :=
  let m0 := phi in
  if decide (phi = 1) then Some (Value 0)
  else
    match modInverse_loop fuel e phi 1 0 with
    | Some (Value x) => Some (Value (if decide (x < 0) then x + m0 else x))
    | r => r
    end.

(** The loop of [modPow]; the modulus is not zero once [base % modulus] has
    been computed. *)
Fixpoint modPow_loop (fuel : nat) (result base exponent modulus : Z)
  : option Z :=
  match fuel with
  | O => None
  | S fuel' =>
      if decide (0 < exponent) then
        let result :=
          if decide (Z.rem exponent 2 = 1) then Z.rem (result * base) modulus
          else result in
        let exponent := Z.shiftr exponent 1 in
        let base := Z.rem (base * base) modulus in
        modPow_loop fuel' result base exponent modulus
      else Some result
  end.

Definition modPow (fuel : nat) (base exponent modulus : Z)
  : option (outcome Z) :=
  if decide (modulus = 0) then Some RangeError
  else Value <$> modPow_loop fuel 1 (Z.rem base modulus) exponent modulus.

(** [let e = 3n; while (this.gcd(e, phi) !== 1n) e++]: [steps] bounds the
    iterations of this loop, [fuel] those of each call of [gcd]. *)
Fixpoint choose_e (steps fuel : nat) (e phi : Z) : option Z :=
  match steps with
  | O => None
  | S steps' =>
      match gcd fuel e phi with
      | None => None
      | Some g =>
          if decide (g = 1) then Some e else choose_e steps' fuel (e + 1) phi
      end
  end.

(** [{ publicKey: { e, n }, privateKey: { d, n } }] *)
Record KeyPair : Type := { publicKey : Z * Z; privateKey : Z * Z }.

Definition generateKeys (fuel : nat) (p q : Z) : option (outcome KeyPair) :=
  let n := p * q in
  let phi := (p - 1) * (q - 1) in
  match choose_e fuel fuel 3 phi with
  | None => None
  | Some e =>
      match modInverse fuel e phi with
      | None => None
      | Some RangeError => Some RangeError
      | Some (Value d) =>
          Some (Value {| publicKey := (e, n); privateKey := (d, n) |})
      end
  end.

(** [encrypt] and [decrypt] raise the value to the exponent of the key
    modulo the modulus of the key. *)
Definition encrypt (fuel : nat) (value : Z) (publicKey : Z * Z)
  : option (outcome Z) :=
  modPow fuel value publicKey.1 publicKey.2.

Definition decrypt (fuel : nat) (cipherValue : Z) (privateKey : Z * Z)
  : option (outcome Z) :=
  modPow fuel cipherValue privateKey.1 privateKey.2.

End RSA.

(** The loop of [isPrime]:
    [for (let i = 3n; i * i <= num; i += 2n) if (num % i === 0n) return false] *)
Fixpoint isPrime_loop (fuel : nat) (i num : Z) : option bool :=
  match fuel with
  | O => None
  | S fuel' =>
      if decide (i * i ≤ num) then
        if decide (Z.rem num i = 0) then Some false
        else isPrime_loop fuel' (i + 2) num
      else Some true
  end.

Definition isPrime (fuel : nat) (num : Z) : option bool :=
  if decide (num < 2) then Some false
  else if decide (num = 2) then Some true
  else if decide (Z.rem num 2 = 0) then Some false
  else isPrime_loop fuel 3 num.

Ltac solve_bits :=
  repeat first
    [ split
    | reflexivity
    | apply List.Forall_nil
    | apply List.Forall_cons
    | by left
    | by right
    | lia ].

(** * Lemmas *)

(** ** The embedding at work *)

Example demo_construction :
  (SDES_new Js (nums demo_key) demo_rng).1
  = Ret {| key := nums demo_key;
           IP := nums [1; 2; 3; 4; 5; 6; 7; 8];
           IPInverse := nums [1; 2; 3; 4; 5; 6; 7; 8];
           P10 := nums [7; 7; 8; 2; 4; 6; 1; 7; 7; 6];
           P8 := nums [3; 6; 1; 7; 3; 1; 2; 6];
           P4 := nums [1; 3; 4; 3];
           BOX_1 := rows [[0; 3; 1; 2]; [1; 0; 3; 2]; [3; 0; 2; 1]; [1; 3; 0; 2]];
           BOX_2 := rows [[0; 2; 1; 3]; [0; 3; 1; 2]; [2; 1; 3; 0]; [1; 3; 2; 0]];
           subKeys := {| key1 := nums [0; 0; 0; 0; 0; 0; 0; 0];
                         key2 := nums [0; 0; 0; 1; 0; 0; 1; 0] |} |}.
Proof. vm_compute. reflexivity. Qed.

Example demo_encrypt :
  encrypt Checked demo_instance (nums demo_block)
  = Ret (nums [0; 1; 1; 0; 0; 0; 1; 0]).
Proof. vm_compute. reflexivity. Qed.

Example demo_decrypt :
  decrypt Checked demo_instance (nums [0; 1; 1; 0; 0; 0; 1; 0])
  = Ret (nums demo_block).
Proof. vm_compute. reflexivity. Qed.

Example demo_encryptText :
  encryptText Checked demo_instance (lit "vixeven@UTM")
  = Ret [123; 39; 133; 31; 123; 31; 175; 5; 204; 42; 208].
Proof. vm_compute. reflexivity. Qed.

(** A block that is too short is padded with [undefined] by the language
    and still encrypted; the checked discipline reports the first read past
    its end. *)
Example short_block_js :
  ∃ ct, encrypt Js demo_instance (nums [1; 0; 1]) = Ret ct ∧ length ct = 8%nat.
Proof. eexists. split; [vm_compute; reflexivity|reflexivity]. Qed.

Example short_block_checked :
  encrypt Checked demo_instance (nums [1; 0; 1]) = Throw BadRead.
Proof. vm_compute. reflexivity. Qed.

(** A block of numbers that are no bits drives the S-box lookup outside the
    matrix, and the property access on [undefined] throws. *)
Example wide_block_js :
  encrypt Js demo_instance (nums [5; 0; 1; 1; 0; 1; 0; 1]) = Throw TypeError.
Proof. vm_compute. reflexivity. Qed.

(** [join] prints numbers in decimal, [undefined] as nothing; [parseInt]
    stops at the first character that is no binary digit. *)
Example binaryToString_mixed :
  binaryToString [I 1; I 0; None; I 12; I (-3); Some NaN] = [5; 0].
Proof. vm_compute. reflexivity. Qed.

(** ** Reading and mapping arrays of numbers *)

Lemma wrap32_small z : - 2 ^ 31 ≤ z < 2 ^ 31 → wrap32 z = z.
Proof.
  intros Hz. unfold wrap32.
  rewrite Z.mod_small by lia. lia.
Qed.

Lemma length_nums v : length (nums v) = length v.
Proof. apply length_fmap. Qed.

Lemma nums_app a b : nums (a ++ b) = nums a ++ nums b.
Proof. apply fmap_app. Qed.

Lemma nums_take n v : take n (nums v) = nums (take n v).
Proof. symmetry. apply fmap_take. Qed.

Lemma nums_drop n v : drop n (nums v) = nums (drop n v).
Proof. symmetry. apply fmap_drop. Qed.

Lemma nums_inj a b : nums a = nums b → a = b.
Proof.
  revert b. induction a as [|x a IH]; intros [|y b] H; simplify_eq/=; auto.
  f_equal; auto.
Qed.

Lemma as_index_nat (i : nat) : as_index (I (Z.of_nat i)) = Some i.
Proof.
  unfold as_index, I. rewrite decide_True by lia. by rewrite Nat2Z.id.
Qed.

Lemma fetch_nums d v (i : nat) z :
  v !! i = Some z → fetch d (nums v) (I (Z.of_nat i)) = Ret (I z).
Proof.
  intros H. unfold fetch. rewrite as_index_nat.
  unfold nums. rewrite list_lookup_fmap, H. done.
Qed.

Lemma nth_lookup_Z (v : list Z) i z : v !! i = Some z → nth i v 0 = z.
Proof. intros H. by apply nth_lookup_Some. Qed.

Lemma fetch_nums_pred d v k :
  1 ≤ k ≤ Z.of_nat (length v) →
  fetch d (nums v) (js_sub (I k) (I 1)) = Ret (I (nth (Z.to_nat (k - 1)) v 0)).
Proof.
  intros Hk.
  destruct (lookup_lt_is_Some_2 v (Z.to_nat (k - 1))) as [z Hz]; [lia|].
  change (js_sub (I k) (I 1)) with (I (k - 1)).
  replace (k - 1) with (Z.of_nat (Z.to_nat (k - 1))) at 1 by lia.
  rewrite (fetch_nums d v _ z Hz). by rewrite (nth_lookup_Z _ _ _ Hz).
Qed.

(** Two traversals agree when their callbacks agree slot by slot. *)
Lemma map_from_ext {A A' B} (f : A → nat → result B) (f' : A' → nat → result B)
    i (a : list A) (a' : list A') :
  length a = length a' →
  (∀ k x y, a !! k = Some x → a' !! k = Some y →
            f x (i + k)%nat = f' y (i + k)%nat) →
  map_from f i a = map_from f' i a'.
Proof.
  revert i a'. induction a as [|x a IH]; intros i [|y a'] Hlen H;
    simplify_eq/=; [done|].
  pose proof (H 0%nat x y eq_refl eq_refl) as H0.
  rewrite Nat.add_0_r in H0. rewrite H0.
  destruct (f' y i); simpl; [|done].
  rewrite (IH (S i) a'); [done|lia|].
  intros k x' y' Hx Hy. specialize (H (S k) x' y' Hx Hy).
  by rewrite Nat.add_succ_r in H.
Qed.

(** A traversal whose callback returns at every slot returns the mapped
    array. *)
Lemma map_from_ret {A B} (f : A → nat → result B) (h : A → B) i (a : list A) :
  (∀ k x, a !! k = Some x → f x (i + k)%nat = Ret (h x)) →
  map_from f i a = Ret (h <$> a).
Proof.
  revert i. induction a as [|x a IH]; intros i H; simpl; [done|].
  pose proof (H 0%nat x eq_refl) as H0.
  rewrite Nat.add_0_r in H0. rewrite H0. simpl.
  rewrite (IH (S i)); [done|].
  intros k x' Hx. specialize (H (S k) x' Hx).
  by rewrite Nat.add_succ_r in H.
Qed.

Lemma permute_nums d v t :
  Forall (λ k, 1 ≤ k ≤ Z.of_nat (length v)) t →
  permute d (nums v) (nums t) = Ret (nums (spec_permute v t)).
Proof.
  intros Ht. unfold permute, array_map.
  rewrite (map_from_ret _
             (λ x : jsval, I (nth (Z.to_nat (int_of x - 1)) v 0))).
  - f_equal. unfold nums, spec_permute. by rewrite <- !list_fmap_compose.
  - intros k x Hx. unfold nums in Hx. rewrite list_lookup_fmap in Hx.
    destruct (t !! k) as [z|] eqn:Hz; simplify_eq/=.
    rewrite Forall_lookup in Ht. specialize (Ht k z Hz).
    by rewrite fetch_nums_pred.
Qed.

Lemma length_spec_permute v t : length (spec_permute v t) = length t.
Proof. apply length_fmap. Qed.

Lemma spec_permute_bits v t :
  Forall is_bit v → Forall (λ k, 1 ≤ k ≤ Z.of_nat (length v)) t →
  Forall is_bit (spec_permute v t).
Proof.
  intros Hv Ht. unfold spec_permute. apply Forall_fmap.
  eapply List.Forall_impl; [|exact Ht]. intros k Hk. simpl in *.
  destruct (lookup_lt_is_Some_2 v (Z.to_nat (k - 1))) as [z Hz]; [lia|].
  rewrite (nth_lookup_Z _ _ _ Hz).
  rewrite Forall_lookup in Hv. eauto.
Qed.

Lemma bind_Ret {A B} (a : A) (k : A → result B) : (Ret a ≫= k) = k a.
Proof. done. Qed.

Lemma slice_nums v s e : slice (nums v) s e = nums (slice v s e).
Proof. unfold slice. by rewrite nums_drop, nums_take. Qed.

Lemma js_xor_bits x y :
  is_bit x → is_bit y → js_xor (I x) (I y) = I (Z.lxor x y).
Proof. by intros [-> | ->] [-> | ->]. Qed.

Lemma js_shl1_bit x : is_bit x → js_shl1 (I x) = I (x * 2).
Proof. by intros [-> | ->]. Qed.

Lemma lxor_bit x y : is_bit x → is_bit y → is_bit (Z.lxor x y).
Proof. intros [-> | ->] [-> | ->]; first [by left | by right]. Qed.

Lemma xor_from d a b i :
  Forall is_bit a → Forall is_bit b → (i + length a ≤ length b)%nat →
  map_from (λ bit i, b' ← fetch d (nums b) (I (Z.of_nat i)); Ret (js_xor bit b'))
    i (nums a)
  = Ret (nums (zip_with Z.lxor a (drop i b))).
Proof.
  intros Ha Hb. revert i.
  induction Ha as [|x a Hx Ha IH]; intros i Hlen; simpl in *; [done|].
  destruct (lookup_lt_is_Some_2 b i) as [y Hy]; [lia|].
  rewrite (fetch_nums d b i y Hy), bind_Ret, bind_Ret.
  rewrite IH by lia. simpl.
  rewrite (drop_S b y i Hy). simpl.
  rewrite js_xor_bits; [done..|].
  rewrite Forall_lookup in Hb. eauto.
Qed.

Lemma xor_nums d a b :
  Forall is_bit a → Forall is_bit b → length a = length b →
  xor d (nums a) (nums b) = Ret (nums (spec_xor a b)).
Proof.
  intros Ha Hb Hlen. unfold xor, array_map.
  rewrite xor_from; [done..|lia].
Qed.

Lemma spec_xor_bitvec n a b :
  bitvec n a → bitvec n b → bitvec n (spec_xor a b).
Proof.
  intros [Hla Ha] [Hlb Hb]. split.
  - unfold spec_xor. rewrite length_zip_with. lia.
  - clear Hla Hlb. revert b Hb.
    induction Ha as [|x a Hx Ha IH]; intros b Hb; [constructor|].
    destruct Hb as [|y b Hy Hb]; [constructor|].
    constructor; [by apply lxor_bit|by apply IH].
Qed.

(** XOR with the same mask twice restores a vector. *)
Lemma spec_xor_cancel a b :
  length a = length b → spec_xor (spec_xor a b) b = a.
Proof.
  revert b. induction a as [|x a IH]; intros [|y b] Hlen;
    simplify_eq/=; [done|].
  unfold spec_xor in *. f_equal; [|by apply IH].
  rewrite Z.lxor_assoc, Z.lxor_nilpotent. apply Z.lxor_0_r.
Qed.

(** ** The S-boxes *)

Lemma fetch_at {A} d (a : list (option A)) z x :
  0 ≤ z → a !! Z.to_nat z = Some (Some x) → fetch d a (I z) = Ret (Some x).
Proof.
  intros Hz H. unfold fetch, as_index, I.
  rewrite decide_True by done. by rewrite H.
Qed.

Lemma two_bits_digits x :
  0 ≤ x ≤ 3 →
  Number_chr <$> padStart0 2 (toString2 (Int x)) = nums (spec_two_bits x).
Proof.
  intros Hx.
  assert (x = 0 ∨ x = 1 ∨ x = 2 ∨ x = 3) as [-> | [-> | [-> | ->]]] by lia;
    done.
Qed.

Lemma spec_two_bits_bitvec x : 0 ≤ x ≤ 3 → bitvec 2 (spec_two_bits x).
Proof.
  intros Hx.
  assert (x = 0 ∨ x = 1 ∨ x = 2 ∨ x = 3) as [-> | [-> | [-> | ->]]] by lia;
    (split; [done|]); repeat constructor; first [by left | by right].
Qed.

Lemma sbox4_entry b row col :
  sbox4 b → 0 ≤ row ≤ 3 → 0 ≤ col ≤ 3 →
  ∃ r x, b !! Z.to_nat row = Some r ∧ r !! Z.to_nat col = Some x ∧ 0 ≤ x ≤ 3.
Proof.
  intros [Hlen Hrows] Hrow Hcol.
  destruct (lookup_lt_is_Some_2 b (Z.to_nat row)) as [r Hr]; [lia|].
  rewrite Forall_lookup in Hrows. destruct (Hrows _ _ Hr) as [Hlr Hxs].
  destruct (lookup_lt_is_Some_2 r (Z.to_nat col)) as [x Hx]; [lia|].
  rewrite Forall_lookup in Hxs.
  exists r, x. split; [done|]. split; [done|]. exact (Hxs _ _ Hx).
Qed.

Lemma sBoxLookup_rows d b row col :
  sbox4 b → 0 ≤ row ≤ 3 → 0 ≤ col ≤ 3 →
  sBoxLookup d (rows b) (I row) (I col)
  = Ret (nums (spec_two_bits
                 (nth (Z.to_nat col) (nth (Z.to_nat row) b []) 0))).
Proof.
  intros Hb Hrow Hcol.
  destruct (sbox4_entry b row col Hb Hrow Hcol) as (r & x & Hr & Hx & Hx3).
  unfold sBoxLookup.
  rewrite (fetch_at d (rows b) row (nums r)); [|lia|].
  2: { unfold rows. by rewrite list_lookup_fmap, Hr. }
  rewrite bind_Ret. simpl receiver. rewrite bind_Ret.
  rewrite (fetch_at d (nums r) col (Int x)); [|lia|].
  2: { unfold nums. by rewrite list_lookup_fmap, Hx. }
  rewrite bind_Ret. simpl receiver. rewrite bind_Ret.
  rewrite (nth_lookup_Some _ _ [] _ Hr), (nth_lookup_Z _ _ _ Hx).
  by rewrite two_bits_digits.
Qed.

Lemma spec_lookup_range b h :
  sbox4 b → bitvec 4 h → 0 ≤ spec_lookup b h ≤ 3.
Proof.
  intros Hb [Hlen Hh].
  destruct h as [|h0 [|h1 [|h2 [|h3 [|]]]]]; simplify_eq/=.
  apply Forall_cons_1 in Hh as [H0 Hh]. apply Forall_cons_1 in Hh as [H1 Hh].
  apply Forall_cons_1 in Hh as [H2 Hh]. apply Forall_cons_1 in Hh as [H3 _].
  unfold spec_lookup. cbn [nth].
  destruct (sbox4_entry b (h0 * 2 + h3) (h1 * 2 + h2) Hb)
    as (r & x & Hr & Hx & Hx3);
    [unfold is_bit in *; lia..|].
  by rewrite (nth_lookup_Some _ _ [] _ Hr), (nth_lookup_Z _ _ _ Hx).
Qed.

Lemma bitvec_app n m a b : bitvec n a → bitvec m b → bitvec (n + m) (a ++ b).
Proof.
  intros [Hla Ha] [Hlb Hb]. split.
  - rewrite length_app. lia.
  - by apply Forall_app.
Qed.

Lemma bitvec_take n k v : bitvec n v → (k ≤ n)%nat → bitvec k (take k v).
Proof.
  intros [Hl Hv] Hk. split.
  - rewrite length_take. lia.
  - by apply Forall_take.
Qed.

Lemma bitvec_drop n k v : bitvec n v → bitvec (n - k) (drop k v).
Proof.
  intros [Hl Hv]. split.
  - rewrite length_drop. lia.
  - by apply Forall_drop.
Qed.

Lemma spec_sbox_bitvec b1 b2 x :
  sbox4 b1 → sbox4 b2 → bitvec 8 x → bitvec 4 (spec_sbox b1 b2 x).
Proof.
  intros H1 H2 Hx. unfold spec_sbox.
  apply (bitvec_app 2 2); apply spec_two_bits_bitvec, spec_lookup_range;
    try done.
  - apply (bitvec_take 8); [done|lia].
  - by apply (bitvec_drop 8 4).
Qed.

Lemma sBox_nums d c b1 b2 x :
  BOX_1 c = rows b1 → BOX_2 c = rows b2 →
  sbox4 b1 → sbox4 b2 → bitvec 8 x →
  sBox d c (nums x) = Ret (nums (spec_sbox b1 b2 x)).
Proof.
  intros E1 E2 H1 H2 [Hlen Hx].
  destruct x as [|x0 [|x1 [|x2 [|x3 [|x4 [|x5 [|x6 [|x7 [|]]]]]]]]];
    try (simpl in Hlen; lia).
  repeat match goal with
         | H : Forall _ (_ :: _) |- _ => apply Forall_cons_1 in H as [? H]
         end.
  unfold sBox. rewrite !slice_nums, E1, E2.
  change (I 0) with (I (Z.of_nat 0)). change (I 1) with (I (Z.of_nat 1)).
  change (I 2) with (I (Z.of_nat 2)). change (I 3) with (I (Z.of_nat 3)).
  rewrite (fetch_nums d (slice _ 0 4) 0 x0), bind_Ret by reflexivity.
  rewrite (fetch_nums d (slice _ 0 4) 3 x3), bind_Ret by reflexivity.
  rewrite (fetch_nums d (slice _ 0 4) 1 x1), bind_Ret by reflexivity.
  rewrite (fetch_nums d (slice _ 0 4) 2 x2), bind_Ret by reflexivity.
  rewrite (fetch_nums d (slice _ 4 8) 0 x4), bind_Ret by reflexivity.
  rewrite (fetch_nums d (slice _ 4 8) 3 x7), bind_Ret by reflexivity.
  rewrite (fetch_nums d (slice _ 4 8) 1 x5), bind_Ret by reflexivity.
  rewrite (fetch_nums d (slice _ 4 8) 2 x6), bind_Ret by reflexivity.
  rewrite !js_shl1_bit by done.
  change (js_add (I ?a) (I ?b)) with (I (a + b)).
  rewrite !sBoxLookup_rows, !bind_Ret by (unfold is_bit in *; done || lia).
  by rewrite <- nums_app.
Qed.

(** ** The round *)

Lemma fetch_slot {A} d (a : list (option A)) (i : nat) y :
  a !! i = Some y →
  fetch d a (I (Z.of_nat i)) = match y with Some x => Ret (Some x) | None => miss d end.
Proof.
  intros H. unfold fetch. rewrite as_index_nat, H. by destruct y.
Qed.

Lemma fetch_NaN {A} d (a : list (option A)) : fetch d a (Some NaN) = miss d.
Proof. done. Qed.

Lemma p4Permutation_permute d c input :
  length input = length (P4 c) →
  p4Permutation d c input = permute d input (P4 c).
Proof.
  intros Hlen. unfold p4Permutation, permute, array_map.
  apply map_from_ext; [done|].
  intros k x y _ Hy. simpl.
  rewrite (fetch_slot d (P4 c) k y Hy).
  destruct y as [p|]; [done|].
  change (js_sub None (I 1)) with (Some NaN : jsval). rewrite fetch_NaN.
  by destruct d.
Qed.

Section Round.

Variables (d : discipline) (c : SDES).
Variables (p4 : list Z) (b1 b2 : list (list Z)).
Hypothesis HP4 : P4 c = nums p4.
Hypothesis HB1 : BOX_1 c = rows b1.
Hypothesis HB2 : BOX_2 c = rows b2.
Hypothesis Hp4 : table 4 4 p4.
Hypothesis Hb1 : sbox4 b1.
Hypothesis Hb2 : sbox4 b2.

Lemma spec_expand_bitvec r : bitvec 4 r → bitvec 8 (spec_expand r).
Proof.
  intros [Hlen Hr]. split; [done|].
  apply spec_permute_bits; [done|]. rewrite Hlen.
  repeat constructor; lia.
Qed.

Lemma spec_mask_bitvec r sk :
  bitvec 4 r → bitvec 8 sk →
  bitvec 4 (spec_permute (spec_sbox b1 b2 (spec_xor (spec_expand r) sk)) p4).
Proof.
  intros Hr Hsk.
  pose proof (spec_sbox_bitvec b1 b2 _ Hb1 Hb2
                (spec_xor_bitvec 8 _ _ (spec_expand_bitvec r Hr) Hsk))
    as [Hlen Hs].
  destruct Hp4 as [Hl4 Ht]. split.
  - by rewrite length_spec_permute.
  - apply spec_permute_bits; [done|]. by rewrite Hlen.
Qed.

Lemma spec_new_left_bitvec l r sk :
  bitvec 4 l → bitvec 4 r → bitvec 8 sk →
  bitvec 4 (spec_new_left p4 b1 b2 l r sk).
Proof.
  intros Hl Hr Hsk. apply spec_xor_bitvec; [done|].
  by apply spec_mask_bitvec.
Qed.

Lemma round_nums l r sk :
  bitvec 4 l → bitvec 4 r → bitvec 8 sk →
  round d c (nums l) (nums r) (nums sk)
  = Ret (nums (spec_new_left p4 b1 b2 l r sk), nums r).
Proof.
  intros Hl Hr Hsk.
  pose proof (spec_expand_bitvec r Hr) as He.
  pose proof (spec_xor_bitvec 8 _ _ He Hsk) as Hx.
  pose proof (spec_sbox_bitvec b1 b2 _ Hb1 Hb2 Hx) as Hs.
  pose proof (spec_mask_bitvec r sk Hr Hsk) as Hm.
  unfold round, expandAndPermute.
  change [I 4; I 1; I 2; I 3; I 2; I 3; I 4; I 1]
    with (nums [4; 1; 2; 3; 2; 3; 4; 1]).
  rewrite permute_nums, bind_Ret.
  2: { destruct Hr as [-> _]. repeat constructor; lia. }
  fold (spec_expand r).
  rewrite xor_nums, bind_Ret;
    [|apply He|apply Hsk|destruct He as [-> _], Hsk as [-> _]; done].
  rewrite (sBox_nums d c b1 b2), bind_Ret by done.
  rewrite p4Permutation_permute.
  2: { rewrite HP4, !length_nums. destruct Hs as [-> _], Hp4 as [-> _]. done. }
  rewrite HP4, permute_nums, bind_Ret.
  2: { destruct Hs as [-> _]. apply Hp4. }
  rewrite xor_nums, bind_Ret;
    [done|apply Hl|apply Hm|destruct Hl as [-> _], Hm as [-> _]; done].
Qed.

End Round.

(** ** The key schedule *)

Lemma circularLeftShift_nums v n :
  circularLeftShift (nums v) n = nums (spec_rotl n v).
Proof.
  unfold circularLeftShift, slice_from, slice, spec_rotl.
  by rewrite Nat.sub_0_r, drop_0, nums_drop, nums_take, nums_app.
Qed.

Lemma length_spec_rotl n v : length (spec_rotl n v) = length v.
Proof.
  unfold spec_rotl. rewrite length_app, length_drop, length_take. lia.
Qed.

Lemma spec_rotl_bits n v : Forall is_bit v → Forall is_bit (spec_rotl n v).
Proof.
  intros Hv. apply Forall_app. split; [by apply Forall_drop|by apply Forall_take].
Qed.

Lemma table_weaken len n m t : table len n t → (n ≤ m)%nat → table len m t.
Proof.
  intros [Hl Ht] Hnm. split; [done|].
  eapply List.Forall_impl; [|exact Ht]. intros k Hk. simpl in *. lia.
Qed.

Lemma generateSubKeys_nums d k p10 p8 :
  length k = 10%nat → table 10 10 p10 → table 8 8 p8 →
  generateSubKeys d (nums k) (nums p10) (nums p8)
  = Ret {| key1 := nums (spec_subkeys k p10 p8).1;
           key2 := nums (spec_subkeys k p10 p8).2 |}.
Proof.
  intros Hk [Hl10 H10] [Hl8 H8].
  assert (∀ l r : list Z, length l = 5%nat → length r = 5%nat →
            Forall (λ i, 1 ≤ i ≤ Z.of_nat (length (l ++ r))) p8) as Hp8.
  { intros l r Hl Hr. rewrite length_app, Hl, Hr.
    eapply List.Forall_impl; [|exact H8]. intros i Hi. simpl in *. lia. }
  assert (length (slice (spec_permute k p10) 0 5) = 5%nat) as HL.
  { unfold slice. rewrite length_take, length_drop, length_spec_permute. lia. }
  assert (length (slice (spec_permute k p10) 5 10) = 5%nat) as HR.
  { unfold slice. rewrite length_take, length_drop, length_spec_permute. lia. }
  unfold generateSubKeys.
  rewrite permute_nums, bind_Ret by (by rewrite Hk).
  rewrite !slice_nums, !circularLeftShift_nums, <- !nums_app.
  rewrite (permute_nums d (spec_rotl 1 (slice _ _ _) ++ _)), bind_Ret
    by (apply Hp8; by rewrite length_spec_rotl).
  rewrite permute_nums, bind_Ret
    by (apply Hp8; by rewrite !length_spec_rotl).
  done.
Qed.

Lemma spec_subkeys_bitvec k p10 p8 :
  bitvec 10 k → table 10 10 p10 → table 8 8 p8 →
  bitvec 8 (spec_subkeys k p10 p8).1 ∧ bitvec 8 (spec_subkeys k p10 p8).2.
Proof.
  intros [Hk Hkb] [Hl10 H10] [Hl8 H8].
  assert (Forall is_bit (spec_permute k p10)) as Hp.
  { apply spec_permute_bits; [done|]. by rewrite Hk. }
  assert (∀ l r : list Z, length l = 5%nat → length r = 5%nat →
            Forall (λ i, 1 ≤ i ≤ Z.of_nat (length (l ++ r))) p8) as Hp8.
  { intros l r Hl Hr. rewrite length_app, Hl, Hr.
    eapply List.Forall_impl; [|exact H8]. intros i Hi. simpl in *. lia. }
  assert (length (take 5 (spec_permute k p10)) = 5%nat) as HL.
  { rewrite length_take, length_spec_permute. lia. }
  assert (length (take 5 (drop 5 (spec_permute k p10))) = 5%nat) as HR.
  { rewrite length_take, length_drop, length_spec_permute. lia. }
  unfold spec_subkeys. simpl. split; (split; [by rewrite length_spec_permute|]).
  - apply spec_permute_bits; [|apply Hp8; by rewrite length_spec_rotl].
    apply Forall_app; split; apply spec_rotl_bits;
      [by apply Forall_take|by apply Forall_take, Forall_drop].
  - apply spec_permute_bits; [|apply Hp8; by rewrite !length_spec_rotl].
    apply Forall_app; split; do 2 apply spec_rotl_bits;
      [by apply Forall_take|by apply Forall_take, Forall_drop].
Qed.

(** ** Encryption and decryption of one block *)

Section Block.

Variables (d : discipline) (T : params) (k : list Z) (c : SDES).
Hypothesis HT : in_range T.
Hypothesis Hk : bitvec 10 k.
Hypothesis Hc : state d T k c.

Lemma state_subKeys :
  subKeys c = {| key1 := nums (spec_subkeys k (tP10 T) (tP8 T)).1;
                 key2 := nums (spec_subkeys k (tP10 T) (tP8 T)).2 |}.
Proof.
  destruct Hc as (Ek & _ & _ & E10 & E8 & _ & _ & _ & Hs).
  destruct HT as (_ & _ & H10 & H8 & _).
  rewrite Ek, E10, E8, generateSubKeys_nums in Hs; [|apply Hk|done..].
  by injection Hs.
Qed.

Lemma feistel_bitvec ka kb v :
  bitvec 8 ka → bitvec 8 kb → bitvec 8 v → bitvec 8 (feistel T ka kb v).
Proof.
  intros Ha Hb Hv.
  destruct HT as (_ & _ & _ & _ & H4 & Hb1 & Hb2).
  assert (bitvec 4 (slice v 0 4)) as Hl.
  { unfold slice. apply (bitvec_take 8); [|lia]. by rewrite drop_0. }
  assert (bitvec 4 (slice v 4 8)) as Hr.
  { unfold slice. apply (bitvec_take 4); [|lia]. by apply (bitvec_drop 8 4). }
  unfold feistel. apply (bitvec_app 4 4).
  - apply spec_new_left_bitvec; try done. by apply spec_new_left_bitvec.
  - by apply spec_new_left_bitvec.
Qed.

Lemma two_rounds ka kb v :
  bitvec 8 ka → bitvec 8 kb → bitvec 8 v →
  (halves ← round d c (slice (nums v) 0 4) (slice (nums v) 4 8) (nums ka);
   halves' ← round d c halves.2 halves.1 (nums kb);
   permute d (halves'.1 ++ halves'.2) (IPInverse c))
  = Ret (nums (spec_permute (feistel T ka kb v) (tIPInverse T))).
Proof.
  intros Ha Hb Hv.
  destruct Hc as (_ & _ & EI & _ & _ & E4 & E1 & E2 & _).
  destruct HT as (_ & HI & _ & _ & H4 & Hb1 & Hb2).
  assert (bitvec 4 (slice v 0 4)) as Hl.
  { unfold slice. apply (bitvec_take 8); [|lia]. by rewrite drop_0. }
  assert (bitvec 4 (slice v 4 8)) as Hr.
  { unfold slice. apply (bitvec_take 4); [|lia]. by apply (bitvec_drop 8 4). }
  pose proof (spec_new_left_bitvec _ _ _ H4 Hb1 Hb2 _ _ _ Hl Hr Ha) as Hl'.
  rewrite !slice_nums.
  rewrite (round_nums d c _ _ _ E4 E1 E2 H4 Hb1 Hb2), bind_Ret by done.
  cbn [fst snd].
  rewrite (round_nums d c _ _ _ E4 E1 E2 H4 Hb1 Hb2), bind_Ret by done.
  cbn [fst snd]. rewrite <- nums_app, EI.
  rewrite permute_nums; [done|].
  destruct (feistel_bitvec ka kb v Ha Hb Hv) as [Hlen _].
  unfold feistel in Hlen. rewrite Hlen. apply HI.
Qed.

Lemma encrypt_nums v :
  bitvec 8 v →
  encrypt d c (nums v) = Ret (nums (spec_encrypt T k v)).
Proof.
  intros Hv.
  destruct (spec_subkeys_bitvec k (tP10 T) (tP8 T)) as [H1 H2];
    [done|apply HT..|].
  assert (bitvec 8 (spec_permute v (tIP T))) as Hd.
  { destruct HT as ([Hl Hi] & _), Hv as [Hlv Hvb]. split.
    - by rewrite length_spec_permute.
    - apply spec_permute_bits; [done|]. by rewrite Hlv. }
  unfold encrypt. rewrite state_subKeys. cbn [key1 key2].
  destruct Hc as (_ & EI & _). rewrite EI.
  rewrite permute_nums, bind_Ret.
  2: { destruct Hv as [-> _]. apply HT. }
  by apply two_rounds.
Qed.

Lemma decrypt_nums v :
  bitvec 8 v →
  decrypt d c (nums v) = Ret (nums (spec_decrypt T k v)).
Proof.
  intros Hv.
  destruct (spec_subkeys_bitvec k (tP10 T) (tP8 T)) as [H1 H2];
    [done|apply HT..|].
  assert (bitvec 8 (spec_permute v (tIP T))) as Hd.
  { destruct HT as ([Hl Hi] & _), Hv as [Hlv Hvb]. split.
    - by rewrite length_spec_permute.
    - apply spec_permute_bits; [done|]. by rewrite Hlv. }
  unfold decrypt. rewrite state_subKeys. cbn [key1 key2].
  destruct Hc as (_ & EI & _). rewrite EI.
  rewrite permute_nums, bind_Ret.
  2: { destruct Hv as [-> _]. apply HT. }
  by apply two_rounds.
Qed.

End Block.

(** ** The generators *)

Lemma floor_mul_range x n : 0 < n → 0 ≤ floor_mul x n < n.
Proof.
  intros Hn. unfold floor_mul.
  pose proof (N2Z.is_nonneg (below x)). pose proof (N2Z.is_nonneg (above x)).
  split.
  - apply Z.div_pos; lia.
  - apply Z.div_lt_upper_bound; nia.
Qed.

(** A property kept by every iteration holds when the loop ends. *)
Lemma for_each_inv {S} (P : S → Prop) cs (body : nat → S → Rand S) s g :
  P s →
  (∀ i s g, i ∈ cs → P s → P (body i s g).1) →
  P (for_each cs body s g).1.
Proof.
  revert s g. induction cs as [|i cs IH]; intros s g Hs Hbody; [done|].
  simpl. unfold rand_bind.
  pose proof (Hbody i s g (list_elem_of_here _ _) Hs) as Hi.
  destruct (body i s g) as [s' g']. simpl in Hi.
  apply IH; [done|]. intros j s'' g'' Hj. apply Hbody. by right.
Qed.

(** The same for a property that moves with the counter of
    [for (let i = start; i < start + n; i++)]. *)
Lemma for_each_seq_inv {S} (P : nat → S → Prop) (body : nat → S → Rand S) n :
  ∀ start s g,
    P start s →
    (∀ i s g, (start ≤ i < start + n)%nat → P i s → P (Datatypes.S i) (body i s g).1) →
    P (start + n)%nat (for_each (seq start n) body s g).1.
Proof.
  induction n as [|n IH]; intros start s g Hs Hbody; simpl.
  - by rewrite Nat.add_0_r.
  - unfold rand_bind.
    pose proof (Hbody start s g ltac:(lia) Hs) as Hi.
    destruct (body start s g) as [s' g']. simpl in Hi.
    rewrite Nat.add_succ_r. apply (IH (Datatypes.S start)); [done|].
    intros i s'' g'' Hrange. apply Hbody. lia.
Qed.

(** A loop whose iterations leave state and generator alone does nothing. *)
Lemma for_each_fixed {S} cs (body : nat → S → Rand S) s g :
  (∀ i, i ∈ cs → body i s g = (s, g)) → for_each cs body s g = (s, g).
Proof.
  induction cs as [|i cs IH]; intros Hbody; [done|].
  simpl. unfold rand_bind. rewrite (Hbody i (list_elem_of_here _ _)).
  apply IH. intros j Hj. apply Hbody. by right.
Qed.

Lemma array_set_inside {A} (a : list (option A)) i x :
  (i < length a)%nat → array_set a i x = <[i := x]> a.
Proof. intros Hi. unfold array_set. by rewrite decide_True. Qed.

Lemma at_lookup {A} (a : list (option A)) i y : a !! i = Some y → at_ a i = y.
Proof. intros H. unfold at_. by rewrite H. Qed.

Lemma insert_head_Permutation {A} (l : list A) j x y :
  l !! j = Some y → y :: <[j := x]> l ≡ₚ x :: l.
Proof.
  revert j. induction l as [|z l IH]; intros [|j] H; simplify_eq/=.
  - apply perm_swap.
  - rewrite perm_swap, (IH j H). apply perm_swap.
Qed.

(** Exchanging two slots permutes the array. *)
Lemma swap_Permutation {A} (l : list A) i j x y :
  l !! i = Some x → l !! j = Some y → <[j := x]> (<[i := y]> l) ≡ₚ l.
Proof.
  revert i j. induction l as [|z l IH]; intros [|i] [|j] Hi Hj;
    simplify_eq/=; try done.
  - by apply insert_head_Permutation.
  - by apply insert_head_Permutation.
  - f_equiv. by apply IH.
Qed.

Lemma swap_slots_Permutation {A} (a : list (option A)) i j :
  (i < length a)%nat → (j < length a)%nat →
  array_set (array_set a i (at_ a j)) j (at_ a i) ≡ₚ a.
Proof.
  intros Hi Hj.
  destruct (lookup_lt_is_Some_2 a i Hi) as [x Hx].
  destruct (lookup_lt_is_Some_2 a j Hj) as [y Hy].
  rewrite (at_lookup a i x Hx), (at_lookup a j y Hy).
  rewrite (array_set_inside a) by done.
  rewrite array_set_inside by (by rewrite length_insert).
  by apply swap_Permutation.
Qed.

Lemma shuffleArray_Permutation array g : (shuffleArray array g).1 ≡ₚ array.
Proof.
  unfold shuffleArray.
  apply (for_each_inv (λ a, a ≡ₚ array)); [done|].
  intros i a g' Hi Ha. unfold rand_bind, Math_random, rand_ret. simpl.
  etrans; [|exact Ha].
  apply list_elem_of_In, in_rev, in_seq in Hi.
  pose proof (floor_mul_range (g' 0%nat) (Z.of_nat i + 1) ltac:(lia)).
  apply Permutation_length in Ha.
  apply swap_slots_Permutation; lia.
Qed.

(** An array all of whose slots hold an integer with property [P] is the
    array of some integers with property [P]. *)
Lemma Forall_nums (P : Z → Prop) (a : list jsval) :
  Forall (λ v, ∃ z, v = I z ∧ P z) a → ∃ t, a = nums t ∧ Forall P t.
Proof.
  induction 1 as [|v a (z & -> & Hz) _ (t & -> & Ht)].
  - by exists [].
  - exists (z :: t). split; [done|by constructor].
Qed.

(** An array whose slots hold the numbers 0 and 1 is a bit vector. *)
Lemma bit_array_nums n (a : list jsval) :
  length a = n → Forall (λ x, x = I 0 ∨ x = I 1) a →
  ∃ v, a = nums v ∧ bitvec n v.
Proof.
  intros Hlen Ha.
  destruct (Forall_nums is_bit a) as (v & -> & Hv).
  { eapply List.Forall_impl; [|exact Ha].
    intros x [-> | ->]; eexists; (split; [done|]); first [by left | by right]. }
  exists v. rewrite length_nums in Hlen. by repeat split.
Qed.

Lemma generatePermutationTable_table n g :
  ∃ t, (generatePermutationTable n g).1 = nums t ∧ table n n t.
Proof.
  set (ok := λ v : jsval, ∃ z, v = I z ∧ 1 ≤ z ≤ Z.of_nat n).
  unfold generatePermutationTable, rand_bind.
  pose proof (for_each_seq_inv
    (λ i (t : list jsval),
       length t = n ∧ ∀ j v, (j < i)%nat → t !! j = Some v → ok v)
    (λ i table, r ←$ Math_random;
       rand_ret (array_set table i (I (floor_mul r (Z.of_nat n) + 1))))
    n 0%nat (new_Array n) g) as Hfill.
  destruct (for_each (seq 0 n) _ (new_Array n) g) as [t0 g0].
  simpl in Hfill. destruct Hfill as [Hlen Hslots].
  { split; [apply length_replicate|]. intros j v Hj. lia. }
  { intros i t g' Hi [Hlen Hslots]. unfold rand_bind, Math_random, rand_ret.
    simpl. rewrite array_set_inside by lia. split; [by rewrite length_insert|].
    intros j v Hj Hv. destruct (decide (j = i)) as [->|Hne].
    - rewrite list_lookup_insert_eq in Hv by lia. injection Hv as <-.
      pose proof (floor_mul_range (g' 0%nat) (Z.of_nat n) ltac:(lia)).
      eexists. split; [done|lia].
    - rewrite list_lookup_insert_ne in Hv by done.
      apply (Hslots j v); [lia|done]. }
  pose proof (shuffleArray_Permutation t0 g0) as Hperm.
  destruct (shuffleArray t0 g0) as [t1 g1]. simpl in *.
  assert (Forall ok t1) as Hok.
  { rewrite Hperm. apply Forall_lookup. intros j v Hv.
    apply (Hslots j v); [|done]. apply lookup_lt_Some in Hv. lia. }
  destruct (Forall_nums _ _ Hok) as (t & -> & Ht).
  exists t. split; [done|]. split; [|done].
  apply Permutation_length in Hperm. rewrite length_nums in Hperm. lia.
Qed.

Lemma shuffleArray_digits g :
  ∃ r, (shuffleArray [I 0; I 1; I 2; I 3] g).1 = nums r ∧ r ≡ₚ [0; 1; 2; 3].
Proof.
  pose proof (shuffleArray_Permutation [I 0; I 1; I 2; I 3] g) as Hperm.
  destruct (shuffleArray _ g) as [row g']. simpl in *.
  assert (Forall (λ v : jsval, ∃ z, v = I z ∧ True) row) as Hok.
  { rewrite Hperm. repeat constructor; by eexists. }
  destruct (Forall_nums _ _ Hok) as (r & -> & _).
  exists r. split; [done|].
  change [I 0; I 1; I 2; I 3] with (nums [0; 1; 2; 3]) in Hperm.
  apply (fmap_Permutation int_of) in Hperm.
  unfold nums in Hperm. rewrite <- !list_fmap_compose in Hperm.
  by rewrite !list_fmap_id in Hperm.
Qed.

Lemma generateSBox_rows g :
  ∃ r0 r1 r2 r3,
    (generateSBox g).1 = rows [r0; r1; r2; r3] ∧
    Forall (λ r, r ≡ₚ [0; 1; 2; 3]) [r0; r1; r2; r3].
Proof.
  unfold generateSBox. cbn [for_each seq]. unfold rand_bind, rand_ret.
  destruct (shuffleArray_digits g) as (r0 & E0 & H0).
  destruct (shuffleArray _ g) as [row0 g0]. simpl in E0. subst row0.
  destruct (shuffleArray_digits g0) as (r1 & E1 & H1).
  destruct (shuffleArray _ g0) as [row1 g1]. simpl in E1. subst row1.
  destruct (shuffleArray_digits g1) as (r2 & E2 & H2).
  destruct (shuffleArray _ g1) as [row2 g2]. simpl in E2. subst row2.
  destruct (shuffleArray_digits g2) as (r3 & E3 & H3).
  destruct (shuffleArray _ g2) as [row3 g3]. simpl in E3. subst row3.
  exists r0, r1, r2, r3. split; [done|]. by repeat constructor.
Qed.

Lemma digits_row r : r ≡ₚ [0; 1; 2; 3] → length r = 4%nat ∧ Forall (λ x, 0 ≤ x ≤ 3) r.
Proof.
  intros H. split; [by rewrite H|].
  rewrite H. repeat constructor; lia.
Qed.

(** ** Construction *)

Lemma getInitialPermutation_identity : getInitialPermutation = nums identity8.
Proof. reflexivity. Qed.

Lemma getArrayInverse_identity : getArrayInverse (nums identity8) = nums identity8.
Proof. reflexivity. Qed.

Lemma spec_permute_identity8 v : length v = 8%nat → spec_permute v identity8 = v.
Proof.
  intros Hlen.
  destruct v as [|x0 [|x1 [|x2 [|x3 [|x4 [|x5 [|x6 [|x7 [|]]]]]]]]];
    simplify_eq/=; done.
Qed.

Lemma identity8_table : table 8 8 identity8.
Proof. split; [done|]. repeat constructor; lia. Qed.

Lemma digits_sbox4 r0 r1 r2 r3 :
  Forall (λ r, r ≡ₚ [0; 1; 2; 3]) [r0; r1; r2; r3] → sbox4 [r0; r1; r2; r3].
Proof.
  intros H. split; [done|].
  eapply List.Forall_impl; [|exact H]. intros r Hr. by apply digits_row.
Qed.

(** Every construction succeeds and yields a state whose tables and S-boxes
    are in range, whose IP and inverse IP are the identity, and whose S-box
    rows are permutations of 0..3. *)
Lemma SDES_new_state d k g :
  length k = 10%nat →
  ∃ T c,
    (SDES_new d (nums k) g).1 = Ret c ∧ in_range T ∧ state d T k c ∧
    tIP T = identity8 ∧ tIPInverse T = identity8 ∧
    Forall (λ r, r ≡ₚ [0; 1; 2; 3]) (tBOX_1 T) ∧
    Forall (λ r, r ≡ₚ [0; 1; 2; 3]) (tBOX_2 T).
Proof.
  intros Hk. unfold SDES_new, rand_bind, rand_ret.
  destruct (generatePermutationTable_table 4 g) as (p4 & E4 & H4).
  destruct (generatePermutationTable 4 g) as [t4 g1]. simpl in E4. subst t4.
  destruct (generatePermutationTable_table 8 g1) as (p8 & E8 & H8).
  destruct (generatePermutationTable 8 g1) as [t8 g2]. simpl in E8. subst t8.
  destruct (generatePermutationTable_table 10 g2) as (p10 & E10 & H10).
  destruct (generatePermutationTable 10 g2) as [t10 g3]. simpl in E10. subst t10.
  destruct (generateSBox_rows g3) as (a0 & a1 & a2 & a3 & E1 & H1).
  destruct (generateSBox g3) as [box1 g4]. simpl in E1. subst box1.
  destruct (generateSBox_rows g4) as (c0 & c1 & c2 & c3 & E2 & H2).
  destruct (generateSBox g4) as [box2 g5]. simpl in E2. subst box2.
  rewrite getInitialPermutation_identity, getArrayInverse_identity.
  rewrite generateSubKeys_nums by done. rewrite bind_Ret. cbn [fst].
  exists (Params identity8 identity8 p10 p8 p4 [a0; a1; a2; a3] [c0; c1; c2; c3]).
  eexists. split; [done|]. split.
  { repeat split; try apply identity8_table; try apply H10; try apply H8;
      try apply H4; try apply (digits_sbox4 _ _ _ _ H1);
      apply (digits_sbox4 _ _ _ _ H2). }
  split; [|done].
  repeat split. cbn. by apply generateSubKeys_nums.
Qed.

(** ** Undoing the two rounds *)

Lemma length_spec_xor a b : length a = length b → length (spec_xor a b) = length a.
Proof. intros H. unfold spec_xor. rewrite length_zip_with. lia. Qed.

Lemma slice_app_l {A} (a b : list A) n :
  length a = n → slice (a ++ b) 0 n = a.
Proof.
  intros <-. unfold slice. by rewrite Nat.sub_0_r, drop_0, take_app_length.
Qed.

Lemma slice_app_r {A} (a b : list A) n :
  length a = n → length b = n → slice (a ++ b) n (n + n) = b.
Proof.
  intros <- Hb. unfold slice.
  rewrite drop_app_length. apply take_ge. lia.
Qed.

Lemma slices_app {A} (v : list A) :
  length v = 8%nat → slice v 0 4 ++ slice v 4 8 = v.
Proof.
  intros Hlen. unfold slice. rewrite drop_0. simpl.
  rewrite <- (take_drop 4 v) at 3. f_equal.
  apply take_ge. rewrite length_drop. lia.
Qed.

Lemma feistel_inverse T ka kb v :
  length (tP4 T) = 4%nat → length v = 8%nat →
  feistel T kb ka (feistel T ka kb v) = v.
Proof.
  intros H4 Hv.
  set (l := slice v 0 4). set (r := slice v 4 8).
  assert (length l = 4%nat) as Hl.
  { unfold l, slice. rewrite length_take, length_drop. lia. }
  assert (length r = 4%nat) as Hr.
  { unfold r, slice. rewrite length_take, length_drop. lia. }
  set (F x sk := spec_permute
                   (spec_sbox (tBOX_1 T) (tBOX_2 T) (spec_xor (spec_expand x) sk))
                   (tP4 T)).
  assert (∀ x sk, length (F x sk) = 4%nat) as HF.
  { intros x sk. unfold F. by rewrite length_spec_permute. }
  set (l' := spec_xor l (F r ka)). set (r' := spec_xor r (F l' kb)).
  assert (length l' = 4%nat) as Hl'.
  { unfold l'. rewrite length_spec_xor; [done|]. by rewrite HF. }
  assert (length r' = 4%nat) as Hr'.
  { unfold r'. rewrite length_spec_xor; [done|]. by rewrite HF. }
  assert (feistel T ka kb v = r' ++ l') as ->; [done|].
  unfold feistel, spec_new_left.
  pose proof (slice_app_r r' l' 4 Hr' Hl') as Hs.
  change (4 + 4)%nat with 8%nat in Hs.
  rewrite (slice_app_l r' l' 4 Hr'), Hs.
  fold (F l' kb). unfold r'. rewrite spec_xor_cancel by (by rewrite HF).
  fold (F r ka). unfold l'. rewrite spec_xor_cancel by (by rewrite HF).
  by apply slices_app.
Qed.

(** ** Text *)

Lemma all_bytes_ok : forallb byte_ok (seqZ 0 256) = true.
Proof. vm_compute. reflexivity. Qed.

Lemma byte_ok_range ch : 0 ≤ ch ≤ 255 → byte_ok ch = true.
Proof.
  intros Hch. pose proof all_bytes_ok as H.
  rewrite forallb_forall in H. apply H.
  apply list_elem_of_In, elem_of_seqZ. lia.
Qed.

Lemma byte_bits_digits ch :
  0 ≤ ch ≤ 255 →
  parseInt_chr <$> padStart0 8 (toString2 (Int ch)) = nums (byte_bits ch).
Proof.
  intros Hch. pose proof (byte_ok_range ch Hch) as H.
  apply andb_prop in H as [H _]. by apply bool_decide_eq_true_1 in H.
Qed.

Lemma byte_char_bits ch : 0 ≤ ch ≤ 255 → byte_char (byte_bits ch) = ch.
Proof.
  intros Hch. pose proof (byte_ok_range ch Hch) as H.
  apply andb_prop in H as [_ H]. by apply bool_decide_eq_true_1 in H.
Qed.

Lemma byte_bits_bitvec ch : bitvec 8 (byte_bits ch).
Proof.
  split; [done|]. unfold byte_bits. apply Forall_fmap.
  repeat (apply List.Forall_cons;
          [unfold compose; destruct (Z.testbit ch _);
           first [by left | by right]|]).
  apply List.Forall_nil.
Qed.

Lemma block_ok_bitvec b : bitvec 8 b → block_ok b = true.
Proof.
  intros [Hlen Hb].
  destruct b as [|x0 [|x1 [|x2 [|x3 [|x4 [|x5 [|x6 [|x7 [|]]]]]]]]];
    try (simpl in Hlen; lia).
  repeat match goal with
         | H : Forall _ (_ :: _) |- _ => apply Forall_cons_1 in H as [? H]
         end.
  repeat match goal with
         | H : is_bit _ |- _ => destruct H as [-> | ->]
         end; vm_compute; reflexivity.
Qed.

Lemma byte_char_range b : bitvec 8 b → 0 ≤ byte_char b ≤ 255.
Proof.
  intros Hb. pose proof (block_ok_bitvec b Hb) as H.
  apply andb_prop in H as [H _]. by apply bool_decide_eq_true_1 in H.
Qed.

Lemma byte_bits_char b : bitvec 8 b → byte_bits (byte_char b) = b.
Proof.
  intros Hb. pose proof (block_ok_bitvec b Hb) as H.
  apply andb_prop in H as [_ H]. by apply bool_decide_eq_true_1 in H.
Qed.

Lemma stringToBinary_bytes s :
  Forall (λ ch, 0 ≤ ch ≤ 255) s →
  stringToBinary s = nums (concat (byte_bits <$> s)).
Proof.
  unfold stringToBinary. induction 1 as [|ch s Hch _ IH]; [done|].
  rewrite !fmap_cons. cbn [concat].
  rewrite fmap_app, IH, byte_bits_digits by done.
  by rewrite nums_app.
Qed.

Lemma steps8_add n :
  steps8 (8 + n) = 0%nat :: ((λ i, 8 + i)%nat <$> steps8 n).
Proof.
  unfold steps8.
  replace ((8 + n + 7) / 8)%nat with (S ((n + 7) / 8)).
  2: { replace (8 + n + 7)%nat with (1 * 8 + (n + 7))%nat by lia.
       rewrite Nat.div_add_l by lia. lia. }
  cbn [seq fmap list_fmap]. f_equal.
  rewrite <- fmap_S_seq, <- !list_fmap_compose.
  apply list_fmap_ext. intros _ k _. simpl. lia.
Qed.

Lemma steps8_nil : steps8 0 = [].
Proof. done. Qed.

Lemma slice_shift {A} (pre a : list A) i :
  slice (pre ++ a) (length pre + i) (length pre + i + 8) = slice a i (i + 8).
Proof.
  unfold slice. rewrite drop_app_add. f_equal. lia.
Qed.

Lemma each_block_shift f (pre bits : list jsval) cs out :
  each_block f (pre ++ bits) ((λ i, length pre + i)%nat <$> cs) out
  = each_block f bits cs out.
Proof.
  revert out. induction cs as [|i cs IH]; intros out; [done|].
  cbn [fmap list_fmap each_block]. rewrite slice_shift.
  destruct (f (slice bits i (i + 8))) as [b|e]; [|done].
  rewrite !bind_Ret. apply IH.
Qed.

Lemma length_concat_blocks (bs : list (list Z)) :
  Forall (bitvec 8) bs → length (concat bs) = (8 * length bs)%nat.
Proof.
  induction 1 as [|b bs [Hb _] _ IH]; [done|].
  simpl. rewrite length_app, IH, Hb. lia.
Qed.

Lemma slice_block {A} (b rest : list A) :
  length b = 8%nat → slice (b ++ rest) 0 (0 + 8) = b.
Proof. intros H. by apply slice_app_l. Qed.

(** Block by block, the text loop applies [f] to each group of eight bits. *)
Lemma each_block_blocks f (h : list Z → list Z) bs out :
  Forall (bitvec 8) bs →
  (∀ b, bitvec 8 b → f (nums b) = Ret (nums (h b))) →
  each_block f (nums (concat bs)) (steps8 (length (nums (concat bs)))) out
  = Ret (out ++ nums (concat (h <$> bs))).
Proof.
  intros Hbs Hf. revert out.
  induction Hbs as [|b bs Hb Hbs IH]; intros out.
  - simpl. by rewrite app_nil_r.
  - simpl concat. rewrite nums_app, length_app, !length_nums.
    destruct Hb as [Hlen Hb]. rewrite Hlen, steps8_add.
    cbn [each_block]. rewrite slice_block by (by rewrite length_nums).
    rewrite Hf, bind_Ret by done.
    rewrite <- (length_nums (concat bs)).
    replace (λ i : nat, (8 + i)%nat) with (λ i : nat, (length (nums b) + i)%nat)
      by (by rewrite length_nums, Hlen).
    rewrite each_block_shift, IH, nums_app. by rewrite <- app_assoc.
Qed.

Lemma join_app a b : join (a ++ b) = join a ++ join b.
Proof. unfold join. by rewrite fmap_app, concat_app. Qed.

Lemma length_join_bits b : Forall is_bit b → length (join (nums b)) = length b.
Proof.
  induction 1 as [|x b Hx _ IH]; [done|].
  change (nums (x :: b)) with ([I x] ++ nums b).
  rewrite join_app, length_app, IH. by destruct Hx as [-> | ->].
Qed.

Lemma byte_loop_shift (pre s : list Z) cs out :
  fold_left
    (λ output i, output ++ [fromCharCode (parseInt2 (slice (pre ++ s) i (i + 8)))])
    ((λ i, length pre + i)%nat <$> cs) out
  = fold_left
      (λ output i, output ++ [fromCharCode (parseInt2 (slice s i (i + 8)))])
      cs out.
Proof.
  revert out. induction cs as [|i cs IH]; intros out; [done|].
  cbn [fmap list_fmap fold_left]. by rewrite slice_shift, IH.
Qed.

Lemma byte_loop_blocks bs out :
  Forall (bitvec 8) bs →
  fold_left
    (λ output i,
       output ++ [fromCharCode (parseInt2 (slice (join (nums (concat bs))) i (i + 8)))])
    (steps8 (length (join (nums (concat bs))))) out
  = out ++ (byte_char <$> bs).
Proof.
  intros Hbs. revert out.
  induction Hbs as [|b bs Hb Hbs IH]; intros out.
  - simpl. by rewrite app_nil_r.
  - simpl concat. rewrite nums_app, join_app, length_app.
    destruct Hb as [Hlen Hb].
    assert (length (join (nums b)) = 8%nat) as Hj
      by (by rewrite length_join_bits).
    rewrite Hj, steps8_add. cbn [fold_left].
    rewrite slice_block by done.
    replace (λ i : nat, (8 + i)%nat)
      with (λ i : nat, (length (join (nums b)) + i)%nat) by (by rewrite Hj).
    rewrite byte_loop_shift, IH. simpl. by rewrite <- app_assoc.
Qed.

Lemma binaryToString_blocks bs :
  Forall (bitvec 8) bs → binaryToString (nums (concat bs)) = byte_char <$> bs.
Proof. intros Hbs. unfold binaryToString. by rewrite byte_loop_blocks. Qed.

(** ** A generator that always answers 0 *)

Lemma replicate_snoc_cons {A} n (x : A) l :
  replicate n x ++ x :: l = replicate (S n) x ++ l.
Proof. induction n as [|n IH]; [done|]. simpl. by rewrite IH. Qed.

Lemma fill_zero n k :
  ∀ s,
    for_each (seq s k)
      (λ i table,
         r ←$ Math_random;
         rand_ret (array_set table i (I (floor_mul r (Z.of_nat n) + 1))))
      (replicate s (I 1) ++ replicate k None) (constant_rng zero)
    = (replicate (s + k) (I 1), constant_rng zero).
Proof.
  induction k as [|k IH]; intros s.
  - simpl. unfold rand_ret. by rewrite app_nil_r, Nat.add_0_r.
  - cbn [seq for_each]. unfold rand_bind at 1. unfold rand_bind at 1.
    change (Math_random (constant_rng zero)) with (zero, constant_rng zero).
    unfold rand_ret at 1.
    replace (floor_mul zero (Z.of_nat n) + 1) with 1
      by (unfold floor_mul; simpl; by rewrite Z.div_1_r).
    rewrite array_set_inside
      by (rewrite length_app, !length_replicate; lia).
    rewrite insert_app_r_alt by (rewrite length_replicate; lia).
    rewrite length_replicate, Nat.sub_diag. cbn [replicate].
    change (<[0%nat := I 1]> (None :: replicate k None))
      with (I 1 :: replicate k (None : jsval)).
    rewrite replicate_snoc_cons, IH. f_equal. f_equal. lia.
Qed.

Lemma shuffleArray_zero n :
  shuffleArray (replicate n (I 1)) (constant_rng zero)
  = (replicate n (I 1), constant_rng zero).
Proof.
  unfold shuffleArray. apply for_each_fixed. intros i Hi.
  apply list_elem_of_In, in_rev, in_seq in Hi.
  rewrite length_replicate in Hi.
  unfold rand_bind.
  change (Math_random (constant_rng zero)) with (zero, constant_rng zero).
  unfold rand_ret.
  replace (floor_mul zero (Z.of_nat i + 1)) with 0
    by (unfold floor_mul; simpl; by rewrite Z.div_1_r).
  change (Z.to_nat 0) with 0%nat.
  rewrite (at_lookup _ 0 (I 1)) by (apply lookup_replicate_2; lia).
  rewrite (at_lookup _ i (I 1)) by (apply lookup_replicate_2; lia).
  rewrite (array_set_inside (replicate n (I 1)))
    by (rewrite length_replicate; lia).
  rewrite list_insert_id by (apply lookup_replicate_2; lia).
  rewrite array_set_inside by (rewrite length_replicate; lia).
  rewrite list_insert_id by (apply lookup_replicate_2; lia).
  done.
Qed.

Lemma generatePermutationTable_zero n :
  (generatePermutationTable n (constant_rng zero)).1 = nums (replicate n 1).
Proof.
  pose proof (fill_zero n n 0%nat) as Hfill. simpl in Hfill.
  unfold generatePermutationTable, new_Array. unfold rand_bind in *.
  rewrite Hfill, shuffleArray_zero. simpl.
  unfold nums. by rewrite fmap_replicate.
Qed.

(** ** One block, over plain integers *)

Section Blocks.

Variables (T : params) (k : list Z).
Hypothesis HT : in_range T.
Hypothesis Hk : bitvec 10 k.

Lemma spec_permute_table_bitvec v t : bitvec 8 v → table 8 8 t → bitvec 8 (spec_permute v t).
Proof.
  intros [Hlen Hv] [Hl Ht]. split.
  - by rewrite length_spec_permute.
  - apply spec_permute_bits; [done|]. by rewrite Hlen.
Qed.

Lemma spec_encrypt_bitvec v : bitvec 8 v → bitvec 8 (spec_encrypt T k v).
Proof.
  intros Hv.
  destruct (spec_subkeys_bitvec k (tP10 T) (tP8 T)) as [H1 H2];
    [done|apply HT..|].
  unfold spec_encrypt. apply spec_permute_table_bitvec; [|apply HT].
  apply feistel_bitvec; try done.
  apply spec_permute_table_bitvec; [done|apply HT].
Qed.

Lemma spec_decrypt_bitvec v : bitvec 8 v → bitvec 8 (spec_decrypt T k v).
Proof.
  intros Hv.
  destruct (spec_subkeys_bitvec k (tP10 T) (tP8 T)) as [H1 H2];
    [done|apply HT..|].
  unfold spec_decrypt. apply spec_permute_table_bitvec; [|apply HT].
  apply feistel_bitvec; try done.
  apply spec_permute_table_bitvec; [done|apply HT].
Qed.

(** With the identity as initial and final permutation, decryption undoes
    encryption. *)
Lemma spec_decrypt_encrypt v :
  tIP T = identity8 → tIPInverse T = identity8 →
  bitvec 8 v → spec_decrypt T k (spec_encrypt T k v) = v.
Proof.
  intros EI EV Hv.
  destruct (spec_subkeys_bitvec k (tP10 T) (tP8 T)) as [H1 H2];
    [done|apply HT..|].
  pose proof (feistel_bitvec T HT _ _ v H1 H2 Hv) as [Hf _].
  assert (length (tP4 T) = 4%nat) as H4 by apply HT.
  unfold spec_decrypt, spec_encrypt. rewrite EI, EV.
  rewrite (spec_permute_identity8 v) by apply Hv.
  rewrite !(spec_permute_identity8 (feistel _ _ _ v)) by done.
  rewrite feistel_inverse by (done || apply Hv).
  apply spec_permute_identity8, Hv.
Qed.

End Blocks.

(** ** The sample instance is well formed *)

Lemma demo_key_bitvec : bitvec 10 demo_key.
Proof. solve_bits. Qed.

Lemma demo_block_bitvec : bitvec 8 demo_block.
Proof. solve_bits. Qed.

Lemma demo_in_range : in_range demo_params.
Proof. solve_bits. Qed.

Lemma demo_state d : state d demo_params demo_key demo_instance.
Proof. by destruct d. Qed.

(** * The claims *)

(** C1. For every 10-bit 0/1 master key, every instance constructed from it
    (whatever the random source answered to the table and S-box generators)
    and every 8-bit 0/1 block: the construction succeeds, [encrypt] returns a
    ciphertext block, and [decrypt] of that block returns the original
    block.  This holds under both reading disciplines. *)
Theorem block_round_trip (d : discipline) (k : list Z) (g : rng) (v : list Z) :
  bitvec 10 k → bitvec 8 v →
  ∃ c ct,
    (SDES_new d (nums k) g).1 = Ret c ∧
    encrypt d c (nums v) = Ret ct ∧
    decrypt d c ct = Ret (nums v).
Proof.
  intros Hk Hv.
  destruct (SDES_new_state d k g) as (T & c & Hnew & HT & Hc & EI & EV & _);
    [apply Hk|].
  exists c, (nums (spec_encrypt T k v)). split; [done|]. split.
  - by apply (encrypt_nums d T k c).
  - rewrite (decrypt_nums d T k c) by (done || by apply spec_encrypt_bitvec).
    by rewrite spec_decrypt_encrypt.
Qed.

Lemma block_round_trip_witness :
  ∃ c ct,
    (SDES_new Js (nums demo_key) demo_rng).1 = Ret c ∧
    encrypt Js c (nums demo_block) = Ret ct ∧
    decrypt Js c ct = Ret (nums demo_block).
Proof.
  apply (block_round_trip Js demo_key demo_rng demo_block); solve_bits.
Defined.

(** C2. For every instance constructed from a 10-bit key and every string
    whose code units all lie in 0..255: [encryptText] returns a ciphertext
    string and [decryptText] of that string returns the original string. *)
Theorem text_round_trip (d : discipline) (k : list Z) (g : rng) (s : list Z) :
  bitvec 10 k → Forall (λ ch, 0 ≤ ch ≤ 255) s →
  ∃ c ct,
    (SDES_new d (nums k) g).1 = Ret c ∧
    encryptText d c s = Ret ct ∧
    decryptText d c ct = Ret s.
Proof.
  intros Hk Hs.
  destruct (SDES_new_state d k g) as (T & c & Hnew & HT & Hc & EI & EV & _);
    [apply Hk|].
  set (bs := byte_bits <$> s).
  assert (Forall (bitvec 8) bs) as Hbs.
  { apply Forall_fmap, Forall_true. intros ch. apply byte_bits_bitvec. }
  assert (Forall (bitvec 8) (spec_encrypt T k <$> bs)) as Hes.
  { apply Forall_fmap. eapply List.Forall_impl; [|exact Hbs].
    intros b Hb. by apply spec_encrypt_bitvec. }
  exists c, (byte_char <$> (spec_encrypt T k <$> bs)). split; [done|]. split.
  - unfold encryptText. rewrite stringToBinary_bytes by done. fold bs.
    rewrite (each_block_blocks _ (spec_encrypt T k)), bind_Ret;
      [|done|by apply (encrypt_nums d T k c)].
    by rewrite app_nil_l, binaryToString_blocks.
  - unfold decryptText. rewrite stringToBinary_bytes.
    2: { apply Forall_fmap. eapply List.Forall_impl; [|exact Hes].
         intros b Hb. by apply byte_char_range. }
    replace (byte_bits <$> (byte_char <$> (spec_encrypt T k <$> bs)))
      with (spec_encrypt T k <$> bs).
    2: { rewrite <- (list_fmap_compose byte_char byte_bits).
         rewrite <- (list_fmap_id (spec_encrypt T k <$> bs)) at 1.
         apply Forall_fmap_ext_1. eapply List.Forall_impl; [|exact Hes].
         intros b Hb. simpl. by rewrite byte_bits_char. }
    rewrite (each_block_blocks _ (spec_decrypt T k)), bind_Ret;
      [|done|by apply (decrypt_nums d T k c)].
    rewrite app_nil_l. f_equal.
    replace (spec_decrypt T k <$> (spec_encrypt T k <$> bs)) with bs.
    2: { rewrite <- (list_fmap_compose (spec_encrypt T k) (spec_decrypt T k)).
         rewrite <- (list_fmap_id bs) at 1.
         apply Forall_fmap_ext_1. eapply List.Forall_impl; [|exact Hbs].
         intros b Hb. simpl. by rewrite spec_decrypt_encrypt. }
    rewrite binaryToString_blocks by done. unfold bs.
    rewrite <- (list_fmap_compose byte_bits byte_char).
    rewrite <- (list_fmap_id s) at 2.
    apply Forall_fmap_ext_1. eapply List.Forall_impl; [|exact Hs].
    intros ch Hch. simpl. by rewrite byte_char_bits.
Qed.

Lemma text_round_trip_witness :
  ∃ c ct,
    (SDES_new Js (nums demo_key) demo_rng).1 = Ret c ∧
    encryptText Js c (lit "vixeven@UTM") = Ret ct ∧
    decryptText Js c ct = Ret (lit "vixeven@UTM").
Proof.
  apply (text_round_trip Js demo_key demo_rng (lit "vixeven@UTM")).
  - solve_bits.
  - refine (bool_decide_eq_true_1 _ _). vm_compute. reflexivity.
Defined.

Lemma spec_rotl_cumulative v :
  length v = 5%nat → spec_rotl 2 (spec_rotl 1 v) = spec_rotl 3 v.
Proof.
  intros Hlen. destruct v as [|x0 [|x1 [|x2 [|x3 [|x4 [|]]]]]];
    simplify_eq/=; done.
Qed.

(** C3. For every 10-bit key and every instance constructed from it, the
    subkeys the instance holds are the ones the specification's key schedule
    derives from the key and the instance's own P10 and P8: permute through
    P10, split into bits 0..4 and 5..9, rotate each half left by 1,
    concatenate and permute through P8 for key1; rotate the rotated halves
    by 2 more, concatenate and permute through P8 for key2.  The second
    rotation amounts to a rotation by 3 of the halves of the permuted key. *)
Theorem subkeys_derivation (d : discipline) (k : list Z) (g : rng) :
  bitvec 10 k →
  ∃ c p10 p8,
    (SDES_new d (nums k) g).1 = Ret c ∧
    key c = nums k ∧ P10 c = nums p10 ∧ P8 c = nums p8 ∧
    key1 (subKeys c) = nums (spec_subkeys k p10 p8).1 ∧
    key2 (subKeys c) = nums (spec_subkeys k p10 p8).2 ∧
    let l := take 5 (spec_permute k p10) in
    let r := take 5 (drop 5 (spec_permute k p10)) in
    (spec_subkeys k p10 p8).2
    = spec_permute (spec_rotl 3 l ++ spec_rotl 3 r) p8.
Proof.
  intros Hk.
  destruct (SDES_new_state d k g) as (T & c & Hnew & HT & Hc & _);
    [apply Hk|].
  pose proof (state_subKeys d T k c HT Hk Hc) as Hs.
  destruct Hc as (Ek & _ & _ & E10 & E8 & _).
  exists c, (tP10 T), (tP8 T). rewrite Hs. repeat (split; [done|]).
  assert (length (tP10 T) = 10%nat) as H10 by apply HT.
  unfold spec_subkeys. cbn [snd].
  rewrite !spec_rotl_cumulative; [done|..].
  - rewrite length_take, length_drop, length_spec_permute. lia.
  - rewrite length_take, length_spec_permute. lia.
Qed.

Lemma subkeys_derivation_witness :
  ∃ c p10 p8,
    (SDES_new Js (nums demo_key) demo_rng).1 = Ret c ∧
    key c = nums demo_key ∧ P10 c = nums p10 ∧ P8 c = nums p8 ∧
    key1 (subKeys c) = nums (spec_subkeys demo_key p10 p8).1 ∧
    key2 (subKeys c) = nums (spec_subkeys demo_key p10 p8).2 ∧
    let l := take 5 (spec_permute demo_key p10) in
    let r := take 5 (drop 5 (spec_permute demo_key p10)) in
    (spec_subkeys demo_key p10 p8).2
    = spec_permute (spec_rotl 3 l ++ spec_rotl 3 r) p8.
Proof. apply (subkeys_derivation Js demo_key demo_rng). solve_bits. Defined.

(** C4. For an instance whose P4 has 4 entries in 1..4 and whose S-boxes are
    4x4 with entries in 0..3, and for every 4-bit left half, 4-bit right half
    and 8-bit subkey, [round] returns, as its new left half, the left half
    XOR the P4 permutation of the S-box output on (expansion of the right
    half XOR subkey), with the expansion pattern [4,1,2,3,2,3,4,1], row
    [bit0*2 + bit3], column [bit1*2 + bit2], BOX_1 on the left four bits and
    BOX_2 on the right four, each looked-up value as two bits, most
    significant first. *)
Theorem round_new_left (d : discipline) (c : SDES)
    (p4 : list Z) (b1 b2 : list (list Z)) (l r sk : list Z) :
  P4 c = nums p4 → BOX_1 c = rows b1 → BOX_2 c = rows b2 →
  table 4 4 p4 → sbox4 b1 → sbox4 b2 →
  bitvec 4 l → bitvec 4 r → bitvec 8 sk →
  round d c (nums l) (nums r) (nums sk)
  = Ret (nums (spec_xor l
                 (spec_permute
                    (spec_sbox b1 b2 (spec_xor (spec_expand r) sk)) p4)),
         nums r).
Proof. intros. by apply round_nums. Qed.

Lemma round_new_left_witness :
  round Js demo_instance (nums [1; 0; 1; 1]) (nums [0; 1; 0; 1])
    (nums [1; 0; 1; 0; 0; 1; 0; 0])
  = Ret (nums (spec_xor [1; 0; 1; 1]
                 (spec_permute
                    (spec_sbox (tBOX_1 demo_params) (tBOX_2 demo_params)
                       (spec_xor (spec_expand [0; 1; 0; 1])
                          [1; 0; 1; 0; 0; 1; 0; 0]))
                    (tP4 demo_params))),
         nums [0; 1; 0; 1]).
Proof.
  apply (round_new_left Js demo_instance (tP4 demo_params)
           (tBOX_1 demo_params) (tBOX_2 demo_params)
           [1; 0; 1; 1] [0; 1; 0; 1] [1; 0; 1; 0; 0; 1; 0; 0]);
    solve_bits.
Defined.

(** C5. For every cipher state whose tables of length L have entries in
    1..L and whose S-boxes are 4x4 with entries in 0..3 (the state holding a
    10-bit key and the subkeys its key schedule derives), and every 8-bit
    block, [encrypt] and [decrypt] return an 8-bit block.  Under the
    [Checked] discipline this says that no read misses an array or finds
    [undefined]; no fault and no [TypeError] is raised. *)
Theorem block_operations_total (d : discipline) (T : params) (k : list Z)
    (c : SDES) (v : list Z) :
  in_range T → bitvec 10 k → state d T k c → bitvec 8 v →
  (∃ e, encrypt d c (nums v) = Ret (nums e) ∧ bitvec 8 e) ∧
  (∃ p, decrypt d c (nums v) = Ret (nums p) ∧ bitvec 8 p).
Proof.
  intros HT Hk Hc Hv. split.
  - exists (spec_encrypt T k v). split.
    + by apply (encrypt_nums d T k c).
    + by apply spec_encrypt_bitvec.
  - exists (spec_decrypt T k v). split.
    + by apply (decrypt_nums d T k c).
    + by apply spec_decrypt_bitvec.
Qed.

Lemma block_operations_total_witness :
  (∃ e, encrypt Checked demo_instance (nums demo_block) = Ret (nums e) ∧
        bitvec 8 e) ∧
  (∃ p, decrypt Checked demo_instance (nums demo_block) = Ret (nums p) ∧
        bitvec 8 p).
Proof.
  apply (block_operations_total Checked demo_params demo_key demo_instance
           demo_block); solve_bits.
Defined.

(** C6. Whatever the random source answers, [generateSBox] returns a matrix
    of four rows, each of them a permutation of 0, 1, 2, 3 and therefore
    without a repeated value. *)
Theorem generateSBox_row_permutations (g : rng) :
  ∃ r0 r1 r2 r3,
    (generateSBox g).1 = rows [r0; r1; r2; r3] ∧
    Forall (λ r, r ≡ₚ [0; 1; 2; 3] ∧ NoDup r) [r0; r1; r2; r3].
Proof.
  destruct (generateSBox_rows g) as (r0 & r1 & r2 & r3 & E & H).
  exists r0, r1, r2, r3. split; [done|].
  eapply List.Forall_impl; [|exact H]. intros r Hr. split; [done|].
  rewrite Hr. refine (bool_decide_eq_true_1 _ _). vm_compute. reflexivity.
Qed.

(** C7. [generatePermutationTable(length)] always returns [length] values,
    each in 1..length; but for a length of 2 or more some outcome of the
    random source yields a table with a repeated entry and a missing source
    position, so the table need not be a bijection. *)
Theorem generatePermutationTable_not_bijective (n : nat) (g : rng) :
  (∃ t, (generatePermutationTable n g).1 = nums t ∧
        length t = n ∧ Forall (λ x, 1 ≤ x ≤ Z.of_nat n) t) ∧
  ((2 ≤ n)%nat →
   ∃ g' t, (generatePermutationTable n g').1 = nums t ∧
           ¬ NoDup t ∧ ∃ x, 1 ≤ x ≤ Z.of_nat n ∧ x ∉ t).
Proof.
  split.
  - destruct (generatePermutationTable_table n g) as (t & E & Hl & Ht).
    by exists t.
  - intros Hn. exists (constant_rng zero), (replicate n 1).
    split; [apply generatePermutationTable_zero|]. split.
    + destruct n as [|[|n]]; [lia..|]. simpl.
      intros Hnd. inversion Hnd as [|x t Hnotin _]. apply Hnotin. by left.
    + exists 2. split; [lia|].
      intros Hin. apply elem_of_replicate in Hin as [? _]. done.
Qed.

Lemma generatePermutationTable_not_bijective_witness :
  ∃ g' t, (generatePermutationTable 4 g').1 = nums t ∧
          ¬ NoDup t ∧ ∃ x, 1 ≤ x ≤ Z.of_nat 4 ∧ x ∉ t.
Proof.
  apply (proj2 (generatePermutationTable_not_bijective 4 demo_rng)). lia.
Defined.

(** C8. Whatever the instance, the halves and the subkey, a result of
    [round] carries the input right half unchanged as its second component:
    the round swaps nothing.  And [round] does return on the inputs it is
    meant for: 4-bit halves and an 8-bit subkey, over a P4 of 4 entries in
    1..4 and 4x4 S-boxes with entries in 0..3. *)
Theorem round_right_unchanged (d : discipline) (c : SDES)
    (left right key : list jsval) :
  (∀ out, round d c left right key = Ret out → out.2 = right) ∧
  (∀ p4 b1 b2 l r sk,
     P4 c = nums p4 → BOX_1 c = rows b1 → BOX_2 c = rows b2 →
     table 4 4 p4 → sbox4 b1 → sbox4 b2 →
     left = nums l → right = nums r → key = nums sk →
     bitvec 4 l → bitvec 4 r → bitvec 8 sk →
     ∃ newLeft, round d c left right key = Ret (newLeft, right)).
Proof.
  split.
  - intros out. unfold round.
    destruct (expandAndPermute d right) as [e|]; [|done]. rewrite bind_Ret.
    destruct (xor d e key) as [x|]; [|done]. rewrite bind_Ret.
    destruct (sBox d c x) as [s|]; [|done]. rewrite bind_Ret.
    destruct (p4Permutation d c s) as [p|]; [|done]. rewrite bind_Ret.
    destruct (xor d left p) as [nl|]; [|done]. rewrite bind_Ret.
    by intros [= <-].
  - intros p4 b1 b2 l r sk E4 E1 E2 H4 H1 H2 -> -> -> Hl Hr Hsk.
    eexists. by apply (round_nums d c p4 b1 b2).
Qed.

Lemma round_right_unchanged_witness :
  ∃ newLeft,
    round Js demo_instance (nums [1; 0; 1; 1]) (nums [0; 1; 0; 1])
      (nums [1; 0; 1; 0; 0; 1; 0; 0])
    = Ret (newLeft, nums [0; 1; 0; 1]).
Proof.
  apply (proj2 (round_right_unchanged Js demo_instance (nums [1; 0; 1; 1])
                  (nums [0; 1; 0; 1]) (nums [1; 0; 1; 0; 0; 1; 0; 0]))
           (tP4 demo_params) (tBOX_1 demo_params) (tBOX_2 demo_params)
           [1; 0; 1; 1] [0; 1; 0; 1] [1; 0; 1; 0; 0; 1; 0; 0]);
    solve_bits.
Defined.

(** C9. Every constructed instance has IP equal to [1,2,3,4,5,6,7,8] and an
    inverse IP equal to the same table, so permuting an 8-element block
    through either, as [encrypt] and [decrypt] do first and last, returns
    the block itself. *)
Theorem initial_permutation_identity (d : discipline) (k : list Z) (g : rng) :
  bitvec 10 k →
  ∃ c,
    (SDES_new d (nums k) g).1 = Ret c ∧
    IP c = nums [1; 2; 3; 4; 5; 6; 7; 8] ∧
    IPInverse c = nums [1; 2; 3; 4; 5; 6; 7; 8] ∧
    ∀ v, length v = 8%nat →
         permute d (nums v) (IP c) = Ret (nums v) ∧
         permute d (nums v) (IPInverse c) = Ret (nums v).
Proof.
  intros Hk.
  destruct (SDES_new_state d k g) as (T & c & Hnew & HT & Hc & EI & EV & _);
    [apply Hk|].
  destruct Hc as (_ & HI & HV & _). rewrite EI in HI. rewrite EV in HV.
  exists c. rewrite HI, HV. repeat (split; [done|]).
  intros v Hv.
  assert (permute d (nums v) (nums identity8) = Ret (nums v)) as Hid.
  { rewrite permute_nums by (rewrite Hv; apply identity8_table).
    by rewrite spec_permute_identity8. }
  done.
Qed.

Lemma initial_permutation_identity_witness :
  ∃ c,
    (SDES_new Js (nums demo_key) demo_rng).1 = Ret c ∧
    IP c = nums [1; 2; 3; 4; 5; 6; 7; 8] ∧
    IPInverse c = nums [1; 2; 3; 4; 5; 6; 7; 8] ∧
    ∀ v, length v = 8%nat →
         permute Js (nums v) (IP c) = Ret (nums v) ∧
         permute Js (nums v) (IPInverse c) = Ret (nums v).
Proof.
  apply (initial_permutation_identity Js demo_key demo_rng). solve_bits.
Defined.

(** C10. On an instance whose P4 has 4 entries in 1..4, [p4Permutation]
    agrees with the general [permute] through P4 on every 4-element array,
    and on an array of four numbers both return the P4 permutation of it. *)
Theorem p4Permutation_agrees_with_permute (d : discipline) (c : SDES)
    (p4 : list Z) (v : list jsval) :
  P4 c = nums p4 → table 4 4 p4 → length v = 4%nat →
  p4Permutation d c v = permute d v (P4 c) ∧
  ∀ b, v = nums b → p4Permutation d c v = Ret (nums (spec_permute b p4)).
Proof.
  intros E4 [Hl4 H4] Hv.
  assert (p4Permutation d c v = permute d v (P4 c)) as Heq.
  { apply p4Permutation_permute. by rewrite E4, length_nums, Hl4. }
  split; [done|].
  intros b ->. rewrite Heq, E4. apply permute_nums.
  rewrite length_nums in Hv. by rewrite Hv.
Qed.

Lemma p4Permutation_agrees_with_permute_witness :
  p4Permutation Js demo_instance (nums [1; 0; 0; 1])
  = permute Js (nums [1; 0; 0; 1]) (P4 demo_instance) ∧
  ∀ b, nums [1; 0; 0; 1] = nums b →
       p4Permutation Js demo_instance (nums [1; 0; 0; 1])
       = Ret (nums (spec_permute b (tP4 demo_params))).
Proof.
  apply (p4Permutation_agrees_with_permute Js demo_instance
           (tP4 demo_params) (nums [1; 0; 0; 1])); solve_bits.
Defined.

(** * Further properties of the class *)

(** ** Shuffling and rotating *)

(** X1. Whatever the random source answers, [shuffleArray] returns a
    rearrangement of its argument: no element is lost, duplicated or
    invented, and the length is kept. *)
Theorem shuffleArray_rearranges (array : list jsval) (g : rng) :
  (shuffleArray array g).1 ≡ₚ array ∧
  length (shuffleArray array g).1 = length array.
Proof.
  pose proof (shuffleArray_Permutation array g) as H.
  split; [done|]. by rewrite H.
Qed.

(** X2. [circularLeftShift] rearranges its input and keeps its length for
    every shift count; a count equal to the length or beyond it returns the
    input itself, since both slices are clamped (the count is not reduced
    modulo the length). *)
Theorem circularLeftShift_rotation (input : list jsval) (shiftNumber : nat) :
  circularLeftShift input shiftNumber ≡ₚ input ∧
  length (circularLeftShift input shiftNumber) = length input ∧
  ((length input ≤ shiftNumber)%nat → circularLeftShift input shiftNumber = input).
Proof.
  unfold circularLeftShift, slice_from, slice.
  rewrite Nat.sub_0_r, drop_0.
  assert (drop shiftNumber input ++ take shiftNumber input ≡ₚ input) as H.
  { rewrite Permutation_app_comm. by rewrite take_drop. }
  split; [done|]. split; [by rewrite H|].
  intros Hlen. by rewrite drop_ge, take_ge by lia.
Qed.

Lemma circularLeftShift_rotation_witness :
  circularLeftShift (nums [1; 0; 0]) 3 = nums [1; 0; 0].
Proof.
  apply (circularLeftShift_rotation (nums [1; 0; 0]) 3). simpl. lia.
Defined.

(** X3. Two successive shifts whose counts together do not exceed the length
    amount to one shift by the sum of the counts. *)
Theorem circularLeftShift_compose (input : list jsval) (n m : nat) :
  (n + m ≤ length input)%nat →
  circularLeftShift (circularLeftShift input n) m
  = circularLeftShift input (n + m).
Proof.
  intros Hlen. unfold circularLeftShift, slice_from, slice.
  rewrite !Nat.sub_0_r, !drop_0.
  rewrite drop_app_le by (rewrite length_drop; lia).
  rewrite take_app_le by (rewrite length_drop; lia).
  rewrite drop_drop, <- app_assoc. f_equal.
  rewrite <- (take_drop n (take (n + m) input)).
  rewrite take_take, Nat.min_l by lia. f_equal.
  by rewrite take_drop_commute.
Qed.

Lemma circularLeftShift_compose_witness :
  circularLeftShift (circularLeftShift (nums [1; 0; 0; 1; 1]) 1) 2
  = circularLeftShift (nums [1; 0; 0; 1; 1]) (1 + 2).
Proof.
  apply (circularLeftShift_compose (nums [1; 0; 0; 1; 1]) 1 2). simpl. lia.
Defined.

(** ** Inverting a table *)

(** One iteration of the loop of [getArrayInverse] on an in-range entry
    writes inside the array. *)
Lemma inverse_step t (a : list jsval) i x :
  t !! i = Some x → 1 ≤ x ≤ Z.of_nat (length a) →
  array_store a (js_sub (at_ (nums t) i) (I 1)) (I (Z.of_nat i + 1))
  = <[Z.to_nat (x - 1) := I (Z.of_nat i + 1)]> a.
Proof.
  intros Hi Hx.
  rewrite (at_lookup (nums t) i (I x))
    by (unfold nums; by rewrite list_lookup_fmap, Hi).
  change (js_sub (I x) (I 1)) with (I (x - 1)).
  unfold array_store, as_index, I. rewrite decide_True by lia.
  apply array_set_inside. lia.
Qed.

(** The loop over the counters [s, s + m): the length is kept, a slot no
    counter aims at is untouched, and a slot holds the counter (plus one) of
    the last entry that aims at it. *)
Lemma inverse_loop t n m :
  Forall (λ x, 1 ≤ x ≤ Z.of_nat n) t →
  ∀ s (a : list jsval),
    length a = n → (s + m ≤ length t)%nat →
    let r := fold_left
               (λ IPInverse i,
                  array_store IPInverse (js_sub (at_ (nums t) i) (I 1))
                    (I (Z.of_nat i + 1)))
               (seq s m) a in
    length r = n ∧
    (∀ k, (∀ j, (s ≤ j < s + m)%nat → t !! j ≠ Some (Z.of_nat k + 1)) →
          r !! k = a !! k) ∧
    (∀ j x, (s ≤ j < s + m)%nat → t !! j = Some x →
            (∀ j', (j < j' < s + m)%nat → t !! j' ≠ Some x) →
            r !! Z.to_nat (x - 1) = Some (I (Z.of_nat j + 1))).
Proof.
  intros Ht. induction m as [|m IH]; intros s a Hlen Hsm; simpl.
  - split; [done|]. split; [done|]. intros j x Hj. lia.
  - destruct (lookup_lt_is_Some_2 t s) as [y Hy]; [lia|].
    pose proof (proj1 (Forall_lookup _ _) Ht s y Hy) as Hyr. simpl in Hyr.
    rewrite (inverse_step t a s y Hy) by (by rewrite Hlen).
    destruct (IH (S s) (<[Z.to_nat (y - 1) := I (Z.of_nat s + 1)]> a))
      as (Hl & Hkeep & Hlast); [by rewrite length_insert|lia|].
    split; [done|]. split.
    + intros k Hk. rewrite Hkeep by (intros j Hj; apply Hk; lia).
      apply list_lookup_insert_ne. intros Heq. subst k.
      apply (Hk s); [lia|]. rewrite Hy. f_equal. lia.
    + intros j x Hj Hx Hlater. destruct (decide (j = s)) as [->|Hne].
      * rewrite Hy in Hx. injection Hx as ->.
        rewrite Hkeep.
        -- apply list_lookup_insert_eq. lia.
        -- intros j' Hj'. replace (Z.of_nat (Z.to_nat (x - 1)) + 1) with x by lia.
           apply Hlater. lia.
      * apply Hlast; [lia|done|]. intros j' Hj'. apply Hlater. lia.
Qed.

Lemma last_occurrence (t : list Z) x :
  x ∈ t → ∃ j, t !! j = Some x ∧ ∀ j', (j < j')%nat → t !! j' ≠ Some x.
Proof.
  induction t as [|y t IH]; intros Hx; [by apply elem_of_nil in Hx|].
  destruct (decide (x ∈ t)) as [Hin|Hnin].
  - destruct (IH Hin) as (j & Hj & Hlast). exists (S j). split; [done|].
    intros [|j'] Hj'; [lia|]. simpl. apply Hlast. lia.
  - apply elem_of_cons in Hx as [->|Hx]; [|done]. exists 0%nat. split; [done|].
    intros [|j'] Hj'; [lia|]. simpl. intros Hy. apply Hnin.
    apply list_elem_of_lookup. eauto.
Qed.

(** X4. On a table of [n] entries in 1..n, [getArrayInverse] returns [n]
    slots, and slot [k] is left [undefined] exactly when source position
    [k + 1] does not occur in the table: a table that misses a position has
    an inverse with a hole there. *)
Theorem getArrayInverse_holes (n : nat) (t : list Z) (k : nat) :
  table n n t → (k < n)%nat →
  length (getArrayInverse (nums t)) = n ∧
  (getArrayInverse (nums t) !! k = Some undefined ↔ Z.of_nat k + 1 ∉ t).
Proof.
  intros [Hlen Ht] Hk. unfold getArrayInverse. rewrite length_nums, Hlen.
  destruct (inverse_loop t n n Ht 0%nat (new_Array n))
    as (Hl & Hkeep & Hlast); [apply length_replicate|lia|].
  split; [done|]. split.
  - intros Hnone Hin.
    destruct (last_occurrence t _ Hin) as (j & Hj & Hlater).
    pose proof (lookup_lt_Some _ _ _ Hj) as Hjn.
    pose proof (Hlast j _ ltac:(lia) Hj
                  ltac:(intros j' Hj'; apply Hlater; lia)) as Hset.
    replace (Z.to_nat (Z.of_nat k + 1 - 1)) with k in Hset by lia.
    unfold new_Array in *. by rewrite Hset in Hnone.
  - intros Hnin. rewrite Hkeep.
    + unfold new_Array. by apply lookup_replicate_2.
    + intros j _ Hj. apply Hnin. apply list_elem_of_lookup. eauto.
Qed.

Lemma getArrayInverse_holes_witness :
  length (getArrayInverse (nums [2; 2; 1])) = 3%nat ∧
  (getArrayInverse (nums [2; 2; 1]) !! 2%nat = Some undefined
   ↔ Z.of_nat 2 + 1 ∉ [2; 2; 1]).
Proof. apply (getArrayInverse_holes 3 [2; 2; 1] 2); solve_bits. Defined.

Lemma spec_permute_lookup v t j x :
  t !! j = Some x → spec_permute v t !! j = Some (nth (Z.to_nat (x - 1)) v 0).
Proof. intros H. unfold spec_permute. by rewrite list_lookup_fmap, H. Qed.

(** A table of [n] distinct entries in 1..n mentions every position. *)
Lemma bijective_table_onto n t k :
  table n n t → NoDup t → (k < n)%nat → Z.of_nat k + 1 ∈ t.
Proof.
  intros [Hlen Ht] Hnd Hk.
  assert (t ≡ₚ seqZ 1 (Z.of_nat n)) as Hperm.
  { apply submseteq_length_Permutation.
    - apply NoDup_submseteq; [done|]. intros x Hx. apply elem_of_seqZ.
      rewrite Forall_forall in Ht. apply list_elem_of_In in Hx.
      specialize (Ht x Hx). simpl in Ht. lia.
    - rewrite length_seqZ. lia. }
  rewrite Hperm. apply elem_of_seqZ. lia.
Qed.

(** The inverse of a bijective table, slot by slot. *)
Lemma getArrayInverse_bijective n t :
  table n n t → NoDup t →
  ∃ t', getArrayInverse (nums t) = nums t' ∧ table n n t' ∧
        (∀ j x, t !! j = Some x → t' !! Z.to_nat (x - 1) = Some (Z.of_nat j + 1)) ∧
        (∀ k, (k < n)%nat →
              ∃ j, t' !! k = Some (Z.of_nat j + 1) ∧ t !! j = Some (Z.of_nat k + 1)).
Proof.
  intros Htab Hnd. pose proof Htab as [Hlen Ht].
  unfold getArrayInverse. rewrite length_nums, Hlen.
  destruct (inverse_loop t n n Ht 0%nat (new_Array n))
    as (Hl & _ & Hlast); [apply length_replicate|lia|].
  set (r := fold_left _ _ _) in *.
  assert (∀ j x, t !! j = Some x → r !! Z.to_nat (x - 1) = Some (I (Z.of_nat j + 1)))
    as Hset.
  { intros j x Hj. pose proof (lookup_lt_Some _ _ _ Hj).
    apply Hlast; [lia|done|]. intros j' Hj' Hx.
    pose proof (NoDup_lookup _ _ _ _ Hnd Hj Hx). lia. }
  assert (∀ k, (k < n)%nat →
               ∃ j, r !! k = Some (I (Z.of_nat j + 1)) ∧ t !! j = Some (Z.of_nat k + 1))
    as Hslot.
  { intros k Hk. pose proof (bijective_table_onto n t k Htab Hnd Hk) as Hin.
    apply list_elem_of_lookup in Hin as [j Hj]. exists j. split; [|done].
    rewrite <- (Hset j _ Hj). f_equal. lia. }
  assert (Forall (λ v : jsval, ∃ z, v = I z ∧ 1 ≤ z ≤ Z.of_nat n) r) as Hok.
  { apply Forall_lookup. intros k v Hv.
    pose proof (lookup_lt_Some _ _ _ Hv) as Hk. rewrite Hl in Hk.
    destruct (Hslot k Hk) as (j & Hr & Hj). rewrite Hr in Hv. injection Hv as <-.
    pose proof (lookup_lt_Some _ _ _ Hj). eexists. split; [done|lia]. }
  destruct (Forall_nums _ _ Hok) as (t' & Er & Ht').
  exists t'. split; [done|]. rewrite Er, length_nums in Hl.
  split; [done|]. split.
  - intros j x Hj. specialize (Hset j x Hj). rewrite Er in Hset.
    unfold nums in Hset. rewrite list_lookup_fmap in Hset.
    destruct (t' !! Z.to_nat (x - 1)) as [z|]; simplify_eq/=. done.
  - intros k Hk. destruct (Hslot k Hk) as (j & Hr & Hj). exists j. split; [|done].
    rewrite Er in Hr. unfold nums in Hr. rewrite list_lookup_fmap in Hr.
    destruct (t' !! k) as [z|]; simplify_eq/=. done.
Qed.

(** X5. On a table of [n] distinct entries in 1..n, [getArrayInverse]
    returns the inverse table: it has [n] entries in 1..n, and permuting an
    [n]-element block through the table and then through its inverse, or the
    other way round, returns the block. *)
Theorem getArrayInverse_inverts (d : discipline) (n : nat) (t v : list Z) :
  table n n t → NoDup t → length v = n →
  ∃ t',
    getArrayInverse (nums t) = nums t' ∧ table n n t' ∧
    (w ← permute d (nums v) (nums t); permute d w (nums t')) = Ret (nums v) ∧
    (w ← permute d (nums v) (nums t'); permute d w (nums t)) = Ret (nums v).
Proof.
  intros Htab Hnd Hv.
  destruct (getArrayInverse_bijective n t Htab Hnd)
    as (t' & E & Htab' & Hfwd & Hbwd).
  pose proof Htab as [Hlen Ht]. pose proof Htab' as [Hlen' Ht'].
  exists t'. split; [done|]. split; [done|].
  assert (∀ i, (i < n)%nat → v !! i = Some (nth i v 0)) as Hvi.
  { intros i Hi. destruct (lookup_lt_is_Some_2 v i) as [z Hz]; [lia|].
    by rewrite (nth_lookup_Z _ _ _ Hz). }
  split.
  - rewrite permute_nums, bind_Ret by (by rewrite Hv).
    rewrite permute_nums by (by rewrite length_spec_permute, Hlen).
    f_equal. f_equal. apply list_eq. intros i.
    destruct (decide (i < n)%nat) as [Hi|Hi].
    + destruct (Hbwd i Hi) as (j & Hj' & Hj).
      rewrite (spec_permute_lookup _ _ _ _ Hj'), Hvi by done. f_equal.
      replace (Z.to_nat (Z.of_nat j + 1 - 1)) with j by lia.
      rewrite (nth_lookup_Z _ _ _ (spec_permute_lookup v _ _ _ Hj)).
      f_equal. lia.
    + rewrite !lookup_ge_None_2; [done|lia|].
      rewrite length_spec_permute. lia.
  - rewrite permute_nums, bind_Ret by (by rewrite Hv).
    rewrite permute_nums by (by rewrite length_spec_permute, Hlen').
    f_equal. f_equal. apply list_eq. intros i.
    destruct (decide (i < n)%nat) as [Hi|Hi].
    + destruct (lookup_lt_is_Some_2 t i) as [x Hx]; [lia|].
      pose proof (proj1 (Forall_lookup _ _) Ht i x Hx) as Hxr. simpl in Hxr.
      rewrite (spec_permute_lookup _ _ _ _ Hx), Hvi by done. f_equal.
      rewrite (nth_lookup_Z _ _ _ (spec_permute_lookup v _ _ _ (Hfwd i x Hx))).
      f_equal. lia.
    + rewrite !lookup_ge_None_2; [done|lia|].
      rewrite length_spec_permute. lia.
Qed.

Lemma getArrayInverse_inverts_witness :
  ∃ t',
    getArrayInverse (nums [2; 4; 3; 1]) = nums t' ∧ table 4 4 t' ∧
    (w ← permute Js (nums [1; 0; 0; 1]) (nums [2; 4; 3; 1]);
     permute Js w (nums t')) = Ret (nums [1; 0; 0; 1]) ∧
    (w ← permute Js (nums [1; 0; 0; 1]) (nums t');
     permute Js w (nums [2; 4; 3; 1])) = Ret (nums [1; 0; 0; 1]).
Proof.
  apply (getArrayInverse_inverts Js 4 [2; 4; 3; 1] [1; 0; 0; 1]).
  - solve_bits.
  - refine (bool_decide_eq_true_1 _ _). vm_compute. reflexivity.
  - reflexivity.
Defined.

(** ** Reads at the bounds *)

(** Under [Js] a read never fails: it yields the slot, or [undefined]. *)
Lemma fetch_Js {A} (a : list (option A)) v :
  fetch Js a v = Ret (from_option (at_ a) undefined (as_index v)).
Proof.
  unfold fetch, at_. destruct (as_index v) as [i|]; [|done]. simpl.
  by destruct (a !! i) as [[x|]|].
Qed.

Lemma fetch_Checked_outside v x :
  ¬ (1 ≤ x ≤ Z.of_nat (length v)) →
  fetch Checked (nums v) (js_sub (I x) (I 1)) = Throw BadRead.
Proof.
  intros Hx. change (js_sub (I x) (I 1)) with (I (x - 1)).
  unfold fetch, as_index, I. destruct (decide (0 ≤ x - 1)) as [Hpos|]; [|done].
  rewrite lookup_ge_None_2; [done|]. rewrite length_nums. lia.
Qed.

Lemma permute_Checked_outside v t :
  ¬ Forall (λ x, 1 ≤ x ≤ Z.of_nat (length v)) t →
  permute Checked (nums v) (nums t) = Throw BadRead.
Proof.
  unfold permute, array_map. generalize 0%nat.
  induction t as [|x t IH]; intros i Hbad; [by destruct Hbad|].
  simpl. destruct (decide (1 ≤ x ≤ Z.of_nat (length v))) as [Hx|Hx].
  - rewrite fetch_nums_pred, bind_Ret by done.
    rewrite IH; [done|]. intros Ht. apply Hbad. by constructor.
  - by rewrite fetch_Checked_outside.
Qed.

(** X6. [permute] never fails in JavaScript: whatever the input and the
    table, it returns as many elements as the table has entries.  Read with
    checks, it returns on an array of numbers exactly when every table entry
    lies in 1..(input length); an entry outside makes it read past the
    array. *)
Theorem permute_bounds (input table : list jsval) (v t : list Z) :
  (∃ out, permute Js input table = Ret out ∧ length out = length table) ∧
  (Forall (λ x, 1 ≤ x ≤ Z.of_nat (length v)) t →
   permute Checked (nums v) (nums t) = Ret (nums (spec_permute v t))) ∧
  (¬ Forall (λ x, 1 ≤ x ≤ Z.of_nat (length v)) t →
   permute Checked (nums v) (nums t) = Throw BadRead).
Proof.
  split; [|split].
  - eexists. split.
    + unfold permute, array_map. apply map_from_ret.
      intros k x _. apply fetch_Js.
    + by rewrite length_fmap.
  - apply permute_nums.
  - apply permute_Checked_outside.
Qed.

Lemma permute_bounds_witness :
  permute Checked (nums [1; 0; 1]) (nums [2; 3; 1])
  = Ret (nums (spec_permute [1; 0; 1] [2; 3; 1])) ∧
  permute Checked (nums [1; 0; 1]) (nums [2; 4; 1]) = Throw BadRead.
Proof.
  split.
  - apply (proj1 (proj2 (permute_bounds [] [] [1; 0; 1] [2; 3; 1]))).
    simpl. solve_bits.
  - apply (proj2 (proj2 (permute_bounds [] [] [1; 0; 1] [2; 4; 1]))).
    intros H. apply Forall_cons_1 in H as [_ H].
    apply Forall_cons_1 in H as [H _]. simpl in H. lia.
Defined.

Lemma xor_Js_padded a b pad :
  Forall is_bit a → Forall is_bit b →
  ∀ i, (i + length a ≤ length b + pad)%nat →
  map_from (λ bit i, b' ← fetch Js (nums b) (I (Z.of_nat i)); Ret (js_xor bit b'))
    i (nums a)
  = Ret (nums (zip_with Z.lxor a (drop i (b ++ replicate pad 0)))).
Proof.
  intros Ha Hb.
  induction Ha as [|x a Hx Ha IH]; intros i Hlen; simpl in *; [done|].
  destruct (lookup_lt_is_Some_2 (b ++ replicate pad 0) i) as [y Hy].
  { rewrite length_app, length_replicate. lia. }
  rewrite (drop_S _ y i Hy). simpl.
  assert ((b' ← fetch Js (nums b) (I (Z.of_nat i)); Ret (js_xor (I x) b'))
          = Ret (I (Z.lxor x y))) as ->.
  { rewrite fetch_Js, as_index_nat, bind_Ret. simpl. f_equal.
    destruct (decide (i < length b)%nat) as [Hi|Hi].
    - rewrite lookup_app_l in Hy by done.
      rewrite (at_lookup (nums b) i (I y))
        by (unfold nums; by rewrite list_lookup_fmap, Hy).
      apply js_xor_bits; [done|]. rewrite Forall_lookup in Hb. eauto.
    - rewrite lookup_app_r in Hy by lia.
      apply lookup_replicate in Hy as [-> _].
      unfold at_. rewrite lookup_ge_None_2 by (rewrite length_nums; lia).
      by destruct Hx as [-> | ->]. }
  rewrite bind_Ret, IH by lia. done.
Qed.

Lemma xor_Checked_short a b :
  (length b < length a)%nat →
  ∀ i, (i ≤ length b)%nat → (length b < i + length a)%nat →
  map_from
    (λ bit i, b' ← fetch Checked (nums b) (I (Z.of_nat i)); Ret (js_xor bit b'))
    i (nums a)
  = Throw BadRead.
Proof.
  intros _. induction a as [|x a IH]; intros i Hi Hlen; simpl in *; [lia|].
  destruct (decide (i < length b)%nat) as [Hlt|Hge].
  - destruct (lookup_lt_is_Some_2 b i Hlt) as [y Hy].
    rewrite (fetch_nums Checked b i y Hy), !bind_Ret.
    rewrite IH by lia. done.
  - unfold fetch. rewrite as_index_nat.
    rewrite lookup_ge_None_2 by (rewrite length_nums; lia). done.
Qed.

(** X7. In JavaScript [xor] returns one bit for every element of its first
    argument: where the second argument is shorter, the missing elements
    count as 0 and the bits of the first pass through; where it is longer,
    the surplus is ignored.  Read with checks, a shorter second argument is
    a read past its end. *)
Theorem xor_lengths (a b : list Z) :
  Forall is_bit a → Forall is_bit b →
  xor Js (nums a) (nums b)
  = Ret (nums (spec_xor a (b ++ replicate (length a - length b) 0))) ∧
  ((length b < length a)%nat → xor Checked (nums a) (nums b) = Throw BadRead).
Proof.
  intros Ha Hb. split.
  - unfold xor, array_map.
    rewrite (xor_Js_padded a b (length a - length b)) by (done || lia).
    by rewrite drop_0.
  - intros Hlen. unfold xor, array_map. apply xor_Checked_short; lia.
Qed.

Lemma xor_lengths_witness :
  xor Js (nums [1; 0; 1; 1]) (nums [1; 1])
  = Ret (nums (spec_xor [1; 0; 1; 1]
                 ([1; 1] ++ replicate (length [1; 0; 1; 1] - length [1; 1]) 0))) ∧
  xor Checked (nums [1; 0; 1; 1]) (nums [1; 1]) = Throw BadRead.
Proof.
  destruct (xor_lengths [1; 0; 1; 1] [1; 1]) as [H1 H2]; [solve_bits..|].
  split; [exact H1|]. apply H2. simpl. lia.
Defined.

(** ** Rounds and blocks *)

(** X8. A round is its own inverse: on an instance with a P4 of 4 entries in
    1..4 and 4x4 S-boxes with entries in 0..3, applying [round] to the halves
    it returned, with the same subkey, gives back the halves it started
    from. *)
Theorem round_involution (d : discipline) (c : SDES)
    (p4 : list Z) (b1 b2 : list (list Z)) (l r sk : list Z) :
  P4 c = nums p4 → BOX_1 c = rows b1 → BOX_2 c = rows b2 →
  table 4 4 p4 → sbox4 b1 → sbox4 b2 →
  bitvec 4 l → bitvec 4 r → bitvec 8 sk →
  (halves ← round d c (nums l) (nums r) (nums sk);
   round d c halves.1 halves.2 (nums sk))
  = Ret (nums l, nums r).
Proof.
  intros E4 E1 E2 H4 H1 H2 Hl Hr Hsk.
  pose proof (spec_new_left_bitvec p4 b1 b2 H4 H1 H2 l r sk Hl Hr Hsk) as Hn.
  pose proof (spec_mask_bitvec p4 b1 b2 H4 H1 H2 r sk Hr Hsk) as [Hm _].
  rewrite (round_nums d c p4 b1 b2), bind_Ret by done. cbn [fst snd].
  rewrite (round_nums d c p4 b1 b2) by done.
  unfold spec_new_left. rewrite spec_xor_cancel; [done|].
  destruct Hl as [-> _]. by rewrite Hm.
Qed.

Lemma round_involution_witness :
  (halves ← round Js demo_instance (nums [1; 0; 1; 1]) (nums [0; 1; 0; 1])
              (nums [1; 0; 1; 0; 0; 1; 0; 0]);
   round Js demo_instance halves.1 halves.2 (nums [1; 0; 1; 0; 0; 1; 0; 0]))
  = Ret (nums [1; 0; 1; 1], nums [0; 1; 0; 1]).
Proof.
  apply (round_involution Js demo_instance (tP4 demo_params)
           (tBOX_1 demo_params) (tBOX_2 demo_params)
           [1; 0; 1; 1] [0; 1; 0; 1] [1; 0; 1; 0; 0; 1; 0; 0]);
    solve_bits.
Defined.

Lemma spec_encrypt_decrypt T k v :
  in_range T → bitvec 10 k →
  tIP T = identity8 → tIPInverse T = identity8 →
  bitvec 8 v → spec_encrypt T k (spec_decrypt T k v) = v.
Proof.
  intros HT Hk EI EV Hv.
  destruct (spec_subkeys_bitvec k (tP10 T) (tP8 T)) as [H1 H2];
    [done|apply HT..|].
  pose proof (feistel_bitvec T HT _ _ v H2 H1 Hv) as [Hf _].
  assert (length (tP4 T) = 4%nat) as H4 by apply HT.
  unfold spec_decrypt, spec_encrypt. rewrite EI, EV.
  rewrite (spec_permute_identity8 v) by apply Hv.
  rewrite !(spec_permute_identity8 (feistel _ _ _ v)) by done.
  rewrite feistel_inverse by (done || apply Hv).
  apply spec_permute_identity8, Hv.
Qed.

(** X9. Decryption is undone by encryption as well: on every constructed
    instance and every 8-bit block, [encrypt] of what [decrypt] returned is
    the block. *)
Theorem encrypt_after_decrypt (d : discipline) (k : list Z) (g : rng)
    (v : list Z) :
  bitvec 10 k → bitvec 8 v →
  ∃ c pt,
    (SDES_new d (nums k) g).1 = Ret c ∧
    decrypt d c (nums v) = Ret pt ∧
    encrypt d c pt = Ret (nums v).
Proof.
  intros Hk Hv.
  destruct (SDES_new_state d k g) as (T & c & Hnew & HT & Hc & EI & EV & _);
    [apply Hk|].
  exists c, (nums (spec_decrypt T k v)). split; [done|]. clear Hnew. split.
  - by apply (decrypt_nums d T k c).
  - rewrite (encrypt_nums d T k c) by (done || by apply spec_decrypt_bitvec).
    by rewrite spec_encrypt_decrypt.
Qed.

Lemma encrypt_after_decrypt_witness :
  ∃ c pt,
    (SDES_new Js (nums demo_key) demo_rng).1 = Ret c ∧
    decrypt Js c (nums demo_block) = Ret pt ∧
    encrypt Js c pt = Ret (nums demo_block).
Proof.
  apply (encrypt_after_decrypt Js demo_key demo_rng demo_block); solve_bits.
Defined.

(** X10. On every constructed instance [encrypt] is one-to-one on 8-bit
    blocks: two blocks with the same ciphertext are the same block. *)
Theorem encrypt_injective (d : discipline) (k : list Z) (g : rng)
    (v1 v2 : list Z) :
  bitvec 10 k → bitvec 8 v1 → bitvec 8 v2 →
  ∃ c,
    (SDES_new d (nums k) g).1 = Ret c ∧
    (encrypt d c (nums v1) = encrypt d c (nums v2) → v1 = v2).
Proof.
  intros Hk Hv1 Hv2.
  destruct (SDES_new_state d k g) as (T & c & Hnew & HT & Hc & EI & EV & _);
    [apply Hk|].
  exists c. split; [done|]. clear Hnew.
  rewrite !(encrypt_nums d T k c) by done. intros [= Heq].
  apply nums_inj in Heq.
  rewrite <- (spec_decrypt_encrypt T k HT Hk v1), Heq by done.
  by apply spec_decrypt_encrypt.
Qed.

Lemma encrypt_injective_witness :
  ∃ c,
    (SDES_new Js (nums demo_key) demo_rng).1 = Ret c ∧
    (encrypt Js c (nums demo_block) = encrypt Js c (nums [0; 0; 0; 0; 1; 1; 1; 1])
     → demo_block = [0; 0; 0; 0; 1; 1; 1; 1]).
Proof.
  apply (encrypt_injective Js demo_key demo_rng demo_block
           [0; 0; 0; 0; 1; 1; 1; 1]); solve_bits.
Defined.

(** ** Blocks of the wrong length *)

Lemma reads_as_fit8 v : reads_as (nums v) (fit8 v).
Proof.
  intros i z Hz. unfold fit8 in Hz. apply lookup_take_Some in Hz as [Hz _].
  destruct (decide (i < length v)%nat) as [Hi|Hi].
  - rewrite lookup_app_l in Hz by done. left.
    apply at_lookup. unfold nums. by rewrite list_lookup_fmap, Hz.
  - rewrite lookup_app_r in Hz by lia.
    apply lookup_replicate in Hz as [-> _]. right. split; [|done].
    unfold at_. by rewrite lookup_ge_None_2 by (rewrite length_nums; lia).
Qed.

Lemma fit8_bitvec v : Forall is_bit v → bitvec 8 (fit8 v).
Proof.
  intros Hv. split.
  - unfold fit8. rewrite length_take, length_app, length_replicate. lia.
  - apply Forall_take, Forall_app. split; [done|].
    apply Forall_replicate. by left.
Qed.

Lemma Forall2_loose_reads_as a b : Forall2 loose a b → reads_as a b.
Proof.
  intros H i z Hz.
  destruct (Forall2_lookup_r _ _ _ _ _ H Hz) as (x & Hx & Hl).
  by rewrite (at_lookup a i x Hx).
Qed.

Lemma Forall2_loose_nums b : Forall2 loose (nums b) b.
Proof. induction b as [|z b IH]; constructor; [by left|done]. Qed.

Lemma reads_as_slice a b s e :
  reads_as a b → reads_as (slice a s e) (slice b s e).
Proof.
  intros H i z Hz. unfold slice in *.
  apply lookup_take_Some in Hz as [Hz Hi]. rewrite lookup_drop in Hz.
  specialize (H _ _ Hz). unfold at_ in *.
  by rewrite lookup_take_lt, lookup_drop.
Qed.

(** In JavaScript a permutation of an array that reads as [b] reads as the
    permutation of [b]. *)
Lemma permute_Js_reads a b t :
  reads_as a b → Forall (λ x, 1 ≤ x ≤ Z.of_nat (length b)) t →
  ∃ w, permute Js a (nums t) = Ret w ∧ Forall2 loose w (spec_permute b t).
Proof.
  intros Hab Ht.
  exists ((λ x : jsval, at_ a (Z.to_nat (int_of x - 1))) <$> nums t). split.
  - unfold permute, array_map. apply map_from_ret. intros k x Hx.
    unfold nums in Hx. rewrite list_lookup_fmap in Hx.
    destruct (t !! k) as [z|] eqn:Hz; simplify_eq/=.
    pose proof (proj1 (Forall_lookup _ _) Ht k z Hz) as Hzr. simpl in Hzr.
    rewrite fetch_Js. change (js_sub (I z) (I 1)) with (I (z - 1)).
    unfold as_index, I. by rewrite decide_True by lia.
  - unfold nums, spec_permute. rewrite <- list_fmap_compose.
    apply Forall2_fmap, Forall_Forall2_diag.
    eapply List.Forall_impl; [|exact Ht]. intros z Hz. simpl in *.
    destruct (lookup_lt_is_Some_2 b (Z.to_nat (z - 1))) as [y Hy]; [lia|].
    rewrite (nth_lookup_Z _ _ _ Hy). by apply Hab.
Qed.

Lemma js_xor_loose x z y :
  loose x z → is_bit z → is_bit y → js_xor x (I y) = I (Z.lxor z y).
Proof.
  intros [-> | [-> ->]] Hz Hy; [by apply js_xor_bits|].
  by destruct Hy as [-> | ->].
Qed.

Lemma xor_Js_loose_from a b k :
  Forall2 loose a b → Forall is_bit b → Forall is_bit k →
  ∀ i, (i + length a ≤ length k)%nat →
  map_from (λ bit i, b' ← fetch Js (nums k) (I (Z.of_nat i)); Ret (js_xor bit b'))
    i a
  = Ret (nums (zip_with Z.lxor b (drop i k))).
Proof.
  intros Hab Hb Hk.
  induction Hab as [|x z a b Hx Hab IH]; intros i Hlen; simpl in *; [done|].
  apply Forall_cons_1 in Hb as [Hz Hb].
  destruct (lookup_lt_is_Some_2 k i) as [y Hy]; [lia|].
  rewrite (fetch_nums Js k i y Hy), bind_Ret, bind_Ret.
  rewrite IH by (done || lia). simpl.
  rewrite (drop_S k y i Hy). simpl.
  rewrite (js_xor_loose x z y); [done..|].
  rewrite Forall_lookup in Hk. eauto.
Qed.

Lemma xor_Js_loose a b k :
  Forall2 loose a b → Forall is_bit b → Forall is_bit k →
  length b = length k →
  xor Js a (nums k) = Ret (nums (spec_xor b k)).
Proof.
  intros Hab Hb Hk Hlen. unfold xor, array_map.
  rewrite (xor_Js_loose_from a b k); [done..|].
  rewrite (Forall2_length Hab). lia.
Qed.

Section LooseRound.

Variables (c : SDES) (p4 : list Z) (b1 b2 : list (list Z)).
Hypothesis HP4 : P4 c = nums p4.
Hypothesis HB1 : BOX_1 c = rows b1.
Hypothesis HB2 : BOX_2 c = rows b2.
Hypothesis Hp4 : table 4 4 p4.
Hypothesis Hb1 : sbox4 b1.
Hypothesis Hb2 : sbox4 b2.

(** The round on halves that read as bits: [undefined] counts as 0 in the
    new left half and stays [undefined] in the right half. *)
Lemma round_Js_loose l r lb rb sk :
  Forall2 loose l lb → Forall2 loose r rb →
  bitvec 4 lb → bitvec 4 rb → bitvec 8 sk →
  round Js c l r (nums sk) = Ret (nums (spec_new_left p4 b1 b2 lb rb sk), r).
Proof.
  intros Hl Hr Hlb Hrb Hsk.
  pose proof (spec_expand_bitvec rb Hrb) as He.
  pose proof (spec_xor_bitvec 8 _ _ He Hsk) as Hx.
  pose proof (spec_sbox_bitvec b1 b2 _ Hb1 Hb2 Hx) as Hs.
  pose proof (spec_mask_bitvec p4 b1 b2 Hp4 Hb1 Hb2 rb sk Hrb Hsk) as Hm.
  unfold round, expandAndPermute.
  change [I 4; I 1; I 2; I 3; I 2; I 3; I 4; I 1]
    with (nums [4; 1; 2; 3; 2; 3; 4; 1]).
  destruct (permute_Js_reads r rb [4; 1; 2; 3; 2; 3; 4; 1]) as (e & -> & Hel).
  { by apply Forall2_loose_reads_as. }
  { destruct Hrb as [-> _]. repeat constructor; lia. }
  rewrite bind_Ret. fold (spec_expand rb) in Hel.
  rewrite (xor_Js_loose e (spec_expand rb) sk), bind_Ret;
    [|done|apply He|apply Hsk|destruct He as [-> _], Hsk as [-> _]; done].
  rewrite (sBox_nums Js c b1 b2), bind_Ret by done.
  rewrite p4Permutation_permute.
  2: { rewrite HP4, !length_nums. destruct Hs as [-> _], Hp4 as [-> _]. done. }
  rewrite HP4, permute_nums, bind_Ret.
  2: { destruct Hs as [-> _]. apply Hp4. }
  rewrite (xor_Js_loose l lb), bind_Ret;
    [done|done|apply Hlb|apply Hm|destruct Hlb as [-> _], Hm as [-> _]; done].
Qed.

End LooseRound.

Lemma Forall2_loose_slice a b s e :
  Forall2 loose a b → Forall2 loose (slice a s e) (slice b s e).
Proof. intros H. unfold slice. by apply Forall2_take, Forall2_drop. Qed.

Section LooseBlock.

Variables (T : params) (k : list Z) (c : SDES).
Hypothesis HT : in_range T.
Hypothesis Hk : bitvec 10 k.
Hypothesis Hc : state Js T k c.

Lemma two_rounds_Js_loose ka kb w b :
  bitvec 8 ka → bitvec 8 kb → bitvec 8 b → Forall2 loose w b →
  (halves ← round Js c (slice w 0 4) (slice w 4 8) (nums ka);
   halves' ← round Js c halves.2 halves.1 (nums kb);
   permute Js (halves'.1 ++ halves'.2) (IPInverse c))
  = Ret (nums (spec_permute (feistel T ka kb b) (tIPInverse T))).
Proof.
  intros Ha Hb Hv Hw.
  destruct Hc as (_ & _ & EI & _ & _ & E4 & E1 & E2 & _).
  destruct HT as (_ & HI & _ & _ & H4 & Hb1 & Hb2).
  assert (bitvec 4 (slice b 0 4)) as Hl.
  { unfold slice. apply (bitvec_take 8); [|lia]. by rewrite drop_0. }
  assert (bitvec 4 (slice b 4 8)) as Hr.
  { unfold slice. apply (bitvec_take 4); [|lia]. by apply (bitvec_drop 8 4). }
  pose proof (spec_new_left_bitvec _ _ _ H4 Hb1 Hb2 _ _ _ Hl Hr Ha) as Hl'.
  rewrite (round_Js_loose c _ _ _ E4 E1 E2 H4 Hb1 Hb2 _ _ (slice b 0 4) (slice b 4 8)),
    bind_Ret by (done || by apply Forall2_loose_slice).
  cbn [fst snd].
  rewrite (round_Js_loose c _ _ _ E4 E1 E2 H4 Hb1 Hb2 _ _ (slice b 4 8)
             (spec_new_left (tP4 T) (tBOX_1 T) (tBOX_2 T)
                (slice b 0 4) (slice b 4 8) ka)),
    bind_Ret
    by (done || (by apply Forall2_loose_slice) || apply Forall2_loose_nums).
  cbn [fst snd]. rewrite <- nums_app, EI.
  rewrite permute_nums; [done|].
  destruct (feistel_bitvec T HT ka kb b Ha Hb Hv) as [Hlen _].
  unfold feistel in Hlen. rewrite Hlen. apply HI.
Qed.

(** In JavaScript, [encrypt] and [decrypt] of any array that reads as the
    8-bit block [b] are those of [b]. *)
Lemma encrypt_Js_reads a b :
  reads_as a b → bitvec 8 b →
  encrypt Js c a = Ret (nums (spec_encrypt T k b)) ∧
  decrypt Js c a = Ret (nums (spec_decrypt T k b)).
Proof.
  intros Hab Hb.
  destruct (spec_subkeys_bitvec k (tP10 T) (tP8 T)) as [H1 H2];
    [done|apply HT..|].
  assert (bitvec 8 (spec_permute b (tIP T))) as Hd.
  { apply spec_permute_table_bitvec; [done|apply HT]. }
  destruct (permute_Js_reads a b (tIP T) Hab) as (w & Ew & Hw).
  { destruct Hb as [-> _]. apply HT. }
  unfold encrypt, decrypt. rewrite (state_subKeys Js T k c HT Hk Hc).
  cbn [key1 key2].
  destruct Hc as (_ & EI & _). rewrite EI, Ew, !bind_Ret.
  split; by apply two_rounds_Js_loose.
Qed.

End LooseBlock.

Lemma spec_permute_identity8_take v :
  (8 ≤ length v)%nat → spec_permute v identity8 = take 8 v.
Proof.
  intros Hlen.
  destruct v as [|x0 [|x1 [|x2 [|x3 [|x4 [|x5 [|x6 [|x7 v]]]]]]]];
    simpl in Hlen; try lia.
  done.
Qed.

(** X11. On every constructed instance, [encrypt] and [decrypt] look at the
    first eight elements of a block only: a block of more than eight numbers
    is processed as its first eight, under both reading disciplines. *)
Theorem long_block_truncated (d : discipline) (k : list Z) (g : rng)
    (v : list Z) :
  bitvec 10 k → (8 ≤ length v)%nat →
  ∃ c,
    (SDES_new d (nums k) g).1 = Ret c ∧
    encrypt d c (nums v) = encrypt d c (nums (take 8 v)) ∧
    decrypt d c (nums v) = decrypt d c (nums (take 8 v)).
Proof.
  intros Hk Hv.
  destruct (SDES_new_state d k g) as (T & c & Hnew & HT & Hc & EI & EV & _);
    [apply Hk|].
  exists c. split; [done|]. clear Hnew.
  destruct Hc as (_ & HI & _). rewrite EI in HI.
  assert (permute d (nums v) (IP c) = permute d (nums (take 8 v)) (IP c)) as Hp.
  { rewrite HI, !permute_nums.
    - rewrite spec_permute_identity8_take by done.
      rewrite spec_permute_identity8; [done|]. rewrite length_take. lia.
    - eapply List.Forall_impl; [|apply identity8_table].
      intros x Hx. simpl in Hx. rewrite length_take. lia.
    - eapply List.Forall_impl; [|apply identity8_table].
      intros x Hx. simpl in Hx. lia. }
  unfold encrypt, decrypt. by rewrite Hp.
Qed.

Lemma long_block_truncated_witness :
  ∃ c,
    (SDES_new Js (nums demo_key) demo_rng).1 = Ret c ∧
    encrypt Js c (nums (demo_block ++ [1; 1; 0]))
    = encrypt Js c (nums (take 8 (demo_block ++ [1; 1; 0]))) ∧
    decrypt Js c (nums (demo_block ++ [1; 1; 0]))
    = decrypt Js c (nums (take 8 (demo_block ++ [1; 1; 0]))).
Proof.
  apply (long_block_truncated Js demo_key demo_rng (demo_block ++ [1; 1; 0])).
  - solve_bits.
  - simpl. lia.
Defined.

(** X12. Read with checks, a block of fewer than eight numbers makes
    [encrypt] and [decrypt] of every constructed instance read past the end
    of the block in their initial permutation. *)
Theorem short_block_reads_past_end (k : list Z) (g : rng) (v : list Z) :
  bitvec 10 k → (length v < 8)%nat →
  ∃ c,
    (SDES_new Checked (nums k) g).1 = Ret c ∧
    encrypt Checked c (nums v) = Throw BadRead ∧
    decrypt Checked c (nums v) = Throw BadRead.
Proof.
  intros Hk Hv.
  destruct (SDES_new_state Checked k g)
    as (T & c & Hnew & HT & Hc & EI & EV & _); [apply Hk|].
  exists c. split; [done|]. clear Hnew.
  destruct Hc as (_ & HI & _). rewrite EI in HI.
  assert (permute Checked (nums v) (IP c) = Throw BadRead) as Hp.
  { rewrite HI. apply permute_Checked_outside. intros H.
    rewrite Forall_lookup in H. specialize (H 7%nat 8 eq_refl). simpl in H. lia. }
  unfold encrypt, decrypt. by rewrite Hp.
Qed.

Lemma short_block_reads_past_end_witness :
  ∃ c,
    (SDES_new Checked (nums demo_key) demo_rng).1 = Ret c ∧
    encrypt Checked c (nums [1; 0; 1]) = Throw BadRead ∧
    decrypt Checked c (nums [1; 0; 1]) = Throw BadRead.
Proof.
  apply (short_block_reads_past_end demo_key demo_rng [1; 0; 1]).
  - solve_bits.
  - simpl. lia.
Defined.

(** X13. In JavaScript itself nothing fails on a block of the wrong length:
    on every constructed instance, [encrypt] and [decrypt] of an array of
    bits of any length return what they return on that array cut, or filled
    with zeros on the right, to eight bits. *)
Theorem short_block_zero_filled (k : list Z) (g : rng) (v : list Z) :
  bitvec 10 k → Forall is_bit v →
  ∃ c,
    (SDES_new Js (nums k) g).1 = Ret c ∧
    encrypt Js c (nums v) = encrypt Js c (nums (take 8 (v ++ replicate 8 0))) ∧
    decrypt Js c (nums v) = decrypt Js c (nums (take 8 (v ++ replicate 8 0))).
Proof.
  intros Hk Hv.
  destruct (SDES_new_state Js k g) as (T & c & Hnew & HT & Hc & _);
    [apply Hk|].
  exists c. split; [done|]. clear Hnew.
  pose proof (fit8_bitvec v Hv) as Hb.
  destruct (encrypt_Js_reads T k c HT Hk Hc (nums v) (fit8 v)
              (reads_as_fit8 v) Hb) as [He Hd].
  fold (fit8 v).
  by rewrite He, Hd, (encrypt_nums Js T k c), (decrypt_nums Js T k c).
Qed.

Lemma short_block_zero_filled_witness :
  ∃ c,
    (SDES_new Js (nums demo_key) demo_rng).1 = Ret c ∧
    encrypt Js c (nums [1; 0; 1])
    = encrypt Js c (nums (take 8 ([1; 0; 1] ++ replicate 8 0))) ∧
    decrypt Js c (nums [1; 0; 1])
    = decrypt Js c (nums (take 8 ([1; 0; 1] ++ replicate 8 0))).
Proof.
  apply (short_block_zero_filled demo_key demo_rng [1; 0; 1]); solve_bits.
Defined.

(** ** Text as a substitution of bytes *)

Section TextBytes.

Variables (d : discipline) (T : params) (k : list Z) (c : SDES).
Hypothesis HT : in_range T.
Hypothesis Hk : bitvec 10 k.
Hypothesis Hc : state d T k c.

Lemma byte_blocks s : Forall (bitvec 8) (byte_bits <$> s).
Proof. apply Forall_fmap, Forall_true. intros ch. apply byte_bits_bitvec. Qed.

Lemma encryptText_bytes s :
  Forall (λ ch, 0 ≤ ch ≤ 255) s →
  encryptText d c s
  = Ret ((λ ch, byte_char (spec_encrypt T k (byte_bits ch))) <$> s).
Proof.
  intros Hs. unfold encryptText. rewrite stringToBinary_bytes by done.
  rewrite (each_block_blocks _ (spec_encrypt T k)), bind_Ret;
    [|apply byte_blocks|by apply (encrypt_nums d T k c)].
  rewrite app_nil_l, binaryToString_blocks.
  - by rewrite <- !list_fmap_compose.
  - apply Forall_fmap. eapply List.Forall_impl; [|apply byte_blocks].
    intros b Hb. by apply spec_encrypt_bitvec.
Qed.

Lemma decryptText_bytes s :
  Forall (λ ch, 0 ≤ ch ≤ 255) s →
  decryptText d c s
  = Ret ((λ ch, byte_char (spec_decrypt T k (byte_bits ch))) <$> s).
Proof.
  intros Hs. unfold decryptText. rewrite stringToBinary_bytes by done.
  rewrite (each_block_blocks _ (spec_decrypt T k)), bind_Ret;
    [|apply byte_blocks|by apply (decrypt_nums d T k c)].
  rewrite app_nil_l, binaryToString_blocks.
  - by rewrite <- !list_fmap_compose.
  - apply Forall_fmap. eapply List.Forall_impl; [|apply byte_blocks].
    intros b Hb. by apply spec_decrypt_bitvec.
Qed.

Lemma substitution_range ch :
  0 ≤ byte_char (spec_encrypt T k (byte_bits ch)) ≤ 255 ∧
  0 ≤ byte_char (spec_decrypt T k (byte_bits ch)) ≤ 255.
Proof.
  split; apply byte_char_range.
  - apply spec_encrypt_bitvec; [done..|apply byte_bits_bitvec].
  - apply spec_decrypt_bitvec; [done..|apply byte_bits_bitvec].
Qed.

End TextBytes.

(** X14. On a constructed instance, [encryptText] is a substitution of
    bytes: there is one map of 0..255 into 0..255, one-to-one, that it
    applies to each code unit of a byte string on its own.  Equal characters
    therefore encrypt to equal characters wherever they stand, and the
    ciphertext has the length of the plaintext. *)
Theorem encryptText_substitution (d : discipline) (k : list Z) (g : rng) :
  bitvec 10 k →
  ∃ c (f : Z → Z),
    (SDES_new d (nums k) g).1 = Ret c ∧
    (∀ ch, 0 ≤ ch ≤ 255 → 0 ≤ f ch ≤ 255) ∧
    (∀ a b, 0 ≤ a ≤ 255 → 0 ≤ b ≤ 255 → f a = f b → a = b) ∧
    (∀ s, Forall (λ ch, 0 ≤ ch ≤ 255) s → encryptText d c s = Ret (f <$> s)).
Proof.
  intros Hk.
  destruct (SDES_new_state d k g) as (T & c & Hnew & HT & Hc & EI & EV & _);
    [apply Hk|].
  exists c, (λ ch, byte_char (spec_encrypt T k (byte_bits ch))).
  split; [done|]. clear Hnew. split; [|split].
  - intros ch _. exact (proj1 (substitution_range T k HT Hk ch)).
  - intros a b Ha Hb Heq.
    apply (f_equal byte_bits) in Heq.
    rewrite !byte_bits_char in Heq
      by (apply spec_encrypt_bitvec; [done..|apply byte_bits_bitvec]).
    apply (f_equal (spec_decrypt T k)) in Heq.
    rewrite !spec_decrypt_encrypt in Heq by (done || apply byte_bits_bitvec).
    apply (f_equal byte_char) in Heq. by rewrite !byte_char_bits in Heq.
  - intros s Hs. by apply (encryptText_bytes d T k c).
Qed.

Lemma encryptText_substitution_witness :
  ∃ c (f : Z → Z),
    (SDES_new Js (nums demo_key) demo_rng).1 = Ret c ∧
    (∀ ch, 0 ≤ ch ≤ 255 → 0 ≤ f ch ≤ 255) ∧
    (∀ a b, 0 ≤ a ≤ 255 → 0 ≤ b ≤ 255 → f a = f b → a = b) ∧
    (∀ s, Forall (λ ch, 0 ≤ ch ≤ 255) s → encryptText Js c s = Ret (f <$> s)).
Proof.
  apply (encryptText_substitution Js demo_key demo_rng). solve_bits.
Defined.

(** X15. The text round trip also holds the other way: on a constructed
    instance, [encryptText] of what [decryptText] returned for a byte string
    is that string. *)
Theorem encryptText_after_decryptText (d : discipline) (k : list Z) (g : rng)
    (s : list Z) :
  bitvec 10 k → Forall (λ ch, 0 ≤ ch ≤ 255) s →
  ∃ c pt,
    (SDES_new d (nums k) g).1 = Ret c ∧
    decryptText d c s = Ret pt ∧
    encryptText d c pt = Ret s.
Proof.
  intros Hk Hs.
  destruct (SDES_new_state d k g) as (T & c & Hnew & HT & Hc & EI & EV & _);
    [apply Hk|].
  eexists c, _. split; [done|]. clear Hnew. split.
  - by apply (decryptText_bytes d T k c).
  - rewrite (encryptText_bytes d T k c); [|done..|].
    2: { apply Forall_fmap, Forall_true. intros ch.
         exact (proj2 (substitution_range T k HT Hk ch)). }
    f_equal. rewrite <- list_fmap_compose.
    rewrite <- (list_fmap_id s) at 2.
    apply Forall_fmap_ext_1. eapply List.Forall_impl; [|exact Hs].
    intros ch Hch. cbv beta. unfold compose.
    rewrite byte_bits_char
      by (apply spec_decrypt_bitvec; [done..|apply byte_bits_bitvec]).
    rewrite spec_encrypt_decrypt by (done || apply byte_bits_bitvec).
    by apply byte_char_bits.
Qed.

Lemma encryptText_after_decryptText_witness :
  ∃ c pt,
    (SDES_new Js (nums demo_key) demo_rng).1 = Ret c ∧
    decryptText Js c (lit "vixeven@UTM") = Ret pt ∧
    encryptText Js c pt = Ret (lit "vixeven@UTM").
Proof.
  apply (encryptText_after_decryptText Js demo_key demo_rng (lit "vixeven@UTM")).
  - solve_bits.
  - refine (bool_decide_eq_true_1 _ _). vm_compute. reflexivity.
Defined.

(** ** The byte codec *)

(** X16. [binaryToString] undoes [stringToBinary] on every string of code
    units in 0..255, and the bit array in between holds eight bits per code
    unit. *)
Theorem binaryToString_stringToBinary (s : list Z) :
  Forall (λ ch, 0 ≤ ch ≤ 255) s →
  binaryToString (stringToBinary s) = s ∧
  length (stringToBinary s) = (8 * length s)%nat.
Proof.
  intros Hs. rewrite stringToBinary_bytes by done.
  assert (Forall (bitvec 8) (byte_bits <$> s)) as Hbs.
  { apply Forall_fmap, Forall_true. intros ch. apply byte_bits_bitvec. }
  split.
  - rewrite binaryToString_blocks by done.
    rewrite <- list_fmap_compose. rewrite <- (list_fmap_id s) at 2.
    apply Forall_fmap_ext_1. eapply List.Forall_impl; [|exact Hs].
    intros ch Hch. unfold compose. by apply byte_char_bits.
  - by rewrite length_nums, length_concat_blocks, length_fmap.
Qed.

Lemma binaryToString_stringToBinary_witness :
  binaryToString (stringToBinary (lit "vixeven@UTM")) = lit "vixeven@UTM" ∧
  length (stringToBinary (lit "vixeven@UTM"))
  = (8 * length (lit "vixeven@UTM"))%nat.
Proof.
  apply (binaryToString_stringToBinary (lit "vixeven@UTM")).
  refine (bool_decide_eq_true_1 _ _). vm_compute. reflexivity.
Defined.

(** A bit array whose length is a multiple of eight is a sequence of 8-bit
    groups. *)
Lemma bits_in_blocks m :
  ∀ v, Forall is_bit v → length v = (8 * m)%nat →
       ∃ bs, v = concat bs ∧ Forall (bitvec 8) bs.
Proof.
  induction m as [|m IH]; intros v Hv Hlen.
  - exists []. split; [|done]. destruct v; [done|simpl in Hlen; lia].
  - destruct (IH (drop 8 v)) as (bs & Ebs & Hbs).
    + by apply Forall_drop.
    + rewrite length_drop. lia.
    + exists (take 8 v :: bs). split.
      * simpl. by rewrite <- Ebs, take_drop.
      * constructor; [|done]. split; [rewrite length_take; lia|].
        by apply Forall_take.
Qed.

(** X17. [stringToBinary] undoes [binaryToString] on every array of bits
    whose length is a multiple of eight. *)
Theorem stringToBinary_binaryToString (v : list Z) (m : nat) :
  Forall is_bit v → length v = (8 * m)%nat →
  stringToBinary (binaryToString (nums v)) = nums v.
Proof.
  intros Hv Hlen.
  destruct (bits_in_blocks m v Hv Hlen) as (bs & -> & Hbs).
  rewrite binaryToString_blocks by done.
  rewrite stringToBinary_bytes.
  - f_equal. f_equal. rewrite <- list_fmap_compose.
    rewrite <- (list_fmap_id bs) at 2.
    apply Forall_fmap_ext_1. eapply List.Forall_impl; [|exact Hbs].
    intros b Hb. unfold compose. by apply byte_bits_char.
  - apply Forall_fmap. eapply List.Forall_impl; [|exact Hbs].
    intros b Hb. by apply byte_char_range.
Qed.

Lemma stringToBinary_binaryToString_witness :
  stringToBinary (binaryToString (nums (demo_block ++ demo_block)))
  = nums (demo_block ++ demo_block).
Proof.
  apply (stringToBinary_binaryToString (demo_block ++ demo_block) 2);
    solve_bits.
Defined.

Lemma byte_loop_length (s : list Z) cs out :
  length (fold_left
            (λ output i,
               output ++ [fromCharCode (parseInt2 (slice s i (i + 8)))])
            cs out)
  = (length out + length cs)%nat.
Proof.
  revert out. induction cs as [|i cs IH]; intros out; simpl; [lia|].
  rewrite IH, length_app. simpl. lia.
Qed.

Lemma length_steps8 n : length (steps8 n) = ((n + 7) / 8)%nat.
Proof. unfold steps8. by rewrite length_fmap, length_seq. Qed.

Lemma binaryToString_bits_length v :
  Forall is_bit v →
  length (binaryToString (nums v)) = ((length v + 7) / 8)%nat.
Proof.
  intros Hv. unfold binaryToString.
  by rewrite byte_loop_length, length_join_bits, length_steps8.
Qed.

(** X18. [binaryToString] makes one code unit of every started group of
    eight bits: an array of [n] bits gives [ceil(n / 8)] code units, so a
    partial last group still yields a character. *)
Theorem binaryToString_length (v : list Z) :
  Forall is_bit v →
  length (binaryToString (nums v)) = ((length v + 7) / 8)%nat.
Proof. apply binaryToString_bits_length. Qed.

Lemma binaryToString_length_witness :
  length (binaryToString (nums [1; 0; 1; 1; 0; 1; 0; 1; 1; 1]))
  = ((length [1; 0; 1; 1; 0; 1; 0; 1; 1; 1] + 7) / 8)%nat.
Proof.
  apply (binaryToString_length [1; 0; 1; 1; 0; 1; 0; 1; 1; 1]). solve_bits.
Defined.

(** ** Code units beyond one byte *)

Lemma binary_digits_bits p :
  parseInt_chr <$> binary_digits p = nums (bit_digits p) ∧
  length (binary_digits p) = length (bit_digits p) ∧
  Forall is_bit (bit_digits p).
Proof.
  induction p as [p (IH1 & IH2 & IH3)|p (IH1 & IH2 & IH3)|]; simpl.
  - rewrite fmap_app, IH1, nums_app, !length_app, IH2.
    split; [done|]. split; [done|].
    apply Forall_app. split; [done|]. solve_bits.
  - rewrite fmap_app, IH1, nums_app, !length_app, IH2.
    split; [done|]. split; [done|].
    apply Forall_app. split; [done|]. solve_bits.
  - split; [done|]. split; [done|]. solve_bits.
Qed.

(** A positive number lies between the powers of two its digit count
    names. *)
Lemma bit_digits_bounds p :
  2 ^ (Z.of_nat (length (bit_digits p)) - 1) ≤ Z.pos p
  < 2 ^ Z.of_nat (length (bit_digits p)).
Proof.
  induction p as [p IH|p IH|]; simpl bit_digits.
  - rewrite length_app. simpl length.
    assert (0 < Z.of_nat (length (bit_digits p))) as Hpos
      by (destruct p; simpl; rewrite ?length_app; simpl; lia).
    replace (Z.of_nat (length (bit_digits p) + 1) - 1)
      with (Z.succ (Z.of_nat (length (bit_digits p)) - 1)) by lia.
    replace (Z.of_nat (length (bit_digits p) + 1))
      with (Z.succ (Z.of_nat (length (bit_digits p)))) by lia.
    rewrite !Z.pow_succ_r by lia. lia.
  - rewrite length_app. simpl length.
    assert (0 < Z.of_nat (length (bit_digits p))) as Hpos
      by (destruct p; simpl; rewrite ?length_app; simpl; lia).
    replace (Z.of_nat (length (bit_digits p) + 1) - 1)
      with (Z.succ (Z.of_nat (length (bit_digits p)) - 1)) by lia.
    replace (Z.of_nat (length (bit_digits p) + 1))
      with (Z.succ (Z.of_nat (length (bit_digits p)))) by lia.
    rewrite !Z.pow_succ_r by lia. lia.
  - simpl. lia.
Qed.

(** The bits [stringToBinary] makes of one code unit: at least eight, and
    more than eight exactly when the unit does not fit a byte. *)
Lemma code_unit_bits ch :
  0 ≤ ch →
  ∃ b, parseInt_chr <$> padStart0 8 (toString2 (Int ch)) = nums b ∧
       Forall is_bit b ∧ (8 ≤ length b)%nat ∧
       (256 ≤ ch → 2 ^ (Z.of_nat (length b) - 1) ≤ ch < 2 ^ Z.of_nat (length b)).
Proof.
  intros Hch. destruct ch as [|p|p]; [| |lia].
  - exists [0; 0; 0; 0; 0; 0; 0; 0]. split; [done|]. split; [solve_bits|].
    split; [simpl; lia|]. intros ?. lia.
  - destruct (binary_digits_bits p) as (E & Hlen & Hb).
    exists (replicate (8 - length (bit_digits p)) 0 ++ bit_digits p).
    split; [|split; [|split]].
    + unfold padStart0, toString2. rewrite fmap_app, E, fmap_replicate, Hlen.
      rewrite nums_app. unfold nums at 2. by rewrite fmap_replicate.
    + apply Forall_app. split; [|done]. apply Forall_replicate. by left.
    + rewrite length_app, length_replicate. lia.
    + intros Hwide. pose proof (bit_digits_bounds p) as Hb2.
      assert (8 < length (bit_digits p))%nat as Hlong.
      { destruct (decide (8 < length (bit_digits p))%nat) as [|Hshort]; [done|].
        assert (2 ^ Z.of_nat (length (bit_digits p)) ≤ 2 ^ 8)
          by (apply Z.pow_le_mono_r; lia).
        lia. }
      rewrite length_app, length_replicate.
      by replace (8 - length (bit_digits p) + length (bit_digits p))%nat
        with (length (bit_digits p)) by lia.
Qed.

Lemma stringToBinary_bits s :
  Forall (λ ch, 0 ≤ ch) s →
  ∃ b, stringToBinary s = nums b ∧ Forall is_bit b ∧
       (8 * length s ≤ length b)%nat.
Proof.
  unfold stringToBinary. induction 1 as [|ch s Hch _ (b & E & Hb & Hlen)].
  - by exists [].
  - destruct (code_unit_bits ch Hch) as (b0 & E0 & Hb0 & Hl0 & _).
    exists (b0 ++ b). rewrite !fmap_cons. cbn [concat].
    rewrite fmap_app, E, E0, nums_app. split; [done|]. split.
    + by apply Forall_app.
    + rewrite length_app. simpl. lia.
Qed.

Lemma wide_code_unit_bits ch :
  256 ≤ ch ≤ 65535 →
  ∃ b, stringToBinary [ch] = nums b ∧ Forall is_bit b ∧
       (8 < length b ≤ 16)%nat ∧
       2 ^ (Z.of_nat (length b) - 1) ≤ ch < 2 ^ Z.of_nat (length b).
Proof.
  intros Hch.
  destruct (code_unit_bits ch) as (b & E & Hb & _ & Hbounds); [lia|].
  specialize (Hbounds ltac:(lia)).
  exists b. unfold stringToBinary. rewrite !fmap_cons. cbn [fmap list_fmap concat].
  rewrite app_nil_r. split; [done|]. split; [done|]. split; [|done]. split.
  - destruct (decide (8 < length b)%nat) as [|Hshort]; [done|].
    assert (2 ^ Z.of_nat (length b) ≤ 2 ^ 8) by (apply Z.pow_le_mono_r; lia).
    lia.
  - destruct (decide (length b ≤ 16)%nat) as [|Hlong]; [done|].
    assert (2 ^ 16 ≤ 2 ^ (Z.of_nat (length b) - 1))
      by (apply Z.pow_le_mono_r; lia).
    lia.
Qed.

(** X19. A code unit that does not fit a byte is not cut to eight bits:
    [stringToBinary] gives it 9 to 16 bits, and [binaryToString] reads those
    back as two code units, so the codec does not return the character. *)
Theorem wide_code_unit_splits (ch : Z) :
  256 ≤ ch ≤ 65535 →
  (8 < length (stringToBinary [ch]) ≤ 16)%nat ∧
  length (binaryToString (stringToBinary [ch])) = 2%nat ∧
  binaryToString (stringToBinary [ch]) ≠ [ch].
Proof.
  intros Hch. destruct (wide_code_unit_bits ch Hch) as (b & -> & Hb & Hlen & _).
  rewrite length_nums.
  assert (length (binaryToString (nums b)) = 2%nat) as H2.
  { rewrite binaryToString_bits_length by done.
    assert (16 ≤ length b + 7 < 24)%nat as Hr by lia.
    symmetry. apply Nat.div_unique with (r := (length b + 7 - 16)%nat); lia. }
  split; [done|]. split; [done|].
  intros Heq. by rewrite Heq in H2.
Qed.

Lemma wide_code_unit_splits_witness :
  (8 < length (stringToBinary [8364%Z]) ≤ 16)%nat ∧
  length (binaryToString (stringToBinary [8364])) = 2%nat ∧
  binaryToString (stringToBinary [8364]) ≠ [8364].
Proof. apply (wide_code_unit_splits 8364). lia. Defined.

(** ** Text of any code units *)

Lemma slice_bits (b : list Z) s e : Forall is_bit b → Forall is_bit (slice b s e).
Proof. intros H. unfold slice. by apply Forall_take, Forall_drop. Qed.

(** In JavaScript the text loop meets no failure: every group it cuts, full
    or partial, is processed as the group zero-filled to eight bits. *)
Lemma each_block_fit8 f (h : list Z → list Z) bits cs out :
  Forall is_bit bits →
  (∀ x, Forall is_bit x → f (nums x) = Ret (nums (h (fit8 x)))) →
  each_block f (nums bits) cs out
  = Ret (out ++ nums (concat ((λ i, h (fit8 (slice bits i (i + 8)))) <$> cs))).
Proof.
  intros Hb Hf. revert out.
  induction cs as [|i cs IH]; intros out; simpl.
  - by rewrite app_nil_r.
  - rewrite slice_nums, Hf, bind_Ret by (by apply slice_bits).
    by rewrite IH, nums_app, app_assoc.
Qed.

Section TextJs.

Variables (T : params) (k : list Z) (c : SDES).
Hypothesis HT : in_range T.
Hypothesis Hk : bitvec 10 k.
Hypothesis Hc : state Js T k c.

Lemma encrypt_Js_fit8 x :
  Forall is_bit x → encrypt Js c (nums x) = Ret (nums (spec_encrypt T k (fit8 x))).
Proof.
  intros Hx.
  apply (encrypt_Js_reads T k c HT Hk Hc (nums x) (fit8 x));
    [apply reads_as_fit8|by apply fit8_bitvec].
Qed.

Lemma decrypt_Js_fit8 x :
  Forall is_bit x → decrypt Js c (nums x) = Ret (nums (spec_decrypt T k (fit8 x))).
Proof.
  intros Hx.
  apply (encrypt_Js_reads T k c HT Hk Hc (nums x) (fit8 x));
    [apply reads_as_fit8|by apply fit8_bitvec].
Qed.

Lemma encryptText_Js s :
  Forall (λ ch, 0 ≤ ch) s →
  ∃ ct, encryptText Js c s = Ret ct ∧
        Forall (λ ch, 0 ≤ ch ≤ 255) ct ∧
        length ct = ((length (stringToBinary s) + 7) / 8)%nat.
Proof.
  intros Hs. destruct (stringToBinary_bits s Hs) as (b & E & Hb & _).
  unfold encryptText. rewrite E.
  rewrite (each_block_fit8 _ (spec_encrypt T k)), bind_Ret, app_nil_l;
    [|done|apply encrypt_Js_fit8].
  set (blocks := (λ i, spec_encrypt T k (fit8 (slice b i (i + 8))))
                   <$> steps8 (length (nums b))).
  assert (Forall (bitvec 8) blocks) as Hblocks.
  { apply Forall_fmap, Forall_true. intros i.
    apply spec_encrypt_bitvec; [done..|]. by apply fit8_bitvec, slice_bits. }
  eexists. split; [done|]. rewrite binaryToString_blocks by done. split.
  - apply Forall_fmap. eapply List.Forall_impl; [|exact Hblocks].
    intros x Hx. by apply byte_char_range.
  - unfold blocks. by rewrite !length_fmap, length_steps8.
Qed.

Lemma decryptText_Js s :
  Forall (λ ch, 0 ≤ ch) s →
  ∃ pt, decryptText Js c s = Ret pt ∧
        Forall (λ ch, 0 ≤ ch ≤ 255) pt ∧
        length pt = ((length (stringToBinary s) + 7) / 8)%nat.
Proof.
  intros Hs. destruct (stringToBinary_bits s Hs) as (b & E & Hb & _).
  unfold decryptText. rewrite E.
  rewrite (each_block_fit8 _ (spec_decrypt T k)), bind_Ret, app_nil_l;
    [|done|apply decrypt_Js_fit8].
  set (blocks := (λ i, spec_decrypt T k (fit8 (slice b i (i + 8))))
                   <$> steps8 (length (nums b))).
  assert (Forall (bitvec 8) blocks) as Hblocks.
  { apply Forall_fmap, Forall_true. intros i.
    apply spec_decrypt_bitvec; [done..|]. by apply fit8_bitvec, slice_bits. }
  eexists. split; [done|]. rewrite binaryToString_blocks by done. split.
  - apply Forall_fmap. eapply List.Forall_impl; [|exact Hblocks].
    intros x Hx. by apply byte_char_range.
  - unfold blocks. by rewrite !length_fmap, length_steps8.
Qed.

End TextJs.

Lemma ceil8_lower n m : (8 * n ≤ m)%nat → (n ≤ (m + 7) / 8)%nat.
Proof.
  intros H. apply Nat.div_le_lower_bound; lia.
Qed.

(** X20. In JavaScript the text operations have no failure at all: on a
    constructed instance, [encryptText] and [decryptText] return a string of
    bytes for every string of code units, one for each started group of eight
    bits, hence never shorter than the input. *)
Theorem text_operations_total_js (k : list Z) (g : rng) (s : list Z) :
  bitvec 10 k → Forall (λ ch, 0 ≤ ch) s →
  ∃ c ct pt,
    (SDES_new Js (nums k) g).1 = Ret c ∧
    encryptText Js c s = Ret ct ∧ decryptText Js c s = Ret pt ∧
    Forall (λ ch, 0 ≤ ch ≤ 255) ct ∧ Forall (λ ch, 0 ≤ ch ≤ 255) pt ∧
    length ct = ((length (stringToBinary s) + 7) / 8)%nat ∧
    length pt = length ct ∧ (length s ≤ length ct)%nat.
Proof.
  intros Hk Hs.
  destruct (SDES_new_state Js k g) as (T & c & Hnew & HT & Hc & _);
    [apply Hk|].
  destruct (encryptText_Js T k c HT Hk Hc s Hs) as (ct & Ect & Hct & Lct).
  destruct (decryptText_Js T k c HT Hk Hc s Hs) as (pt & Ept & Hpt & Lpt).
  exists c, ct, pt. split; [done|]. clear Hnew.
  repeat (split; [done|]). split; [lia|].
  destruct (stringToBinary_bits s Hs) as (b & E & _ & Hlen).
  rewrite Lct, E, length_nums. by apply ceil8_lower.
Qed.

Lemma text_operations_total_js_witness :
  ∃ c ct pt,
    (SDES_new Js (nums demo_key) demo_rng).1 = Ret c ∧
    encryptText Js c demo_wide_text = Ret ct ∧ decryptText Js c demo_wide_text = Ret pt ∧
    Forall (λ ch, 0 ≤ ch ≤ 255) ct ∧ Forall (λ ch, 0 ≤ ch ≤ 255) pt ∧
    length ct = ((length (stringToBinary demo_wide_text) + 7) / 8)%nat ∧
    length pt = length ct ∧ (length demo_wide_text ≤ length ct)%nat.
Proof.
  apply (text_operations_total_js demo_key demo_rng demo_wide_text).
  - solve_bits.
  - refine (bool_decide_eq_true_1 _ _). vm_compute. reflexivity.
Defined.

(** X21. The text round trip fails on every code unit beyond one byte: on a
    constructed instance, the one-character string of a code unit in
    256..65535 encrypts to two bytes, and decrypting those returns a string
    of two code units, not the string that was encrypted. *)
Theorem wide_text_round_trip_fails (k : list Z) (g : rng) (ch : Z) :
  bitvec 10 k → 256 ≤ ch ≤ 65535 →
  ∃ c ct pt,
    (SDES_new Js (nums k) g).1 = Ret c ∧
    encryptText Js c [ch] = Ret ct ∧ length ct = 2%nat ∧
    decryptText Js c ct = Ret pt ∧ length pt = 2%nat ∧ pt ≠ [ch].
Proof.
  intros Hk Hch.
  destruct (SDES_new_state Js k g) as (T & c & Hnew & HT & Hc & _);
    [apply Hk|].
  destruct (encryptText_Js T k c HT Hk Hc [ch]) as (ct & Ect & Hct & Lct).
  { repeat constructor. lia. }
  destruct (wide_code_unit_bits ch Hch) as (b & Eb & Hb & Hlen & _).
  assert (length ct = 2%nat) as L2.
  { rewrite Lct, Eb, length_nums. symmetry.
    apply Nat.div_unique with (r := (length b + 7 - 16)%nat); lia. }
  exists c, ct, ((λ x, byte_char (spec_decrypt T k (byte_bits x))) <$> ct).
  split; [done|]. clear Hnew. split; [done|]. split; [done|].
  split; [by apply (decryptText_bytes Js T k c)|].
  rewrite length_fmap. split; [done|].
  intros Heq. apply (f_equal length) in Heq. rewrite length_fmap in Heq.
  simpl in Heq. lia.
Qed.

Lemma wide_text_round_trip_fails_witness :
  ∃ c ct pt,
    (SDES_new Js (nums demo_key) demo_rng).1 = Ret c ∧
    encryptText Js c [8364] = Ret ct ∧ length ct = 2%nat ∧
    decryptText Js c ct = Ret pt ∧ length pt = 2%nat ∧ pt ≠ [8364].
Proof.
  apply (wide_text_round_trip_fails demo_key demo_rng 8364).
  - solve_bits.
  - lia.
Defined.

Lemma encrypt_Checked_short c v :
  IP c = nums identity8 → (length v < 8)%nat →
  encrypt Checked c (nums v) = Throw BadRead.
Proof.
  intros HI Hv. unfold encrypt. rewrite HI, permute_Checked_outside; [done|].
  intros H. rewrite Forall_lookup in H. specialize (H 7%nat 8 eq_refl).
  simpl in H. lia.
Qed.

(** X22. Read with checks, encrypting a character whose code unit lies in
    256..32767 reads past the end of a block: its 9 to 15 bits leave a
    partial second group, and [encrypt] reads eight elements of it. *)
Theorem wide_text_reads_past_end (k : list Z) (g : rng) (ch : Z) :
  bitvec 10 k → 256 ≤ ch ≤ 32767 →
  ∃ c,
    (SDES_new Checked (nums k) g).1 = Ret c ∧
    encryptText Checked c [ch] = Throw BadRead.
Proof.
  intros Hk Hch.
  destruct (SDES_new_state Checked k g)
    as (T & c & Hnew & HT & Hc & EI & _); [apply Hk|].
  exists c. split; [done|]. clear Hnew.
  destruct (wide_code_unit_bits ch) as (b & Eb & Hb & Hlen & Hbounds); [lia|].
  assert (length b ≤ 15)%nat as H15.
  { destruct (decide (length b ≤ 15)%nat) as [|Hlong]; [done|].
    assert (2 ^ 15 ≤ 2 ^ (Z.of_nat (length b) - 1))
      by (apply Z.pow_le_mono_r; lia).
    lia. }
  unfold encryptText. rewrite Eb, length_nums. unfold steps8.
  replace ((length b + 7) / 8)%nat with 2%nat.
  2: { apply Nat.div_unique with (r := (length b + 7 - 16)%nat); lia. }
  cbn [seq fmap list_fmap each_block]. rewrite !slice_nums.
  rewrite (encrypt_nums Checked T k c HT Hk Hc (slice b (8 * 0) (8 * 0 + 8))),
    bind_Ret.
  2: { split; [|by apply slice_bits].
       unfold slice. rewrite length_take, length_drop. lia. }
  rewrite encrypt_Checked_short; [done| |].
  - destruct Hc as (_ & HI & _). by rewrite HI, EI.
  - unfold slice. rewrite length_take, length_drop. lia.
Qed.

Lemma wide_text_reads_past_end_witness :
  ∃ c,
    (SDES_new Checked (nums demo_key) demo_rng).1 = Ret c ∧
    encryptText Checked c [8364] = Throw BadRead.
Proof.
  apply (wide_text_reads_past_end demo_key demo_rng 8364).
  - solve_bits.
  - lia.
Defined.

(** ** Construction without validation *)

Lemma permute_Js_total input table :
  ∃ out, permute Js input table = Ret out ∧ length out = length table.
Proof.
  eexists. split.
  - unfold permute, array_map. apply map_from_ret.
    intros i x _. apply fetch_Js.
  - by rewrite length_fmap.
Qed.

(** X23. The constructor validates nothing and, in JavaScript, cannot fail:
    for every array passed as key, of any length and content, and every
    outcome of the random source, it returns an instance that holds that
    array as its key and two subkeys of eight slots each. *)
Theorem constructor_total_js (key0 : list jsval) (g : rng) :
  ∃ c,
    (SDES_new Js key0 g).1 = Ret c ∧ key c = key0 ∧
    length (key1 (subKeys c)) = 8%nat ∧ length (key2 (subKeys c)) = 8%nat.
Proof.
  unfold SDES_new, rand_bind, rand_ret.
  destruct (generatePermutationTable_table 4 g) as (p4 & E4 & H4).
  destruct (generatePermutationTable 4 g) as [t4 g1]. simpl in E4. subst t4.
  destruct (generatePermutationTable_table 8 g1) as (p8 & E8 & H8).
  destruct (generatePermutationTable 8 g1) as [t8 g2]. simpl in E8. subst t8.
  destruct (generatePermutationTable 10 g2) as [t10 g3].
  destruct (generateSBox g3) as [box1 g4].
  destruct (generateSBox g4) as [box2 g5].
  cbn [fst]. unfold generateSubKeys.
  destruct (permute_Js_total key0 t10) as (pk & -> & _). rewrite bind_Ret.
  destruct (permute_Js_total
              (circularLeftShift (slice pk 0 5) 1 ++
               circularLeftShift (slice pk 5 10) 1) (nums p8))
    as (k1 & -> & L1).
  rewrite bind_Ret.
  destruct (permute_Js_total
              (circularLeftShift (circularLeftShift (slice pk 0 5) 1) 2 ++
               circularLeftShift (circularLeftShift (slice pk 5 10) 1) 2)
              (nums p8))
    as (k2 & -> & L2).
  rewrite !bind_Ret. eexists. split; [done|]. cbn.
  rewrite length_nums in L1, L2. destruct H8 as [Hl8 _].
  split; [done|]. by rewrite L1, L2, Hl8.
Qed.

(** * The big-integer routines *)

(** ** Greatest common divisor *)

Lemma gcd_loop (fuel : nat) (a b : Z) :
  (Z.abs_nat b < fuel)%nat →
  ∃ g, RSA.gcd fuel a b = Some g ∧ Z.abs g = Z.gcd a b ∧
       (0 ≤ a → 0 ≤ b → 0 ≤ g).
Proof.
  revert a b. induction fuel as [|fuel IH]; intros a b Hf; [lia|].
  simpl. destruct (decide (b = 0)) as [->|Hb].
  - exists a. by rewrite Z.gcd_0_r.
  - destruct (IH b (Z.rem a b)) as (g & Hg & Habs & Hpos).
    { pose proof (Z.rem_bound_abs a b Hb). lia. }
    exists g. split; [done|]. split.
    + by rewrite Habs, Z.gcd_comm, Z.gcd_rem, Z.gcd_comm.
    + intros Ha Hb'. apply Hpos; [done|]. apply Z.rem_nonneg; lia.
Qed.

(** X24. [gcd] is Euclid's algorithm on truncating remainders: for every
    pair of integers it returns within [|b| + 1] tests of the loop, the
    absolute value of the result is the greatest common divisor, and the
    result itself is not negative when neither argument is. *)
Theorem gcd_computes (fuel : nat) (a b : Z) :
  (Z.abs_nat b < fuel)%nat →
  ∃ g, RSA.gcd fuel a b = Some g ∧ Z.abs g = Z.gcd a b ∧
       (0 ≤ a → 0 ≤ b → g = Z.gcd a b).
Proof.
  intros Hf. destruct (gcd_loop fuel a b Hf) as (g & Hg & Habs & Hpos).
  exists g. split; [done|]. split; [done|].
  intros Ha Hb. specialize (Hpos Ha Hb). lia.
Qed.

Lemma gcd_computes_witness :
  ∃ g, RSA.gcd 9 (-12) 8 = Some g ∧ Z.abs g = Z.gcd (-12) 8 ∧
       (0 ≤ -12 → 0 ≤ 8 → g = Z.gcd (-12) 8).
Proof.
  apply (gcd_computes 9 (-12) 8). simpl. lia.
Defined.

(** ** Modular exponentiation *)

Lemma pow_halve (b e : Z) :
  0 ≤ e → b ^ e = (b * b) ^ (e / 2) * b ^ (e mod 2).
Proof.
  intros He. rewrite <- Z.pow_2_r, <- Z.pow_mul_r, <- Z.pow_add_r.
  - f_equal. apply Z.div_mod. lia.
  - pose proof (Z.div_pos e 2). lia.
  - pose proof (Z.mod_pos_bound e 2). lia.
  - lia.
  - pose proof (Z.div_pos e 2). lia.
Qed.

Lemma modPow_loop_S (fuel : nat) (r b e m : Z) :
  RSA.modPow_loop (S fuel) r b e m =
  if decide (0 < e) then
    RSA.modPow_loop fuel
      (if decide (Z.rem e 2 = 1) then Z.rem (r * b) m else r)
      (Z.rem (b * b) m) (Z.shiftr e 1) m
  else Some r.
Proof. done. Qed.

Lemma modPow_loop_computes (m : Z) (Hm : 0 < m) (fuel : nat) :
  ∀ r b e,
    0 ≤ r → 0 ≤ b → 0 ≤ e → r < m ∨ 0 < e → e < 2 ^ Z.of_nat fuel →
    RSA.modPow_loop (S fuel) r b e m = Some ((r * b ^ e) mod m).
Proof.
  induction fuel as [|fuel IH]; intros r b e Hr Hb He Hre Hf;
    rewrite modPow_loop_S; destruct (decide (0 < e)) as [Hpos|Hzero].
  - simpl in Hf. lia.
  - assert (e = 0) as -> by lia.
    rewrite Z.pow_0_r, Z.mul_1_r, Z.mod_small; [done|lia].
  - assert (Z.shiftr e 1 = e / 2) as -> by by rewrite Z.shiftr_div_pow2.
    rewrite (Z.rem_mod_nonneg e 2), (Z.rem_mod_nonneg (b * b) m)
      by first [lia | nia].
    pose proof (Z.div_mod e 2 ltac:(lia)) as Hdiv.
    pose proof (Z.mod_pos_bound e 2 ltac:(lia)) as Hmod.
    assert (0 ≤ e / 2) as He2 by (apply Z.div_pos; lia).
    assert (e / 2 < 2 ^ Z.of_nat fuel) as Hf'.
    { rewrite Nat2Z.inj_succ, Z.pow_succ_r in Hf by lia.
      apply Z.div_lt_upper_bound; lia. }
    rewrite (pow_halve b e He).
    destruct (decide (e mod 2 = 1)) as [Hodd|Heven].
    + rewrite (Z.rem_mod_nonneg (r * b) m) by first [lia | nia].
      rewrite IH; [|apply Z.mod_pos_bound; lia|apply Z.mod_pos_bound; lia
                   |done|left; apply Z.mod_pos_bound; lia|done].
      f_equal. rewrite Hodd, Z.pow_1_r.
      rewrite Z.mul_mod_idemp_l by lia.
      rewrite <- (Z.mul_mod_idemp_r (r * b) (((b * b) mod m) ^ (e / 2)) m)
        by lia.
      rewrite Z.mod_pow_l, Z.mul_mod_idemp_r by lia.
      f_equal. ring.
    + assert (e mod 2 = 0) as -> by lia.
      rewrite IH; [|done|apply Z.mod_pos_bound; lia|done|right; lia|done].
      f_equal. rewrite Z.pow_0_r, Z.mul_1_r.
      rewrite <- (Z.mul_mod_idemp_r r (((b * b) mod m) ^ (e / 2)) m) by lia.
      by rewrite Z.mod_pow_l, Z.mul_mod_idemp_r by lia.
  - assert (e = 0) as -> by lia.
    rewrite Z.pow_0_r, Z.mul_1_r, Z.mod_small; [done|lia].
Qed.

Lemma modPow_value (fuel : nat) (base exponent modulus : Z) :
  0 ≤ base → 0 ≤ exponent → 0 < modulus → 0 < exponent ∨ 2 ≤ modulus →
  (Z.to_nat (Z.log2 exponent) + 1 < fuel)%nat →
  RSA.modPow fuel base exponent modulus =
  Some (RSA.Value (base ^ exponent mod modulus)).
Proof.
  intros Hb He Hm Hem Hf. unfold RSA.modPow. rewrite decide_False by lia.
  rewrite Z.rem_mod_nonneg by lia.
  destruct fuel as [|fuel]; [lia|].
  rewrite (modPow_loop_computes modulus Hm);
    [|lia|apply Z.mod_pos_bound; lia|done|lia|].
  - simpl. do 2 f_equal. rewrite Z.mul_1_l. by rewrite Z.mod_pow_l.
  - destruct (decide (exponent = 0)) as [->|Hne].
    { apply Z.pow_pos_nonneg; lia. }
    destruct (Z.log2_spec exponent) as [_ Hlt]; [lia|].
    eapply Z.lt_le_trans; [exact Hlt|].
    apply Z.pow_le_mono_r; lia.
Qed.

(** X25. [modPow] is square-and-multiply: for a base and an exponent that
    are not negative and a positive modulus it returns within as many
    rounds as the exponent has binary digits, and the result is
    [base ^ exponent mod modulus], unless the exponent is 0 and the
    modulus is 1: there it returns 1, which is not a residue modulo 1. *)
Theorem modPow_computes (fuel : nat) (base exponent modulus : Z) :
  0 ≤ base → 0 ≤ exponent → 0 < modulus →
  (Z.to_nat (Z.log2 exponent) + 1 < fuel)%nat →
  (0 < exponent ∨ 2 ≤ modulus →
   RSA.modPow fuel base exponent modulus =
   Some (RSA.Value (base ^ exponent mod modulus))) ∧
  RSA.modPow fuel base 0 1 = Some (RSA.Value 1).
Proof.
  intros Hb He Hm Hf. split.
  - intros Hem. by apply modPow_value.
  - destruct fuel as [|fuel]; [lia|]. done.
Qed.

Lemma modPow_computes_witness :
  (0 < 13 ∨ 2 ≤ 77 →
   RSA.modPow 5 9 13 77 = Some (RSA.Value (9 ^ 13 mod 77))) ∧
  RSA.modPow 5 9 0 1 = Some (RSA.Value 1).
Proof.
  apply (modPow_computes 5 9 13 77); [lia|lia|lia|].
  simpl. lia.
Defined.

(** ** Modular inverse *)

Lemma modInverse_loop_inverse (a0 m0 : Z) (Hm0 : 2 ≤ m0) (fuel : nat) :
  ∀ e phi x y,
    0 < e → 0 ≤ phi → Z.gcd e phi = 1 →
    (m0 | e - x * a0) → (m0 | phi - y * a0) →
    e * Z.abs y + phi * Z.abs x = m0 → x * y ≤ 0 → Z.abs x < m0 →
    (Z.to_nat phi < fuel)%nat →
    ∃ x', RSA.modInverse_loop fuel e phi x y = Some (RSA.Value x') ∧
          Z.abs x' < m0 ∧ (m0 | 1 - x' * a0).
Proof.
  induction fuel as [|fuel IH];
    intros e phi x y He Hphi Hgcd Hx Hy Hsum Hsign Hbound Hf; [lia|].
  simpl. destruct (decide (1 < e)) as [Hgt|Hle].
  - destruct (decide (phi = 0)) as [->|Hne].
    { rewrite Z.gcd_0_r in Hgcd. lia. }
    rewrite Z.rem_mod_nonneg, Z.quot_div_nonneg by lia.
    pose proof (Z.mod_pos_bound e phi ltac:(lia)) as Hmod.
    pose proof (Z.div_mod e phi Hne) as Hdiv.
    assert (0 ≤ e / phi) as Hq by (apply Z.div_pos; lia).
    set (q := e / phi) in *. set (r := e mod phi) in *.
    apply IH; [lia|lia| |done| | | | |lia].
    + unfold r. by rewrite Z.gcd_comm, Z.gcd_mod, Z.gcd_comm.
    + replace (r - (x - q * y) * a0)
        with ((e - x * a0) - q * (phi - y * a0)) by lia.
      apply Z.divide_sub_r; [done|]. by apply Z.divide_mul_r.
    + assert ((0 ≤ x ∧ y ≤ 0) ∨ (x ≤ 0 ∧ 0 ≤ y)) as [[Hx0 Hy0]|[Hx0 Hy0]]
        by nia.
      * assert (0 ≤ x - q * y) by nia.
        rewrite (Z.abs_eq (x - q * y)) by done.
        rewrite (Z.abs_neq y) in * by done.
        rewrite (Z.abs_eq x) in * by done. nia.
      * assert (x - q * y ≤ 0) by nia.
        rewrite (Z.abs_neq (x - q * y)) by done.
        rewrite (Z.abs_eq y) in * by done.
        rewrite (Z.abs_neq x) in * by lia. nia.
    + nia.
    + assert (0 ≤ phi * Z.abs x) by (apply Z.mul_nonneg_nonneg; lia).
      assert (2 * Z.abs y ≤ e * Z.abs y)
        by (apply Z.mul_le_mono_nonneg_r; lia).
      lia.
  - assert (e = 1) as -> by lia. by exists x.
Qed.

Lemma modInverse_loop_not_coprime (fuel : nat) :
  ∀ e phi x y,
    1 < e → 0 ≤ phi → Z.gcd e phi ≠ 1 → (Z.to_nat phi < fuel)%nat →
    RSA.modInverse_loop fuel e phi x y = Some RSA.RangeError.
Proof.
  induction fuel as [|fuel IH]; intros e phi x y He Hphi Hgcd Hf; [lia|].
  simpl. rewrite decide_True by done.
  destruct (decide (phi = 0)) as [->|Hne]; [done|].
  rewrite Z.rem_mod_nonneg by lia.
  pose proof (Z.mod_pos_bound e phi ltac:(lia)) as Hmod.
  apply IH; try lia.
  - destruct (decide (phi = 1)) as [->|]; [|lia].
    by rewrite Z.gcd_1_r in Hgcd.
  - by rewrite Z.gcd_comm, Z.gcd_mod, Z.gcd_comm.
Qed.

Lemma modInverse_value (fuel : nat) (e phi : Z) :
  0 < e → 2 ≤ phi → Z.gcd e phi = 1 → (Z.to_nat phi < fuel)%nat →
  ∃ d, RSA.modInverse fuel e phi = Some (RSA.Value d) ∧
       0 < d < phi ∧ (e * d) mod phi = 1.
Proof.
  intros He Hphi Hgcd Hf. unfold RSA.modInverse.
  rewrite decide_False by lia.
  destruct (modInverse_loop_inverse e phi Hphi fuel e phi 1 0)
    as (x & -> & Hx & [k Hk]); try lia.
  { exists 0. lia. }
  { exists 1. lia. }
  eexists. split; [done|].
  assert (x ≠ 0).
  { intros ->. assert (k * phi = 1) as Hone by lia.
    apply Z.eq_mul_1 in Hone. lia. }
  destruct (decide (x < 0)).
  - split; [lia|].
    replace (e * (x + phi)) with (1 + (e - k) * phi) by nia.
    rewrite Z.mod_add, Z.mod_small; lia.
  - split; [lia|].
    replace (e * x) with (1 + (- k) * phi) by nia.
    rewrite Z.mod_add, Z.mod_small; lia.
Qed.

Lemma mod_eq_divide (a b n : Z) :
  n ≠ 0 → a mod n = b mod n ↔ (n | a - b).
Proof.
  intros Hn. split.
  - intros Hab. apply Z.mod_divide; [done|].
    by rewrite Zminus_mod, Hab, Z.sub_diag, Z.mod_0_l.
  - intros [c Hc]. replace a with (b + c * n) by lia.
    by rewrite Z.mod_add.
Qed.

(** X26. [modInverse] returns the inverse or throws: for a positive [e] and
    a modulus [phi] that is not negative it ends within [phi + 1] tests of
    the loop.  When the two are coprime and [phi] is at least 2 the result
    is the one [d] strictly between 0 and [phi] with [e * d mod phi = 1].
    When they are not coprime the loop runs until the remainder is 0 and
    then divides by it, which throws a [RangeError]: that there is no
    inverse is not reported in another way. *)
Theorem modInverse_inverse (fuel : nat) (e phi : Z) :
  0 < e → 0 ≤ phi → (Z.to_nat phi < fuel)%nat →
  (2 ≤ phi → Z.gcd e phi = 1 →
   ∃ d, RSA.modInverse fuel e phi = Some (RSA.Value d) ∧
        0 < d < phi ∧ (e * d) mod phi = 1 ∧
        ∀ d', 0 ≤ d' < phi → (e * d') mod phi = 1 → d' = d) ∧
  (Z.gcd e phi ≠ 1 → RSA.modInverse fuel e phi = Some RSA.RangeError).
Proof.
  intros He Hphi Hf. split.
  - intros Hphi2 Hgcd.
    destruct (modInverse_value fuel e phi He Hphi2 Hgcd Hf)
      as (d & Hd & Hrange & Hed).
    exists d. split; [done|]. split; [done|]. split; [done|].
    intros d' Hd' Hed'.
    assert (phi | e * d' - e * d) as Hdiff
      by (apply mod_eq_divide; [lia|by rewrite Hed, Hed']).
    replace (e * d' - e * d) with (e * (d' - d)) in Hdiff by ring.
    assert (phi | d' - d) as [c Hc].
    { apply Z.gauss with e; [done|by rewrite Z.gcd_comm]. }
    assert (c = 0) by nia. lia.
  - intros Hgcd. unfold RSA.modInverse.
    destruct (decide (phi = 1)) as [->|Hne].
    { by rewrite Z.gcd_1_r in Hgcd. }
    rewrite modInverse_loop_not_coprime; [done| |done|done|done].
    destruct (decide (e = 1)) as [->|]; [|lia].
    by rewrite Z.gcd_1_l in Hgcd.
Qed.

Lemma modInverse_inverse_witness :
  (2 ≤ 60 → Z.gcd 7 60 = 1 →
   ∃ d, RSA.modInverse 61 7 60 = Some (RSA.Value d) ∧
        0 < d < 60 ∧ (7 * d) mod 60 = 1 ∧
        ∀ d', 0 ≤ d' < 60 → (7 * d') mod 60 = 1 → d' = d) ∧
  (Z.gcd 7 60 ≠ 1 → RSA.modInverse 61 7 60 = Some RSA.RangeError).
Proof.
  apply (modInverse_inverse 61 7 60); [lia|lia|].
  simpl. lia.
Defined.

(** ** Key generation *)

Lemma gcd_succ (phi : Z) : Z.gcd (phi + 1) phi = 1.
Proof. apply Z.bezout_1_gcd. exists 1, (-1). ring. Qed.

Lemma choose_e_least (phi : Z) (fuel : nat) (steps : nat) :
  2 ≤ phi → (Z.to_nat phi < fuel)%nat →
  ∀ e,
    3 ≤ e ≤ phi + 1 → (Z.to_nat (phi + 1 - e) < steps)%nat →
    ∃ e', RSA.choose_e steps fuel e phi = Some e' ∧
          e ≤ e' ≤ phi + 1 ∧ Z.gcd e' phi = 1 ∧
          ∀ i, e ≤ i < e' → Z.gcd i phi ≠ 1.
Proof.
  intros Hphi Hf.
  induction steps as [|steps IH]; intros e He Hs; [lia|].
  simpl. destruct (gcd_loop fuel e phi) as (g & -> & Habs & Hpos); [lia|].
  assert (g = Z.gcd e phi) as -> by (specialize (Hpos ltac:(lia) ltac:(lia)); lia).
  destruct (decide (Z.gcd e phi = 1)) as [Hone|Hmore].
  - exists e. split; [done|]. split; [lia|]. split; [done|]. lia.
  - assert (e ≠ phi + 1) by (intros ->; by rewrite gcd_succ in Hmore).
    destruct (IH (e + 1)) as (e' & -> & He' & Hg & Hleast); [lia|lia|].
    exists e'. split; [done|]. split; [lia|]. split; [done|].
    intros i Hi. destruct (decide (i = e)) as [->|]; [done|].
    apply Hleast. lia.
Qed.

Lemma generateKeys_value (fuel : nat) (p q : Z) :
  2 ≤ (p - 1) * (q - 1) → (Z.to_nat ((p - 1) * (q - 1)) < fuel)%nat →
  ∃ e d,
    RSA.generateKeys fuel p q =
    Some (RSA.Value {| RSA.publicKey := (e, p * q);
                       RSA.privateKey := (d, p * q) |}) ∧
    3 ≤ e ≤ (p - 1) * (q - 1) + 1 ∧ Z.gcd e ((p - 1) * (q - 1)) = 1 ∧
    (∀ i, 3 ≤ i < e → Z.gcd i ((p - 1) * (q - 1)) ≠ 1) ∧
    0 < d < (p - 1) * (q - 1) ∧ (e * d) mod ((p - 1) * (q - 1)) = 1.
Proof.
  intros Hphi Hf. unfold RSA.generateKeys.
  set (phi := (p - 1) * (q - 1)) in *.
  destruct (choose_e_least phi fuel fuel Hphi Hf 3)
    as (e & -> & He & Hg & Hleast); [lia|lia|].
  destruct (modInverse_value fuel e phi) as (d & -> & Hd & Hed);
    [lia|done|done|done|].
  by exists e, d.
Qed.

(** X27. [generateKeys] returns a key pair whenever
    [phi = (p - 1) * (q - 1)] is at least 2: both keys carry the modulus
    [p * q], the public exponent is the least integer from 3 on that is
    coprime to [phi] (and is at most [phi + 1]), and the private exponent
    lies strictly between 0 and [phi] and is the inverse of the public one
    modulo [phi].  That [p] and [q] are primes is not used. *)
Theorem generateKeys_keys (fuel : nat) (p q : Z) :
  2 ≤ (p - 1) * (q - 1) → (Z.to_nat ((p - 1) * (q - 1)) < fuel)%nat →
  ∃ keys,
    RSA.generateKeys fuel p q = Some (RSA.Value keys) ∧
    (RSA.publicKey keys).2 = p * q ∧ (RSA.privateKey keys).2 = p * q ∧
    let e := (RSA.publicKey keys).1 in
    let d := (RSA.privateKey keys).1 in
    3 ≤ e ≤ (p - 1) * (q - 1) + 1 ∧ Z.gcd e ((p - 1) * (q - 1)) = 1 ∧
    (∀ i, 3 ≤ i < e → Z.gcd i ((p - 1) * (q - 1)) ≠ 1) ∧
    0 < d < (p - 1) * (q - 1) ∧ (e * d) mod ((p - 1) * (q - 1)) = 1.
Proof.
  intros Hphi Hf.
  destruct (generateKeys_value fuel p q Hphi Hf) as (e & d & -> & Hkeys).
  eexists. split; [done|]. by cbn.
Qed.

Lemma generateKeys_keys_witness :
  ∃ keys,
    RSA.generateKeys 61 7 11 = Some (RSA.Value keys) ∧
    (RSA.publicKey keys).2 = 7 * 11 ∧ (RSA.privateKey keys).2 = 7 * 11 ∧
    let e := (RSA.publicKey keys).1 in
    let d := (RSA.privateKey keys).1 in
    3 ≤ e ≤ (7 - 1) * (11 - 1) + 1 ∧ Z.gcd e ((7 - 1) * (11 - 1)) = 1 ∧
    (∀ i, 3 ≤ i < e → Z.gcd i ((7 - 1) * (11 - 1)) ≠ 1) ∧
    0 < d < (7 - 1) * (11 - 1) ∧ (e * d) mod ((7 - 1) * (11 - 1)) = 1.
Proof.
  apply (generateKeys_keys 61 7 11); simpl; lia.
Defined.

Lemma choose_e_zero (steps fuel : nat) :
  ∀ e, 1 < e → RSA.choose_e steps fuel e 0 = None.
Proof.
  induction steps as [|steps IH]; intros e He; [done|].
  simpl. destruct fuel as [|fuel]; [done|]. simpl.
  rewrite decide_False by lia. apply IH. lia.
Qed.

(** X28. [generateKeys] does not return when [p] or [q] is 1: [phi] is
    then 0, [gcd(e, 0)] is [e], which is never 1 from 3 on, and the search
    for the public exponent goes on however many rounds it is given. *)
Theorem generateKeys_diverges (fuel : nat) (p q : Z) :
  p = 1 ∨ q = 1 → RSA.generateKeys fuel p q = None.
Proof.
  intros Hpq. unfold RSA.generateKeys.
  assert ((p - 1) * (q - 1) = 0) as -> by nia.
  by rewrite choose_e_zero.
Qed.

Lemma generateKeys_diverges_witness :
  RSA.generateKeys 1000 1 11 = None.
Proof.
  apply (generateKeys_diverges 1000 1 11). by left.
Defined.

(** * The prime test *)

Lemma isPrime_loop_decides (num : Z) (fuel : nat) :
  3 ≤ num → ¬ (2 | num) →
  ∀ i,
    3 ≤ i → (2 | i + 1) → (∀ k, 2 ≤ k < i → ¬ (k | num)) →
    (Z.to_nat (Z.sqrt num + 1 - i) < fuel)%nat →
    ∃ b, isPrime_loop fuel i num = Some b ∧ (b = true ↔ Z.prime num).
Proof.
  intros Hnum Hodd.
  induction fuel as [|fuel IH]; intros i Hi Hpar Hnone Hf; [lia|].
  simpl. destruct (decide (i * i ≤ num)) as [Hle|Hgt].
  - assert (i ≤ Z.sqrt num) by (apply Z.sqrt_le_square; lia).
    destruct (decide (Z.rem num i = 0)) as [Hrem|Hrem].
    + exists false. split; [done|]. split; [done|].
      intros [_ Hp]. destruct (Hp i); [nia|]. apply Z.rem_divide; [lia|done].
    + apply IH; [lia| |  |lia].
      * destruct Hpar as [c Hc]. exists (c + 1). lia.
      * intros k Hk Hdiv.
        destruct (decide (k < i)); [by apply (Hnone k); [lia|]|].
        destruct (decide (k = i)) as [->|].
        { apply Hrem. apply Z.rem_divide; [lia|done]. }
        assert (k = i + 1) as -> by lia.
        apply Hodd. by apply Z.divide_trans with (i + 1).
  - exists true. split; [done|]. split; [|done]. intros _.
    split; [lia|]. intros n Hn [c Hc].
    assert (1 < c) by nia.
    destruct (decide (n < i)).
    + apply (Hnone n); [lia|]. by exists c.
    + apply (Hnone c); [nia|]. exists n. lia.
Qed.

(** X29. [isPrime] decides primality by trial division: for every integer
    it returns, within as many rounds as the integer square root of its
    argument, [true] exactly when the argument is a prime number. *)
Theorem isPrime_decides (fuel : nat) (num : Z) :
  (Z.to_nat (Z.sqrt num) < fuel)%nat →
  ∃ b, isPrime fuel num = Some b ∧ (b = true ↔ Z.prime num).
Proof.
  intros Hf. unfold isPrime.
  destruct (decide (num < 2)) as [Hsmall|Hbig].
  { exists false. split; [done|]. split; [done|].
    intros Hp. apply Z.prime_ge_2 in Hp. lia. }
  destruct (decide (num = 2)) as [->|Hne].
  { exists true. split; [done|]. split; [|done]. intros _. apply Z.prime_2. }
  destruct (decide (Z.rem num 2 = 0)) as [Heven|Hodd].
  { exists false. split; [done|]. split; [done|].
    intros [_ Hp]. destruct (Hp 2); [lia|]. apply Z.rem_divide; [lia|done]. }
  apply isPrime_loop_decides; [lia| |lia| | |lia].
  - intros Hdiv. apply Hodd. apply Z.rem_divide; [lia|done].
  - by exists 2.
  - intros k Hk Hdiv. assert (k = 2) as -> by lia.
    apply Hodd. apply Z.rem_divide; [lia|done].
Qed.

Lemma isPrime_decides_witness :
  ∃ b, isPrime 10 97 = Some b ∧ (b = true ↔ Z.prime 97).
Proof.
  apply (isPrime_decides 10 97). vm_compute. lia.
Defined.

(** * Decryption after encryption *)

Lemma pow_fermat (p m k : Z) :
  Z.prime p → 0 ≤ k → m ^ (1 + k * (p - 1)) mod p = m mod p.
Proof.
  intros Hp Hk. pose proof (Z.prime_ge_2 p Hp) as Hp2.
  rewrite Z.pow_add_r, Z.pow_1_r by nia.
  destruct (decide (m mod p = 0)) as [Hzero|Hnz].
  - by rewrite <- Z.mul_mod_idemp_l, Hzero by lia.
  - rewrite (Z.mul_comm k), Z.pow_mul_r by lia.
    rewrite <- Z.mul_mod_idemp_r, <- Z.mod_pow_l by lia.
    rewrite (ZmodInv.Z.fermat_nz p m Hp Hnz).
    by rewrite Z.pow_1_l, Z.mul_mod_idemp_r, Z.mul_1_r by lia.
Qed.

Lemma rsa_identity (p q e d value : Z) :
  Z.prime p → Z.prime q → p ≠ q → 0 < e → 0 < d →
  (e * d) mod ((p - 1) * (q - 1)) = 1 →
  value ^ (e * d) mod (p * q) = value mod (p * q).
Proof.
  intros Hp Hq Hpq He Hd Hed.
  pose proof (Z.prime_ge_2 p Hp) as Hp2.
  pose proof (Z.prime_ge_2 q Hq) as Hq2.
  set (phi := (p - 1) * (q - 1)) in *.
  assert (0 < phi) as Hphi by nia.
  pose proof (Z.div_mod (e * d) phi ltac:(lia)) as Hdiv.
  assert (0 ≤ e * d / phi) as Hk by (apply Z.div_pos; nia).
  set (k := e * d / phi) in *. rewrite Hed in Hdiv.
  assert (p | value ^ (e * d) - value) as Hdp.
  { apply mod_eq_divide; [lia|].
    replace (e * d) with (1 + k * (q - 1) * (p - 1)) by (unfold phi in *; lia).
    apply pow_fermat; [done|nia]. }
  assert (q | value ^ (e * d) - value) as Hdq.
  { apply mod_eq_divide; [lia|].
    replace (e * d) with (1 + k * (p - 1) * (q - 1)) by (unfold phi in *; lia).
    apply pow_fermat; [done|nia]. }
  apply mod_eq_divide; [nia|].
  destruct Hdp as [c Hc]. rewrite Hc in *.
  assert (q | c) as [c' ->].
  { apply Z.gauss with p; [by rewrite Z.mul_comm|].
    apply Z.coprime_prime_l; [done|]. intros Hdiv'.
    apply Hpq. symmetry. by apply Z.divide_prime_prime. }
  exists c'. ring.
Qed.

(** X30. Decryption undoes encryption: for two distinct primes [p] and [q],
    [generateKeys] returns a key pair, and every value from 0 up to
    [p * q - 1] is encrypted with the public key to a value of the same
    range, which the private key decrypts to the value that was
    encrypted. *)
Theorem decrypt_after_encrypt (fuel : nat) (p q : Z) :
  Z.prime p → Z.prime q → p ≠ q → (Z.to_nat (p * q) < fuel)%nat →
  ∃ keys,
    RSA.generateKeys fuel p q = Some (RSA.Value keys) ∧
    ∀ value, 0 ≤ value < p * q →
      ∃ c, RSA.encrypt fuel value (RSA.publicKey keys) = Some (RSA.Value c) ∧
           0 ≤ c < p * q ∧
           RSA.decrypt fuel c (RSA.privateKey keys) = Some (RSA.Value value).
Proof.
  intros Hp Hq Hpq Hf.
  pose proof (Z.prime_ge_2 p Hp) as Hp2.
  pose proof (Z.prime_ge_2 q Hq) as Hq2.
  assert (2 ≤ (p - 1) * (q - 1)) as Hphi by nia.
  assert ((p - 1) * (q - 1) < p * q) as Hlt by nia.
  destruct (generateKeys_value fuel p q Hphi ltac:(lia))
    as (e & d & -> & He & _ & _ & Hd & Hed).
  eexists. split; [done|]. intros value Hvalue.
  unfold RSA.encrypt, RSA.decrypt. cbn [RSA.publicKey RSA.privateKey fst snd].
  assert (∀ x, 0 < x < p * q → (Z.to_nat (Z.log2 x) + 1 < fuel)%nat) as Hlog.
  { intros x Hx. pose proof (Z.log2_lt_lin x ltac:(lia)).
    pose proof (Z.log2_nonneg x). lia. }
  pose proof (Z.mod_pos_bound (value ^ e) (p * q) ltac:(lia)) as Hc.
  rewrite modPow_value; [|lia|lia|lia|lia|apply Hlog; lia].
  eexists. split; [done|]. split; [done|].
  rewrite modPow_value; [|lia|lia|lia|lia|apply Hlog; lia].
  do 2 f_equal.
  rewrite Z.mod_pow_l, <- Z.pow_mul_r by lia.
  rewrite (rsa_identity p q e d value) by (done || lia).
  apply Z.mod_small. lia.
Qed.

Lemma decrypt_after_encrypt_witness :
  ∃ keys,
    RSA.generateKeys 16 3 5 = Some (RSA.Value keys) ∧
    ∀ value, 0 ≤ value < 3 * 5 →
      ∃ c, RSA.encrypt 16 value (RSA.publicKey keys) = Some (RSA.Value c) ∧
           0 ≤ c < 3 * 5 ∧
           RSA.decrypt 16 c (RSA.privateKey keys) = Some (RSA.Value value).
Proof.
  apply (decrypt_after_encrypt 16 3 5).
  - apply Z.prime_3.
  - split; [lia|]. intros n Hn [c Hc].
    assert (n = 2 ∨ n = 3 ∨ n = 4) as [-> | [-> | ->]] by lia; lia.
  - lia.
  - simpl. lia.
Defined.
